(** * Safety-training-video: scene-asset generation and video assembly

    A shallow embedding of the assembly pipeline of the repository
    (TypeScript) and the properties its specification states about it.

    Sources embedded here:
    - [src/app/api/assemble-video/route.ts]   (caption segmenter and timer,
      segment builder with its caption-free fallback, request handler)
    - [src/app/hooks/useVideoGeneration.ts]   (bounded-concurrency pool,
      single-scene regeneration)
    - [src/lib/retry.ts], [src/lib/timeout.ts] (resilience layer)
    - [src/lib/schemas.ts], [src/lib/constants.ts], [src/lib/api-errors.ts]
    - [src/lib/with-api-handler.ts], [src/lib/rate-limit.ts],
      [src/lib/logger.ts]                     (route wrapper, rate limiter)
    - [src/lib/api-client.ts], [src/lib/video-generation-client.ts]
      (the client: fetch with retries, scene-asset generation, the body
      posted to the assemble route)
    - [src/lib/useDebouncedCallback.ts]       (debounced callback)

    Conventions.  A JavaScript string is the list of its UTF-16 code units
    ([jsstring]); a JavaScript number that the code computes with is an
    IEEE-754 binary64 value (Rocq's primitive [float], same rounding as the
    JavaScript engine); list lengths and loop counters are [nat]. *)

From stdpp Require Import gmap list.
From Stdlib Require Import ZArith NArith List String Ascii Bool Lia DecimalString.
From Stdlib Require Import QArith Qfield Qround.
From Stdlib Require Import Floats.
Import ListNotations.

Close Scope Q_scope.
Local Open Scope nat_scope.

(** [length] is the length of a list throughout. *)
Abbreviation length := List.length.

(** ** JavaScript strings *)

Module JsString.

Definition jsstring : Type := list N.

(** A string literal of the source, as code units. *)
Definition str (s : string) : jsstring :=
  List.map N_of_ascii (list_ascii_of_string s).

Definition SPACE : N := 32%N.

(** ECMAScript WhiteSpace and LineTerminator code points: what [\s] matches
    and what [String.prototype.trim] strips. *)
Definition isWhiteSpace (c : N) : bool :=
  ((9 <=? c) && (c <=? 13) || (c =? 32) || (c =? 160) || (c =? 5760)
   || (8192 <=? c) && (c <=? 8202) || (c =? 8232) || (c =? 8233)
   || (c =? 8239) || (c =? 8287) || (c =? 12288) || (c =? 65279))%N.

Fixpoint trimStart (s : jsstring) : jsstring :=
  match s with
  | [] => []
  | c :: r => if isWhiteSpace c then trimStart r else s
  end.

Definition trimEnd (s : jsstring) : jsstring := rev (trimStart (rev s)).

(** [s.trim()] *)
Definition trim (s : jsstring) : jsstring := trimEnd (trimStart s).

(** [s.split(' ')]: the pieces between single space code units; the empty
    string yields one empty piece. *)
Fixpoint splitSpace (s : jsstring) : list jsstring :=
  match s with
  | [] => [[]]
  | c :: r =>
      if (c =? SPACE)%N then [] :: splitSpace r
      else match splitSpace r with
           | w :: ws => (c :: w) :: ws
           | [] => [[c]]
           end
  end.

(** [s.replace(/\s+/g, ' ')]: every maximal run of white space becomes one
    space.  [inRun] tells that the previous code unit was white space. *)
Fixpoint collapseFrom (inRun : bool) (s : jsstring) : jsstring :=
  match s with
  | [] => []
  | c :: r =>
      if isWhiteSpace c
      then (if inRun then collapseFrom true r else SPACE :: collapseFrom true r)
      else c :: collapseFrom false r
  end.

Definition collapseWhiteSpace (s : jsstring) : jsstring := collapseFrom false s.

(** [s.replace(/\0/g, '')] *)
Definition removeNul (s : jsstring) : jsstring :=
  List.filter (fun c => negb (c =? 0)%N) s.

(** [s.slice(0, n)] for [0 <= n]. *)
Definition slice0 (n : nat) (s : jsstring) : jsstring := firstn n s.

(** [parts.join(sep)] *)
Fixpoint join (sep : jsstring) (parts : list jsstring) : jsstring :=
  match parts with
  | [] => []
  | [p] => p
  | p :: rest => p ++ sep ++ join sep rest
  end.

(** [s.replace(/c/g, by)] for a pattern that is one code unit. *)
Definition replaceAll (c : N) (by_ : jsstring) (s : jsstring) : jsstring :=
  List.concat (List.map (fun x => if (x =? c)%N then by_ else [x]) s).

(** [s.startsWith(p)] and [s.includes(p)] *)
Fixpoint startsWith (p s : jsstring) : bool :=
  match p, s with
  | [], _ => true
  | _ :: _, [] => false
  | a :: p', b :: s' => (a =? b)%N && startsWith p' s'
  end.

Fixpoint includes (p s : jsstring) : bool :=
  startsWith p s || match s with [] => false | _ :: s' => includes p s' end.

(** Decimal digits of a non-negative integer, as template literals and
    [String(n)] print integers below 2^53. *)
Definition ofZdigits (z : Z) : jsstring :=
  str (DecimalString.NilZero.string_of_uint (N.to_uint (Z.to_N z))).

Definition ofNat (n : nat) : jsstring := ofZdigits (Z.of_nat n).

End JsString.
Export JsString.

(** ** Constants ([src/lib/constants.ts]) *)

Module Constants.

Definition MAX_SCENES : nat := 10.
Definition MAX_ASSEMBLE_BODY_BYTES : Z := 50 * 1024 * 1024.
Definition ASSEMBLE_VIDEO_TIMEOUT_MS : Z := 300000.
Definition MIN_SCENE_DURATION : float := 3%float.
(** [0.3]: the binary64 value nearest to it. *)
Definition FADE_DURATION : float := 0x1.3333333333333p-2%float.
Definition OUTPUT_WIDTH : nat := 1920.
Definition OUTPUT_HEIGHT : nat := 1080.
Definition VIDEO_BITRATE : jsstring := str "2M".
Definition MAX_CAPTION_LENGTH : nat := 120.
Definition SCENE_ASSET_CONCURRENCY : nat := 3.

End Constants.
Export Constants.

(** ** Number formatting *)

Module NumberFormat.

Definition isNaN (x : float) : bool := negb (PrimFloat.eqb x x).

(** [Math.max(a, b)] *)
Definition mathMax (a b : float) : float :=
  if isNaN a || isNaN b then PrimFloat.nan
  else if PrimFloat.ltb a b then b else a.

(** [Number.isInteger(x)] *)
Definition isInteger (x : float) : bool :=
  match Prim2SF x with
  | S754_zero _ => true
  | S754_finite _ m e => ((0 <=? e) || (Z.pos m mod 2 ^ (- e) =? 0))%Z
  | _ => false
  end.

(** The integer [n] for which [n / 100 - m * 2^e] is as close to zero as
    possible, the larger one of two. *)
Definition hundredths (m : positive) (e : Z) : Z :=
  if (0 <=? e)%Z then Z.pos m * 2 ^ e * 100
  else (2 * (Z.pos m * 100) + 2 ^ (- e)) / (2 * 2 ^ (- e)).

(** [m * 2^e >= 10^21] *)
Definition atLeast1e21 (m : positive) (e : Z) : bool :=
  if (0 <=? e)%Z then (10 ^ 21 <=? Z.pos m * 2 ^ e)%Z
  else (10 ^ 21 * 2 ^ (- e) <=? Z.pos m)%Z.

(** The digits of [n] with the point before the last two, at least one
    digit before it. *)
Definition withTwoDecimals (n : Z) : jsstring :=
  let digits := ofZdigits n in
  let padded := replicate (3 - length digits) 48%N ++ digits in
  firstn (length padded - 2) padded ++ str "." ++ skipn (length padded - 2) padded.

Section ToFixed.
(** [Number::toString], the engine's shortest round-trip printing; used
    as the engine provides it. *)
Variable numberToString : float -> jsstring.

(** [x.toFixed(2)] (ECMAScript, Number.prototype.toFixed). *)
Definition toFixed2 (x : float) : jsstring :=
  match Prim2SF x with
  | S754_zero _ => str "0.00"
  | S754_finite negative m e =>
      if atLeast1e21 m e
      then (if negative then str "-" ++ numberToString (PrimFloat.abs x)
            else numberToString x)
      else (if negative then str "-" else [])
             ++ withTwoDecimals (hundredths m e)
  | _ => numberToString x
  end.
End ToFixed.

End NumberFormat.
Export NumberFormat.

(** ** Caption segmenter and timer ([route.ts], lines 115-123 and 171-237) *)

Module Captions.

(** The per-scene caption text, [captionTexts] of the handler:
    [String(s.narration).trim().replace(/\s+/g, ' ').replace(/\0/g, '')
       .slice(0, MAX_CAPTION_LENGTH)], and [''] without a narration. *)
Definition captionText (narration : option jsstring) : jsstring :=
  match narration with
  | Some n =>
      slice0 MAX_CAPTION_LENGTH (removeNul (collapseWhiteSpace (trim n)))
  | None => []
  end.

(** [captions && captionForScene.length > 0] *)
Definition useCaptions (captions : bool) (captionForScene : jsstring) : bool :=
  captions && (0 <? length captionForScene).

Definition maxCharsPerSegment : nat := 45.

(** The class [[.!?]] of the sentence pattern. *)
Definition isSentenceEnd (c : N) : bool :=
  ((c =? 46) || (c =? 33) || (c =? 63))%N.

(** [text.split(/(?<=[.!?])\s+/)].  The pattern matches at a position whose
    previous code unit is one of [.!?] and whose own code unit is white
    space, and then takes the whole run of white space; split cuts the text
    at every match, left to right.  [inMatch]: the scan is inside a matched
    run; [afterEnd]: the previous code unit is one of [.!?]; [piece]: the
    current piece, reversed. *)
Fixpoint splitFrom (inMatch afterEnd : bool) (piece : jsstring)
    (s : jsstring) : list jsstring :=
  match s with
  | [] => [rev piece]
  | c :: r =>
      if inMatch then
        if isWhiteSpace c then splitFrom true false piece r
        else splitFrom false (isSentenceEnd c) (c :: piece) r
      else if afterEnd && isWhiteSpace c then
        rev piece :: splitFrom true false [] r
      else splitFrom false (isSentenceEnd c) (c :: piece) r
  end.

Definition splitSentences (text : jsstring) : list jsstring :=
  splitFrom false false [] text.

(** [.filter(s => s.trim().length > 0)] *)
Definition sentencesOf (captionForScene : jsstring) : list jsstring :=
  List.filter (fun s => 0 <? length (trim s)) (splitSentences captionForScene).

(** A non-empty string is truthy. *)
Definition truthy (s : jsstring) : bool :=
  match s with [] => false | _ => true end.

(** The word loop of the segmenter (lines 192-199, and again 209-216):
    the state is [(currentChunk, segments)]. *)
Fixpoint packWords (words : list jsstring) (currentChunk : jsstring)
    (segments : list jsstring) : jsstring * list jsstring :=
  match words with
  | [] => (currentChunk, segments)
  | word :: rest =>
      if length currentChunk + length word + 1 <=? maxCharsPerSegment then
        packWords rest
          (if truthy currentChunk then currentChunk ++ [SPACE] ++ word else word)
          segments
      else
        packWords rest word
          (if truthy currentChunk then segments ++ [trim currentChunk]
           else segments)
  end.

(** The loop and the push of the last chunk after it. *)
Definition pushChunks (text : jsstring) (segments : list jsstring)
    : list jsstring :=
  let '(currentChunk, segments') := packWords (splitSpace text) [] segments in
  if truthy currentChunk then segments' ++ [trim currentChunk] else segments'.

(** The body of [for (const sentence of sentences)]. *)
Definition pushSentence (segments : list jsstring) (sentence : jsstring)
    : list jsstring :=
  if length sentence <=? maxCharsPerSegment
  then segments ++ [trim sentence]
  else pushChunks sentence segments.

(** [segments] of the handler (lines 176-218). *)
Definition segments (captionForScene : jsstring) : list jsstring :=
  let segs := fold_left pushSentence (sentencesOf captionForScene) [] in
  if length segs =? 0 then pushChunks captionForScene segs else segs.

(** [segments.map(s => s.split(' ').length)] *)
Definition wordCounts (segs : list jsstring) : list nat :=
  List.map (fun s => length (splitSpace s)) segs.

(** [wordCounts.reduce((a, b) => a + b, 0)] *)
Definition totalWords (wcs : list nat) : nat := fold_left Nat.add wcs 0.

(** The timing loop (lines 226-237), over the arithmetic it is run in:
    [Float64] is the arithmetic of the code, [Exact] is arithmetic on
    rationals without rounding. *)
Record Arith : Type := {
  num : Type;
  zero : num;
  add : num -> num -> num;
  mul : num -> num -> num;
  div : num -> num -> num;
  ofCount : nat -> num
}.

(** Word counts are far below 2^53, where the conversion is exact. *)
Definition Float64 : Arith := {|
  num := float;
  zero := 0%float;
  add := PrimFloat.add;
  mul := PrimFloat.mul;
  div := PrimFloat.div;
  ofCount := fun n => PrimFloat.of_uint63 (Uint63.of_Z (Z.of_nat n))
|}.

Definition Exact : Arith := {|
  num := Q;
  zero := 0%Q;
  add := Qplus;
  mul := Qmult;
  div := Qdiv;
  ofCount := fun n => inject_Z (Z.of_nat n)
|}.

Record Timing (A : Arith) : Type := { t_start : num A; t_end : num A }.
Arguments t_start {A} _.
Arguments t_end {A} _.

Section Timer.
Variable A : Arith.

(** [effectiveDuration * (wordCounts[idx] / totalWords)] *)
Definition segmentDuration (effectiveDuration : num A) (total w : nat)
    : num A :=
  mul A effectiveDuration (div A (ofCount A w) (ofCount A total)).

Fixpoint timingLoop (effectiveDuration : num A) (total : nat)
    (wcs : list nat) (currentTime : num A) : list (Timing A) :=
  match wcs with
  | [] => []
  | w :: rest =>
      let d := segmentDuration effectiveDuration total w in
      {| t_start := currentTime; t_end := add A currentTime d |}
        :: timingLoop effectiveDuration total rest (add A currentTime d)
  end.

(** [segmentTimings] of the handler. *)
Definition segmentTimings (effectiveDuration : num A)
    (segs : list jsstring) : list (Timing A) :=
  let wcs := wordCounts segs in
  timingLoop effectiveDuration (totalWords wcs) wcs (zero A).
End Timer.

(** Every space-separated word of [s] has at most [n] code units. *)
Definition wordsWithin (n : nat) (s : jsstring) : Prop :=
  Forall (fun w => length w <= n) (splitSpace s).

(** The durations of a list of timings, and their sum, without rounding. *)
Definition exactDurations (tq : list (Timing Exact)) : list Q :=
  List.map (fun t : Timing Exact => Qminus (t_end t) (t_start t)) tq.

Definition exactSum (l : list Q) : Q := fold_right Qplus 0%Q l.

(** The windows of a scene as the overlay filter prints them,
    [start.toFixed(2)] and [end.toFixed(2)]. *)
Definition printedWindows (numberToString : float -> jsstring)
    (ts : list (Timing Float64)) : list (jsstring * jsstring) :=
  List.map (fun t : Timing Float64 =>
              (toFixed2 numberToString (t_start t),
               toFixed2 numberToString (t_end t))) ts.

End Captions.
Export Captions.

(** ** Resilience layer: retry ([src/lib/retry.ts]) *)

Module Retry.

Definition DEFAULT_ATTEMPTS : Q := 3.
Definition INITIAL_MS : Z := 1000.

(** [options: { attempts?: number; initialMs?: number }].  [attempts] is
    any finite number, whole or not (a rational here, so that 2.5 is one);
    [initialMs] is a whole number of milliseconds. *)
Record Options : Type := { attempts : option Q; initialMs : option Z }.

Definition noOptions : Options := {| attempts := None; initialMs := None |}.

(** What [withRetry] does to its environment, in order: an invocation of
    [fn], or a wait of [ms] milliseconds
    ([await new Promise(r => setTimeout(r, ms))]). *)
Inductive Event : Type :=
| Invoke
| Wait (ms : Z).

Section WithRetry.
Context {T E : Type}.

(** The operation: how an invocation settles, given everything that
    happened before it (so it may behave differently from call to call). *)
Variable fn : list Event -> T + E.

(** The returned promise: resolved with a value, or rejected with
    [lastErr], which is [undefined] ([None]) before the first failure. *)
Inductive Outcome : Type :=
| Resolved (value : T)
| Rejected (lastErr : option E).

(** [for (let i = 0; i < attempts; i++) { ... } throw lastErr].
    [remaining] counts the iterations left: the integers from [i] on that
    are below [attempts], which are [ceil(attempts) - i] (none when
    [i < attempts] fails); [history] is the environment so far. *)
Fixpoint retryLoop (attempts_ : Q) (initialMs_ : Z) (remaining : nat) (i : Z)
    (lastErr : option E) (history : list Event) : Outcome * list Event :=
  match remaining with
  | 0 => (Rejected lastErr, history)
  | S remaining' =>
      match fn history with
      | inl value => (Resolved value, history ++ [Invoke])
      | inr err =>
          if Qeq_bool (inject_Z i) (attempts_ - 1)%Q
          then (Rejected (Some err), history ++ [Invoke])
          else
            let delay := (initialMs_ * 2 ^ i)%Z in
            retryLoop attempts_ initialMs_ remaining' (i + 1)%Z (Some err)
              (history ++ [Invoke; Wait delay])
      end
  end.

Definition attemptsOf (options : Options) : Q :=
  match attempts options with Some a => a | None => DEFAULT_ATTEMPTS end.

Definition initialMsOf (options : Options) : Z :=
  match initialMs options with Some m => m | None => INITIAL_MS end.

Definition withRetry (options : Options) : Outcome * list Event :=
  retryLoop (attemptsOf options) (initialMsOf options)
    (Z.to_nat (Qceiling (attemptsOf options))) 0%Z None [].
End WithRetry.

Arguments Outcome : clear implicits.

(** The environment after [k] failed attempts, each followed by its wait. *)
Fixpoint failedAttempts (initialMs_ : Z) (k : nat) : list Event :=
  match k with
  | 0 => []
  | S k' =>
      failedAttempts initialMs_ k'
        ++ [Invoke; Wait (initialMs_ * 2 ^ Z.of_nat k')%Z]
  end.

Definition invocations (history : list Event) : nat :=
  length (List.filter (fun e => match e with Invoke => true | _ => false end)
            history).

(** The options name [n] attempts, a whole number, and [ms] milliseconds:
    each is the value given, or the default when none is given. *)
Definition wholeAttempts (options : Options) (n : Z) : Prop :=
  match attempts options with
  | Some a => (a == inject_Z n)%Q
  | None => n = 3%Z
  end.

Definition delayOf (options : Options) (ms : Z) : Prop :=
  match initialMs options with
  | Some m => m = ms
  | None => ms = 1000%Z
  end.

End Retry.

(** ** Resilience layer: timeout ([src/lib/timeout.ts]) *)

Module Timeout.

Definition defaultMessage : jsstring := str "Request timed out".

Section WithTimeout.
Context {T E : Type}.

(** How the wrapped promise settles. *)
Inductive Settlement : Type :=
| Fulfils (value : T)
| Rejects (err : E).

(** A rejection reason of the returned promise: the wrapped promise's own
    reason, or the [new Error(message)] made by the timer callback. *)
Inductive Reason : Type :=
| OfPromise (err : E)
| NewError (message : jsstring).

Inductive PromiseState : Type :=
| Pending
| Fulfilled (value : T)
| Rejected (reason : Reason).

(** [timer]: the pending [setTimeout], with its delay; [underlying]: the
    wrapped promise, [None] while its operation is still running. *)
Record State : Type := {
  returned : PromiseState;
  timer : option Z;
  underlying : option Settlement
}.

(** What the event loop delivers: the delay elapsed, or the operation
    behind the wrapped promise completed. *)
Inductive Event : Type :=
| TimerElapsed
| OperationCompletes (how : Settlement).

(** [resolve] and [reject] of a settled promise do nothing. *)
Definition resolve (p : PromiseState) (value : T) : PromiseState :=
  match p with Pending => Fulfilled value | _ => p end.

Definition reject (p : PromiseState) (reason : Reason) : PromiseState :=
  match p with Pending => Rejected reason | _ => p end.

(** The executor: [setTimeout(..., ms)] and the two handlers attached. *)
Definition start (ms : Z) : State :=
  {| returned := Pending; timer := Some ms; underlying := None |}.

Definition step (message : jsstring) (st : State) (ev : Event) : State :=
  match ev with
  | TimerElapsed =>
      match timer st with
      | Some _ =>
          (* () => reject(new Error(message)) *)
          {| returned := reject (returned st) (NewError message);
             timer := None;
             underlying := underlying st |}
      | None => st (* cleared: the callback never runs *)
      end
  | OperationCompletes how =>
      match underlying st with
      | Some _ => st (* a promise settles once *)
      | None =>
          (* clearTimeout(timer); resolve(value) / reject(err) *)
          {| returned :=
               match how with
               | Fulfils value => resolve (returned st) value
               | Rejects err => reject (returned st) (OfPromise err)
               end;
             timer := None;
             underlying := Some how |}
      end
  end.

Definition run (ms : Z) (message : jsstring) (events : list Event) : State :=
  fold_left (step message) events (start ms).

(** [withTimeout(promise, ms, message)]: the state of the returned promise
    after the events delivered so far. *)
Definition withTimeout (ms : Z) (message : jsstring) (events : list Event)
    : PromiseState :=
  returned (run ms message events).

(** How the operation behind the wrapped promise ends, whatever the timer
    does meanwhile: its first completion among the events. *)
Fixpoint firstCompletion (events : list Event) : option Settlement :=
  match events with
  | [] => None
  | TimerElapsed :: rest => firstCompletion rest
  | OperationCompletes how :: _ => Some how
  end.

(** [await withTimeout(promise, ms, message)] when [ev] is the first event
    delivered: the value awaited, or the reason thrown. *)
Definition awaitTimeout (ms : Z) (message : jsstring) (ev : Event)
    : T + Reason :=
  match ev with
  | TimerElapsed => inr (NewError message)
  | OperationCompletes (Fulfils value) => inl value
  | OperationCompletes (Rejects err) => inr (OfPromise err)
  end.
End WithTimeout.

Arguments Settlement : clear implicits.
Arguments Reason : clear implicits.
Arguments PromiseState : clear implicits.
Arguments State : clear implicits.
Arguments Event : clear implicits.

End Timeout.

(** ** Bounded-concurrency pool ([useVideoGeneration.ts], lines 26-45) *)

Module Pool.

Section RunWithConcurrency.
Context {T R E : Type}.

(** How the promise [fn(item, index)] settles. *)
Variable fn : T -> nat -> R + E.
Variable items : list T.

(** [results]: the array [new Array(items.length)], a hole or [undefined]
    being [None]; [nextIndex]: the shared cursor; [workers]: for each call
    of [worker()], the index [i] of the task it awaits, or [None] once its
    loop has ended. *)
Record State : Type := {
  results : list (option R);
  nextIndex : nat;
  workers : list (option nat)
}.

(** The loop head of a worker: [while (nextIndex < items.length)] claims
    [i = nextIndex++] and awaits the task; otherwise the worker returns. *)
Definition claim (next : nat) : option nat * nat :=
  if next <? length items then (Some next, S next) else (None, next).

(** [Array(count).fill(null).map(() => worker())]: the workers start one
    after the other, each running up to its first [await]. *)
Fixpoint spawn (count : nat) (next : nat) : list (option nat) * nat :=
  match count with
  | 0 => ([], next)
  | S count' =>
      let '(w, next') := claim next in
      let '(ws, next'') := spawn count' next' in
      (w :: ws, next'')
  end.

Definition start (concurrency : nat) : State :=
  let '(ws, next) := spawn (Nat.min concurrency (length items)) 0 in
  {| results := replicate (length items) None;
     nextIndex := next;
     workers := ws |}.

(** The positions of the workers that await a task, [w] being the position
    of the first worker of the list. *)
Fixpoint awaitingFrom (w : nat) (ws : list (option nat)) : list nat :=
  match ws with
  | [] => []
  | Some _ :: rest => w :: awaitingFrom (S w) rest
  | None :: rest => awaitingFrom (S w) rest
  end.

Definition awaiting (ws : list (option nat)) : list nat := awaitingFrom 0 ws.

(** The task awaited by worker [w] settles and the worker resumes:
    on fulfilment [results[i] = value] and the loop head again; on
    rejection the worker's promise rejects, and with it [Promise.all]. *)
Definition resume (st : State) (w : nat) : State + E :=
  match workers st !! w with
  | Some (Some i) =>
      match items !! i with
      | Some item =>
          match fn item i with
          | inl value =>
              let '(next_w, next') := claim (nextIndex st) in
              inl {| results := <[i := Some value]> (results st);
                     nextIndex := next';
                     workers := <[w := next_w]> (workers st) |}
          | inr err => inr err
          end
      | None => inl st
      end
  | _ => inl st
  end.

Inductive Outcome : Type :=
| Returned (results : list (option R))
| Threw (err : E)
| StillRunning.

(** The event loop: while some worker awaits, the next choice of the
    schedule says which awaited task settles next (the [k mod m]-th of the
    [m] awaiting workers); when no worker awaits, [Promise.all] resolves
    and [results] is returned. *)
Fixpoint exec (schedule : list nat) (st : State) : Outcome :=
  match awaiting (workers st) with
  | [] => Returned (results st)
  | w0 :: ws =>
      match schedule with
      | [] => StillRunning
      | k :: schedule' =>
          let w := nth (k mod length (w0 :: ws)) (w0 :: ws) w0 in
          match resume st w with
          | inl st' => exec schedule' st'
          | inr err => Threw err
          end
      end
  end.

Definition runWithConcurrency (concurrency : nat) (schedule : list nat)
    : Outcome :=
  exec schedule (start concurrency).

(** The specification's reference: the tasks awaited one after the other
    in input order, [for (i ...) out.push(await fn(items[i], i))]. *)
Fixpoint sequentialFrom (i : nat) (rest : list T) : list R + E :=
  match rest with
  | [] => inl []
  | item :: rest' =>
      match fn item i with
      | inl value =>
          match sequentialFrom (S i) rest' with
          | inl values => inl (value :: values)
          | inr err => inr err
          end
      | inr err => inr err
      end
  end.

Definition sequentialMap : list R + E := sequentialFrom 0 items.
End RunWithConcurrency.

Arguments Outcome : clear implicits.
Arguments State : clear implicits.

End Pool.

(** ** Shared types ([src/lib/types.ts]) *)

Module Types.

(** [interface SceneAssets]; an optional field that is absent is [None]. *)
Record SceneAssets : Type := {
  sceneIndex : float;
  imageBase64 : option jsstring;
  videoBase64 : option jsstring;
  audioBase64 : jsstring;
  durationSeconds : float;
  narration : option jsstring
}.

(** [interface Scene] *)
Record Scene : Type := {
  scene_narration : jsstring;
  scene_imagePrompt : jsstring;
  scene_duration : option float
}.

(** A value thrown or used as a rejection reason, as far as the handlers
    look at it: [e instanceof Error], [e.name], [e.message]. *)
Record Thrown : Type := {
  isError : bool;
  errName : jsstring;
  errMessage : jsstring
}.

End Types.
Export Types.

(** ** Single-scene regeneration ([useVideoGeneration.ts], lines 162-221) *)

Module Regenerate.

(** JavaScript arrays of object references: a hole or [undefined] entry is
    [None].  Reading outside the array gives [undefined]; writing at or
    beyond the length extends the array. *)
Definition arrayGet {A} (l : list (option A)) (k : nat) : option A :=
  match l !! k with Some entry => entry | None => None end.

Definition arraySet {A} (l : list (option A)) (k : nat) (v : A)
    : list (option A) :=
  if k <? length l then <[k := Some v]> l
  else l ++ replicate (k - length l) None ++ [Some v].

(** The observable steps of a regeneration, in the order they happen:
    the asset came back, its cost was added, the assembler returned the new
    blob, an object URL was revoked, an object URL was created. *)
Inductive Event : Type :=
| Generated
| CostAdded
| Assembled
| Revoked (url : nat)
| UrlCreated (url : nat).

(** What the hook and the browser hold: the [SceneAssets] objects and the
    arrays of them, both by identity; the object URLs that are live; the
    React state [videoBlobUrl], [assets], [regeneratingSceneIndex]. *)
Record World : Type := {
  objects : gmap nat SceneAssets;
  arrays : gmap nat (list (option nat));
  liveUrls : gset nat;
  urlCounter : nat;
  videoBlobUrl : option nat;
  assets : option nat;
  regeneratingSceneIndex : option nat;
  trace : list Event
}.

Definition log (ev : Event) (w : World) : World :=
  {| objects := objects w; arrays := arrays w; liveUrls := liveUrls w;
     urlCounter := urlCounter w; videoBlobUrl := videoBlobUrl w;
     assets := assets w; regeneratingSceneIndex := regeneratingSceneIndex w;
     trace := trace w ++ [ev] |}.

Definition setRegeneratingSceneIndex (v : option nat) (w : World) : World :=
  {| objects := objects w; arrays := arrays w; liveUrls := liveUrls w;
     urlCounter := urlCounter w; videoBlobUrl := videoBlobUrl w;
     assets := assets w; regeneratingSceneIndex := v; trace := trace w |}.

(** An object literal: a new object, whose identity no object has yet. *)
Definition allocObject (asset : SceneAssets) (w : World) : nat * World :=
  let r := fresh (dom (objects w)) in
  (r, {| objects := <[r := asset]> (objects w); arrays := arrays w;
         liveUrls := liveUrls w; urlCounter := urlCounter w;
         videoBlobUrl := videoBlobUrl w; assets := assets w;
         regeneratingSceneIndex := regeneratingSceneIndex w;
         trace := trace w |}).

(** An array literal: a new array. *)
Definition allocArray (elems : list (option nat)) (w : World) : nat * World :=
  let a := fresh (dom (arrays w)) in
  (a, {| objects := objects w; arrays := <[a := elems]> (arrays w);
         liveUrls := liveUrls w; urlCounter := urlCounter w;
         videoBlobUrl := videoBlobUrl w; assets := assets w;
         regeneratingSceneIndex := regeneratingSceneIndex w;
         trace := trace w |}).

(** [arr[k] = v] on the array [arr]. *)
Definition storeArray (arr k v : nat) (w : World) : World :=
  {| objects := objects w;
     arrays := alter (fun l => arraySet l k v) arr (arrays w);
     liveUrls := liveUrls w; urlCounter := urlCounter w;
     videoBlobUrl := videoBlobUrl w; assets := assets w;
     regeneratingSceneIndex := regeneratingSceneIndex w; trace := trace w |}.

(** [URL.revokeObjectURL(u)] *)
Definition revokeObjectURL (u : nat) (w : World) : World :=
  log (Revoked u)
  {| objects := objects w; arrays := arrays w;
     liveUrls := liveUrls w ∖ {[u]}; urlCounter := urlCounter w;
     videoBlobUrl := videoBlobUrl w; assets := assets w;
     regeneratingSceneIndex := regeneratingSceneIndex w; trace := trace w |}.

(** [URL.createObjectURL(blob)]: a URL never handed out before. *)
Definition createObjectURL (w : World) : nat * World :=
  let u := urlCounter w in
  (u, log (UrlCreated u)
      {| objects := objects w; arrays := arrays w;
         liveUrls := liveUrls w ∪ {[u]}; urlCounter := S u;
         videoBlobUrl := videoBlobUrl w; assets := assets w;
         regeneratingSceneIndex := regeneratingSceneIndex w;
         trace := trace w |}).

Definition setVideoBlobUrl (u : option nat) (w : World) : World :=
  {| objects := objects w; arrays := arrays w; liveUrls := liveUrls w;
     urlCounter := urlCounter w; videoBlobUrl := u; assets := assets w;
     regeneratingSceneIndex := regeneratingSceneIndex w; trace := trace w |}.

Definition setAssets (a : option nat) (w : World) : World :=
  {| objects := objects w; arrays := arrays w; liveUrls := liveUrls w;
     urlCounter := urlCounter w; videoBlobUrl := videoBlobUrl w; assets := a;
     regeneratingSceneIndex := regeneratingSceneIndex w; trace := trace w |}.

(** The objects an array of references holds, as [assembleVideo] sends
    them. *)
Definition contents (w : World) (elems : list (option nat))
    : list (option SceneAssets) :=
  List.map (fun entry => match entry with
                         | Some r => objects w !! r
                         | None => None
                         end) elems.

(** [{ ok: true } | { ok: false; message }] *)
Inductive Result : Type :=
| Ok
| NotOk (message : jsstring).

(** The promise of [regenerateScene]: resolved with a result, or rejected
    (only [fetchProviderConfig], awaited outside the [try], can do that). *)
Inductive Outcome : Type :=
| Resolved (r : Result)
| Rejected (e : Thrown).

Section RegenerateScene.
(** The collaborators, as the settlement of each awaited call:
    [fetchProviderConfig()], [generateSceneAsset(scene, sceneIndex, ...)]
    and [assembleVideo(newAssets, captions, ...)]. *)
Variable fetchProviderConfig : unit + Thrown.
Variable generateSceneAsset : Scene -> nat -> SceneAssets + Thrown.
Variable assembleVideo : list (option SceneAssets) -> bool -> unit + Thrown.

Definition failureMessage (e : Thrown) : jsstring :=
  let isAborted := isError e && bool_decide (errName e = str "AbortError") in
  if isAborted then str "Regeneration cancelled"
  else if isError e then errMessage e else str "Regenerate failed".

(** The [finally] block (progress and abort bookkeeping left out). *)
Definition finally_ (w : World) : World := setRegeneratingSceneIndex None w.

Definition regenerateScene (sceneIndex : nat) (scene : Scene)
    (currentAssets : nat) (captions : bool) (previousBlobUrl : option nat)
    (w : World) : Outcome * World :=
  let w := setRegeneratingSceneIndex (Some sceneIndex) w in
  match fetchProviderConfig with
  | inr e => (Rejected e, w)
  | inl _ =>
      match generateSceneAsset scene sceneIndex with
      | inr e => (Resolved (NotOk (failureMessage e)), finally_ w)
      | inl assetData =>
          let '(asset, w) := allocObject assetData (log Generated w) in
          let w := log CostAdded w in
          (* const newAssets = [...currentAssets]; *)
          let copied :=
            match arrays w !! currentAssets with
            | Some elems => elems
            | None => []
            end in
          let '(newAssets, w) := allocArray copied w in
          (* newAssets[sceneIndex] = asset; *)
          let w := storeArray newAssets sceneIndex asset w in
          let sent :=
            match arrays w !! newAssets with
            | Some elems => contents w elems
            | None => []
            end in
          match assembleVideo sent captions with
          | inr e => (Resolved (NotOk (failureMessage e)), finally_ w)
          | inl _ =>
              let w := log Assembled w in
              let w :=
                match previousBlobUrl with
                | Some u => revokeObjectURL u w
                | None => w
                end in
              let '(u, w) := createObjectURL w in
              let w := setVideoBlobUrl (Some u) w in
              let w := setAssets (Some newAssets) w in
              (Resolved Ok, finally_ w)
          end
      end
  end.
End RegenerateScene.

(** The assets [assembleVideo] is called with in a regeneration of scene
    [k] over the array [old]: what the copy of the array refers to, once
    the regenerated asset, a new object, is stored at [k]. *)
Definition sentAssets (w : World) (old : list (option nat)) (k : nat)
    (data : SceneAssets) : list (option SceneAssets) :=
  let asset := fresh (dom (objects w)) in
  List.map (fun entry => match entry with
                         | Some r => <[asset := data]> (objects w) !! r
                         | None => None
                         end)
    (arraySet old k asset).

End Regenerate.

(** ** Request schema ([src/lib/schemas.ts]) *)

Module Schema.

(** A JSON value, as [request.json()] yields it.  An object lists each of
    its keys once. *)
#[local] Unset Elimination Schemes.
Inductive Json : Type :=
| JNull
| JBool (b : bool)
| JNumber (x : float)
| JString (s : jsstring)
| JArray (elems : list Json)
| JObject (props : list (jsstring * Json)).
#[local] Set Elimination Schemes.

(** [obj[key]], [None] for [undefined]. *)
Fixpoint getProp (key : jsstring) (props : list (jsstring * Json))
    : option Json :=
  match props with
  | [] => None
  | (k, v) :: rest => if bool_decide (k = key) then Some v else getProp key rest
  end.

(** Each parser gives the parsed value, or [None] when zod reports an
    issue.  [z.number()] refuses [NaN]. *)
Definition zNumber (v : option Json) : option float :=
  match v with
  | Some (JNumber x) => if isNaN x then None else Some x
  | _ => None
  end.

(** [z.number().int().min(0)] *)
Definition zIndex (v : option Json) : option float :=
  match zNumber v with
  | Some x => if isInteger x && PrimFloat.leb 0 x then Some x else None
  | None => None
  end.

(** [z.number().positive()] *)
Definition zPositive (v : option Json) : option float :=
  match zNumber v with
  | Some x => if PrimFloat.ltb 0 x then Some x else None
  | None => None
  end.

(** [z.string()] *)
Definition zString (v : option Json) : option jsstring :=
  match v with
  | Some (JString s) => Some s
  | _ => None
  end.

(** [z.string().min(1)] *)
Definition zNonEmpty (v : option Json) : option jsstring :=
  match zString v with
  | Some s => if 1 <=? length s then Some s else None
  | None => None
  end.

(** [.optional()]: [undefined] passes as it is. *)
Definition zOptional {A} (parse : option Json -> option A)
    (v : option Json) : option (option A) :=
  match v with
  | None => Some None
  | Some _ => option_map Some (parse v)
  end.

(** [!!s] of an optional string. *)
Definition present (s : option jsstring) : bool :=
  match s with Some t => truthy t | None => false end.

(** [sceneAssetSchema]: the object, then its two refinements. *)
Definition parseSceneAsset (v : Json) : option SceneAssets :=
  match v with
  | JObject props =>
      match zIndex (getProp (str "sceneIndex") props),
            zOptional zNonEmpty (getProp (str "imageBase64") props),
            zOptional zNonEmpty (getProp (str "videoBase64") props),
            zNonEmpty (getProp (str "audioBase64") props),
            zPositive (getProp (str "durationSeconds") props),
            zOptional zString (getProp (str "narration") props)
      with
      | Some idx, Some image, Some video, Some audio, Some duration, Some narr =>
          let d := {| sceneIndex := idx; imageBase64 := image;
                      videoBase64 := video; audioBase64 := audio;
                      durationSeconds := duration; narration := narr |} in
          if (present image || present video)
             && negb (present image && present video)
          then Some d else None
      | _, _, _, _, _, _ => None
      end
  | _ => None
  end.

(** [z.array(sceneAssetSchema)]: every element parses. *)
Fixpoint parseScenes (elems : list Json) : option (list SceneAssets) :=
  match elems with
  | [] => Some []
  | v :: rest =>
      match parseSceneAsset v, parseScenes rest with
      | Some d, Some ds => Some (d :: ds)
      | _, _ => None
      end
  end.

(** [z.boolean().optional().default(true)] *)
Definition zCaptions (v : option Json) : option bool :=
  match v with
  | None => Some true
  | Some (JBool b) => Some b
  | Some _ => None
  end.

Record AssembleVideoBody : Type := {
  scenes : list SceneAssets;
  captions : bool
}.

(** [assembleVideoBodySchema.safeParse(body)]: the data on success. *)
Definition safeParse (body : Json) : option AssembleVideoBody :=
  match body with
  | JObject props =>
      match getProp (str "scenes") props with
      | Some (JArray elems) =>
          if (1 <=? length elems) && (length elems <=? MAX_SCENES) then
            match parseScenes elems, zCaptions (getProp (str "captions") props) with
            | Some ds, Some c => Some {| scenes := ds; captions := c |}
            | _, _ => None
            end
          else None
      | _ => None
      end
  | _ => None
  end.

End Schema.
Export Schema.

(** ** The assemble endpoint ([route.ts], [handleAssembleVideo]) *)

Module Assemble.

Inductive ErrorCode : Type :=
| VALIDATION_ERROR | RATE_LIMITED | INTERNAL_ERROR | NOT_FOUND
| BAD_REQUEST | TIMEOUT | SERVICE_UNAVAILABLE.

(** [parseInt(s, 10)], [None] for [NaN].  The value is the integer read;
    the double the engine makes of it compares with
    [MAX_ASSEMBLE_BODY_BYTES] as the integer does. *)
Definition isDigit (c : N) : bool := ((48 <=? c) && (c <=? 57))%N.

Fixpoint digitsValue (acc : Z) (s : jsstring) : Z :=
  match s with
  | c :: r =>
      if isDigit c then digitsValue (10 * acc + (Z.of_N c - 48))%Z r else acc
  | [] => acc
  end.

Definition parseInt10 (s : jsstring) : option Z :=
  let t := trimStart s in
  let '(negative, t) :=
    match t with
    | c :: r =>
        if (c =? 45)%N then (true, r)
        else if (c =? 43)%N then (false, r) else (false, t)
    | [] => (false, t)
    end in
  match t with
  | c :: _ =>
      if isDigit c
      then Some (if negative then (- digitsValue 0 t)%Z else digitsValue 0 t)
      else None
  | [] => None
  end.

(** [contentLength && parseInt(contentLength, 10) > MAX_ASSEMBLE_BODY_BYTES] *)
Definition bodyTooLarge (contentLength : option jsstring) : bool :=
  match contentLength with
  | Some s =>
      truthy s &&
      match parseInt10 s with
      | Some n => (MAX_ASSEMBLE_BODY_BYTES <? n)%Z
      | None => false
      end
  | None => false
  end.

(** What the handler reads of a request: [headers.get('content-length')]
    and the settlement of [request.json()] ([None]: the body is not
    JSON, the promise rejects). *)
Record Request : Type := {
  contentLength : option jsstring;
  json : option Json
}.

(** [path.join(dir, name)] *)
Definition pathJoin (dir name : jsstring) : jsstring := dir ++ str "/" ++ name.

(** A run of the encoder. *)
Inductive Job : Type :=
| RenderSegment (input : jsstring) (isVideo : bool) (audio : jsstring)
    (outputOptions : list jsstring) (output : jsstring)
| Concat (listPath outputPath : jsstring).

(** What is done to the file system, in order. *)
Inductive FsEvent : Type :=
| Mkdir (dir : jsstring)
| WriteFile (dir name : jsstring)
| ReadFile (dir name : jsstring)
| Unlink (dir name : jsstring)
| Rmdir (dir : jsstring)
| Encoder (job : Job)
| ConsoleError (message : jsstring).

(** The calls of [cleanup] that the file system can refuse, by throwing:
    [fs.readdirSync(dir)], [fs.unlinkSync(path.join(dir, name))] (the
    entry is a directory, the file is held open, a permission is missing)
    and [fs.rmdirSync(dir)]. *)
Inductive FsCall : Type :=
| Readdir (dir : jsstring)
| UnlinkOf (dir name : jsstring)
| RmdirOf (dir : jsstring).

Section Handler.
(** What the encoder writes, and the error it fails with. *)
Variables (Media FfErr : Type).

Inductive FileData : Type :=
| Base64Decoded (base64 : jsstring)     (* Buffer.from(s, 'base64') *)
| Text (content : jsstring)
| Produced (m : Media).

(** Directories by path, each with its files by name. *)
Definition Files : Type := gmap jsstring (gmap jsstring FileData).

(** The file system, what was done to it, and which calls of the cleanup
    it refuses. *)
Record World : Type := {
  files : Files;
  events : list FsEvent;
  refuses : FsCall -> bool
}.

(** The collaborators: the engine's number printing; a render of one
    segment, which resolves or rejects; the concatenation raced against
    its deadline, as the first event delivered to [withTimeout]. *)
Variable numberToString : float -> jsstring.
Variable renderRun : Job -> Files -> option FfErr * Files.
Variable concatRun : Job -> Files -> Timeout.Event unit FfErr * Files.

Inductive Exn : Type :=
| BodyNotJson
| RenderError (e : FfErr)
| ErrorOf (message : jsstring)
| FsError (dir name : jsstring).

Inductive Completion (A : Type) : Type :=
| Normal (a : A)
| Throw (e : Exn).
Arguments Normal {A} a.
Arguments Throw {A} e.

Definition M (A : Type) : Type := World -> Completion A * World.

Definition ret {A} (a : A) : M A := fun w => (Normal a, w).
Definition throw {A} (e : Exn) : M A := fun w => (Throw e, w).
Definition bind {A B} (c : M A) (k : A -> M B) : M B :=
  fun w => match c w with
           | (Normal a, w') => k a w'
           | (Throw e, w') => (Throw e, w')
           end.
Definition catch {A} (c : M A) (handler : Exn -> M A) : M A :=
  fun w => match c w with
           | (Normal a, w') => (Normal a, w')
           | (Throw e, w') => handler e w'
           end.
Definition finally_ {A} (c : M A) (after : World -> World) : M A :=
  fun w => let '(r, w') := c w in (r, after w').

Notation "x <- c ;; k" := (bind c (fun x => k))
  (at level 100, c at next level, right associativity).
Notation "c ;;; k" := (bind c (fun _ => k))
  (at level 100, right associativity).

Definition record (ev : FsEvent) (w : World) : World :=
  {| files := files w; events := events w ++ [ev]; refuses := refuses w |}.

(** [fs.mkdirSync(dir, { recursive: true })] *)
Definition mkdirSync (dir : jsstring) : M unit := fun w =>
  (Normal tt,
   record (Mkdir dir)
     {| files := match files w !! dir with
                 | Some _ => files w
                 | None => <[dir := ∅]> (files w)
                 end;
        events := events w;
        refuses := refuses w |}).

(** [fs.writeFileSync(path.join(dir, name), data)] *)
Definition writeFileSync (dir name : jsstring) (data : FileData) : M unit :=
  fun w =>
    match files w !! dir with
    | Some entries =>
        (Normal tt,
         record (WriteFile dir name)
           {| files := <[dir := <[name := data]> entries]> (files w);
              events := events w;
              refuses := refuses w |})
    | None => (Throw (FsError dir name), w)
    end.

(** [fs.readFileSync(path.join(dir, name))] *)
Definition readFileSync (dir name : jsstring) : M FileData := fun w =>
  match files w !! dir with
  | Some entries =>
      match entries !! name with
      | Some data => (Normal data, record (ReadFile dir name) w)
      | None => (Throw (FsError dir name), w)
      end
  | None => (Throw (FsError dir name), w)
  end.

(** [fs.readdirSync(tmpDir).forEach((f) => fs.unlinkSync(path.join(tmpDir, f)))]:
    the files are unlinked in the order of the listing, up to the first
    one that the file system refuses; [false] when one is refused. *)
Fixpoint unlinkEach (refused : FsCall -> bool) (tmpDir : jsstring)
    (names : list jsstring) (entries : gmap jsstring FileData)
    : bool * gmap jsstring FileData * list FsEvent :=
  match names with
  | [] => (true, entries, [])
  | f :: rest =>
      if refused (UnlinkOf tmpDir f) then (false, entries, [])
      else
        let '(done, entries', evs) :=
          unlinkEach refused tmpDir rest (delete f entries) in
        (done, entries', Unlink tmpDir f :: evs)
  end.

(** [cleanup] (lines 94-103): when the directory exists, its files are
    unlinked and the directory is removed; a call that throws ends the
    [try] block there: the error is logged by the [catch], and the
    directory stays with the files not yet unlinked.  Nothing is done when
    the directory does not exist. *)
Definition cleanup (tmpDir : jsstring) (w : World) : World :=
  match files w !! tmpDir with
  | Some entries =>
      let failed := fun entries' evs =>
        {| files := <[tmpDir := entries']> (files w);
           events := events w ++ evs ++ [ConsoleError (str "Cleanup error:")];
           refuses := refuses w |} in
      if refuses w (Readdir tmpDir) then failed entries []
      else
        let '(done, entries', evs) :=
          unlinkEach (refuses w) tmpDir (List.map fst (map_to_list entries))
            entries in
        if done && negb (refuses w (RmdirOf tmpDir))
        then {| files := delete tmpDir (files w);
                events := events w ++ evs ++ [Rmdir tmpDir];
                refuses := refuses w |}
        else failed entries' evs
  | None => w
  end.

(** [outputOpts] of [runSegment]. *)
Definition outputOptions (effectiveDuration : float) (filterChain : jsstring)
    : list jsstring :=
  [str "-c:v"; str "libx264"; str "-b:v"; VIDEO_BITRATE;
   str "-t"; numberToString effectiveDuration;
   str "-pix_fmt"; str "yuv420p"; str "-c:a"; str "aac";
   str "-b:a"; str "128k"; str "-vf"; filterChain; str "-shortest"].

(** [runSegment(filterChain, inputSpec)]: one run of the encoder, which
    resolves or rejects. *)
Definition runSegment (effectiveDuration : float) (audioPath segmentPath : jsstring)
    (filterChain : jsstring) (inputPath : jsstring) (isVideo : bool) : M unit :=
  fun w =>
    let job := RenderSegment inputPath isVideo audioPath
                 (outputOptions effectiveDuration filterChain) segmentPath in
    let '(r, fs') := renderRun job (files w) in
    let w' := record (Encoder job)
                {| files := fs'; events := events w; refuses := refuses w |} in
    match r with
    | None => (Normal tt, w')
    | Some err => (Throw (RenderError err), w')
    end.

(** [tryRunSegment(filterChain, inputSpec)] (lines 305-327) *)
Definition tryRunSegment (useCaptions_ : bool) (baseVf : jsstring)
    (run : jsstring -> M unit) (filterChain : jsstring) : M unit :=
  catch (run filterChain)
    (fun segmentErr =>
       if useCaptions_ && negb (bool_decide (filterChain = baseVf))
       then catch (run baseVf) (fun noCaptionErr => throw noCaptionErr)
       else throw segmentErr).

(** [escapeForDrawtext] *)
Definition escapeForDrawtext (text : jsstring) : jsstring :=
  replaceAll 13 []
    (replaceAll 10 (str " ")
       (replaceAll 58 (str "\:")
          (replaceAll 34 []
             (replaceAll 39 []
                (replaceAll 92 (str "\\") text))))).

Definition fontSize : nat := 28.
Definition yPos : nat := 980.

Definition drawFilter (segment : jsstring) (t : Timing Float64) : jsstring :=
  str "drawtext=text='" ++ escapeForDrawtext segment
    ++ str "':fontsize=" ++ ofNat fontSize
    ++ str ":fontcolor=white:borderw=2:bordercolor=black:box=1:boxcolor=black@0.6:boxborderw=8:x=(w-text_w)/2:y="
    ++ ofNat yPos
    ++ str ":enable='between(t," ++ toFixed2 numberToString (t_start t)
    ++ str "," ++ toFixed2 numberToString (t_end t) ++ str ")'".

(** [segments.map((segment, idx) => ... segmentTimings[idx] ...)] *)
Definition drawFilters (effectiveDuration : float) (segs : list jsstring)
    : list jsstring :=
  List.map (fun p => drawFilter p.1 p.2)
    (combine segs (segmentTimings Float64 effectiveDuration segs)).

Definition scalePad : jsstring :=
  str "scale=" ++ ofNat OUTPUT_WIDTH ++ str ":" ++ ofNat OUTPUT_HEIGHT
    ++ str ":force_original_aspect_ratio=decrease,"
    ++ str "pad=" ++ ofNat OUTPUT_WIDTH ++ str ":" ++ ofNat OUTPUT_HEIGHT
    ++ str ":(ow-iw)/2:(oh-ih)/2".

Definition fades (fadeOutStart : float) : jsstring :=
  str "fade=t=in:st=0:d=" ++ numberToString FADE_DURATION
    ++ str ",fade=t=out:st=" ++ numberToString fadeOutStart
    ++ str ":d=" ++ numberToString FADE_DURATION.

Definition baseVfOf (effectiveDuration : float) : jsstring :=
  scalePad ++ str "," ++ fades (PrimFloat.sub effectiveDuration FADE_DURATION).

(** [captionTexts[i] ?? (narration != null ? String(narration).trim() : '')] *)
Definition captionForSceneOf (captionTexts : list jsstring) (i : nat)
    (scene : SceneAssets) : jsstring :=
  match captionTexts !! i with
  | Some t => t
  | None => match narration scene with Some n => trim n | None => [] end
  end.

(** [vf] of scene [i] (lines 169-264). *)
Definition vfOf (captions_ : bool) (captionForScene : jsstring)
    (effectiveDuration : float) : jsstring :=
  let baseVf := baseVfOf effectiveDuration in
  if useCaptions captions_ captionForScene
  then baseVf ++ str ","
         ++ join (str ",") (drawFilters effectiveDuration (segments captionForScene))
  else baseVf.

Record NextResponse : Type := {
  status : nat;
  errorMessage : option jsstring;
  errorCode : option ErrorCode;
  errorSceneIndex : option nat;
  payload : option FileData
}.

(** [NextResponse.json(apiError(message, { code, details }), { status })] *)
Definition errorResponse (st : nat) (message : jsstring) (code : ErrorCode)
    (sceneIdx : option nat) : NextResponse :=
  {| status := st; errorMessage := Some message; errorCode := Some code;
     errorSceneIndex := sceneIdx; payload := None |}.

(** [NextResponse.json(formatValidationErrors(parseResult), { status: 400 })];
    the messages are zod's. *)
Definition validationResponse : NextResponse :=
  {| status := 400; errorMessage := None; errorCode := Some VALIDATION_ERROR;
     errorSceneIndex := None; payload := None |}.

Definition videoResponse (videoBuffer : FileData) : NextResponse :=
  {| status := 200; errorMessage := None; errorCode := None;
     errorSceneIndex := None; payload := Some videoBuffer |}.

Definition sceneFile (prefix : string) (i : nat) (ext : string) : jsstring :=
  str prefix ++ ofNat i ++ str ext.

(** The body of the loop over the scenes, for scene [i]: [Some response]
    when it returns from the handler. *)
Definition processScene (tmpDir : jsstring) (captions_ : bool)
    (captionTexts : list jsstring) (i : nat) (scene : SceneAssets)
    : M (option NextResponse) :=
  let hasImage := present (imageBase64 scene) in
  let hasVideo := present (videoBase64 scene) in
  if (negb hasImage && negb hasVideo) || negb (truthy (audioBase64 scene))
     || PrimFloat.leb (durationSeconds scene) 0
  then ret (Some (errorResponse 400
         (str "Scene " ++ ofNat i ++
          str ": either imageBase64 or videoBase64 required, plus audioBase64 and durationSeconds")
         BAD_REQUEST (Some i)))
  else if hasImage && hasVideo
  then ret (Some (errorResponse 400
         (str "Scene " ++ ofNat i ++
          str ": cannot have both imageBase64 and videoBase64")
         BAD_REQUEST (Some i)))
  else
    let effectiveDuration := mathMax (durationSeconds scene) MIN_SCENE_DURATION in
    let audioName := sceneFile "scene-" i ".audio" in
    let segmentName := sceneFile "segment-" i ".mp4" in
    writeFileSync tmpDir audioName (Base64Decoded (audioBase64 scene)) ;;;
    let baseVf := baseVfOf effectiveDuration in
    let captionForScene := captionForSceneOf captionTexts i scene in
    let vf := vfOf captions_ captionForScene effectiveDuration in
    let run := fun filterChain inputName isVideo =>
      runSegment effectiveDuration (pathJoin tmpDir audioName)
        (pathJoin tmpDir segmentName) filterChain (pathJoin tmpDir inputName)
        isVideo in
    let try := fun inputName isVideo =>
      tryRunSegment (useCaptions captions_ captionForScene) baseVf
        (fun filterChain => run filterChain inputName isVideo) vf in
    (if hasImage then
       let imgName := sceneFile "scene-" i ".png" in
       writeFileSync tmpDir imgName
         (Base64Decoded (default [] (imageBase64 scene))) ;;;
       try imgName false
     else
       let videoName := sceneFile "scene-" i ".mp4" in
       writeFileSync tmpDir videoName
         (Base64Decoded (default [] (videoBase64 scene))) ;;;
       try videoName true) ;;;
    ret None.

(** [for (let i = 0; i < scenes.length; i++)], from scene [i] on;
    [inr segmentPaths] when the loop ends. *)
Fixpoint sceneLoop (tmpDir : jsstring) (captions_ : bool)
    (captionTexts : list jsstring) (i : nat) (rest : list SceneAssets)
    (segmentPaths : list jsstring) : M (NextResponse + list jsstring) :=
  match rest with
  | [] => ret (inr segmentPaths)
  | scene :: rest' =>
      r <- processScene tmpDir captions_ captionTexts i scene ;;
      match r with
      | Some response => ret (inl response)
      | None =>
          sceneLoop tmpDir captions_ captionTexts (S i) rest'
            (segmentPaths
               ++ [pathJoin tmpDir (sceneFile "segment-" i ".mp4")])
      end
  end.

(** The concatenation under [withTimeout(..., ASSEMBLE_VIDEO_TIMEOUT_MS,
    'Video assembly timed out')]. *)
Definition concatenate (listPath outputPath : jsstring) : M unit := fun w =>
  let job := Concat listPath outputPath in
  let '(ev, fs') := concatRun job (files w) in
  let w' := record (Encoder job)
              {| files := fs'; events := events w; refuses := refuses w |} in
  match Timeout.awaitTimeout ASSEMBLE_VIDEO_TIMEOUT_MS
          (str "Video assembly timed out") ev with
  | inl _ => (Normal tt, w')
  | inr (Timeout.OfPromise err) => (Throw (RenderError err), w')
  | inr (Timeout.NewError message) => (Throw (ErrorOf message), w')
  end.

(** The [try] block of the handler. *)
Definition assemble (tmpDir : jsstring) (request : Request) : M NextResponse :=
  body <- (match json request with
           | Some v => ret v
           | None => throw BodyNotJson
           end) ;;
  match safeParse body with
  | None => ret validationResponse
  | Some data =>
      let captionTexts := List.map (fun s => captionText (narration s)) (scenes data) in
      r <- sceneLoop tmpDir (captions data) captionTexts 0 (scenes data) [] ;;
      match r with
      | inl response => ret response
      | inr segmentPaths =>
          writeFileSync tmpDir (str "list.txt")
            (Text (join (str "
")
               (List.map (fun p => str "file '" ++ replaceAll 92 (str "/") p ++ str "'")
                  segmentPaths))) ;;;
          concatenate (pathJoin tmpDir (str "list.txt"))
            (pathJoin tmpDir (str "output.mp4")) ;;;
          videoBuffer <- readFileSync tmpDir (str "output.mp4") ;;
          ret (videoResponse videoBuffer)
      end
  end.

(** [handleAssembleVideo(request)]; [tmpDir] is
    [path.join(os.tmpdir(), `safety-video-${Date.now()}`)]. *)
Definition handleAssembleVideo (tmpDir : jsstring) (request : Request)
    : M NextResponse :=
  if bodyTooLarge (contentLength request)
  then ret (errorResponse 413 (str "Request body too large") BAD_REQUEST None)
  else
    mkdirSync tmpDir ;;;
    finally_ (assemble tmpDir request) (cleanup tmpDir).
End Handler.

Arguments Normal {FfErr A} a.
Arguments Throw {FfErr A} e.
Arguments BodyNotJson {FfErr}.
Arguments RenderError {FfErr} e.
Arguments ErrorOf {FfErr} message.
Arguments FsError {FfErr} dir name.
Arguments Base64Decoded {Media} base64.
Arguments Text {Media} content.
Arguments Produced {Media} m.
Arguments ret {Media FfErr A} a w.
Arguments throw {Media FfErr A} e w.
Arguments bind {Media FfErr A B} c k w.
Arguments catch {Media FfErr A} c handler w.
Arguments finally_ {Media FfErr A} c after w.
Arguments record {Media} ev w.
Arguments mkdirSync {Media FfErr} dir w.
Arguments writeFileSync {Media FfErr} dir name data w.
Arguments readFileSync {Media FfErr} dir name w.
Arguments unlinkEach {Media} refused tmpDir names entries.
Arguments cleanup {Media} tmpDir w.
Arguments runSegment {Media FfErr} numberToString renderRun effectiveDuration
  audioPath segmentPath filterChain inputPath isVideo w.
Arguments tryRunSegment {Media FfErr} useCaptions_ baseVf run filterChain w.
Arguments errorResponse {Media} st message code sceneIdx.
Arguments validationResponse {Media}.
Arguments videoResponse {Media} videoBuffer.
Arguments processScene {Media FfErr} numberToString renderRun tmpDir captions_
  captionTexts i scene w.
Arguments sceneLoop {Media FfErr} numberToString renderRun tmpDir captions_
  captionTexts i rest segmentPaths w.
Arguments concatenate {Media FfErr} concatRun listPath outputPath w.
Arguments assemble {Media FfErr} numberToString renderRun concatRun tmpDir
  request w.
Arguments handleAssembleVideo {Media FfErr} numberToString renderRun concatRun
  tmpDir request w.
Arguments status {Media} n.

(** Neither of the two checks at the head of the scene loop fires for the
    scene. *)
Definition passesChecks (d : SceneAssets) : Prop :=
  (negb (present (imageBase64 d)) && negb (present (videoBase64 d))
   || negb (truthy (audioBase64 d)) || PrimFloat.leb (durationSeconds d) 0) = false
  /\ present (imageBase64 d) && present (videoBase64 d) = false.

(** The status of the answer; a throw is answered 500 by [withApiHandler]. *)
Definition status_of {Media FfErr} (r : Completion FfErr (NextResponse Media))
    : nat :=
  match r with
  | Normal response => status response
  | Throw _ => 500
  end.

Arguments files {Media} w.
Arguments events {Media} w.
Arguments refuses {Media} w.

(** The file system refuses nothing to the cleanup of the directory. *)
Definition cleanupAllowed {Media} (tmpDir : jsstring) (w : World Media) : Prop :=
  refuses w (Readdir tmpDir) = false
  /\ (forall f, refuses w (UnlinkOf tmpDir f) = false)
  /\ refuses w (RmdirOf tmpDir) = false.

(** What the cleanup of the directory may do: unlink a file of it, remove
    it, log an error. *)
Definition isCleanupEvent (tmpDir : jsstring) (ev : FsEvent) : Prop :=
  match ev with
  | Unlink dir _ => dir = tmpDir
  | Rmdir dir => dir = tmpDir
  | ConsoleError _ => True
  | _ => False
  end.

(** What [processScene] does for a scene that passes its checks, by its
    parts: the name of the image or video it writes, the job it hands to
    the encoder with a filter chain, the state in which the encoder is
    first run (the audio, then the image or the video written), and the
    state after runs of the encoder that left the files [fs]. *)
Definition inputName (i : nat) (scene : SceneAssets) : jsstring :=
  if present (imageBase64 scene) then sceneFile "scene-" i ".png"
  else sceneFile "scene-" i ".mp4".

Definition segmentJob (numberToString : float -> jsstring) (tmpDir : jsstring)
    (i : nat) (scene : SceneAssets) (filterChain : jsstring) : Job :=
  RenderSegment (pathJoin tmpDir (inputName i scene))
    (negb (present (imageBase64 scene)))
    (pathJoin tmpDir (sceneFile "scene-" i ".audio"))
    (outputOptions numberToString
       (mathMax (durationSeconds scene) MIN_SCENE_DURATION) filterChain)
    (pathJoin tmpDir (sceneFile "segment-" i ".mp4")).

Definition inputsWritten {Media} (FfErr : Type) (tmpDir : jsstring) (i : nat)
    (scene : SceneAssets) (w : World Media) : World Media :=
  snd (bind (FfErr := FfErr)
         (writeFileSync tmpDir (sceneFile "scene-" i ".audio")
            (Base64Decoded (audioBase64 scene)))
         (fun _ =>
            writeFileSync tmpDir (inputName i scene)
              (Base64Decoded
                 (default [] (if present (imageBase64 scene)
                              then imageBase64 scene else videoBase64 scene))))
         w).

Definition encoded {Media} (jobs : list Job) (fs : Files Media)
    (w : World Media) : World Media :=
  {| files := fs; events := events w ++ List.map Encoder jobs;
     refuses := refuses w |}.

End Assemble.

(** ** The pool: what holds between two settlements *)

Module PoolInvariant.
Import Pool.

(** The number of workers that await a task. *)
Definition busy (ws : list (option nat)) : nat := length (awaiting ws).

Section Invariant.
Context {T R E : Type}.
Variable fn : T -> nat -> R + E.
Variable items : list T.

Local Abbreviation n := (length items).

(** Task [i] fulfils with [v]. *)
Definition fulfils (i : nat) (v : R) : Prop :=
  exists item, items !! i = Some item /\ fn item i = inl v.

Record Inv (st : State R) : Prop := {
  inv_length : length (results st) = n;
  inv_next : nextIndex st <= n;
  inv_claimed : forall w i, workers st !! w = Some (Some i) -> i < nextIndex st;
  inv_distinct : forall w w' i,
      workers st !! w = Some (Some i) -> workers st !! w' = Some (Some i) -> w = w';
  inv_sound : forall j v, results st !! j = Some (Some v) -> fulfils j v;
  inv_done : forall j, j < nextIndex st ->
      (forall w, workers st !! w <> Some (Some j)) ->
      exists v, results st !! j = Some (Some v);
  inv_alive : nextIndex st < n -> exists w i, workers st !! w = Some (Some i)
}.

(** What is left to do: the unclaimed tasks and the awaited ones. *)
Definition todo (st : State R) : nat := (n - nextIndex st) + busy (workers st).

End Invariant.

Arguments inv_length {T R E fn items} st _.
Arguments inv_next {T R E fn items} st _.
Arguments inv_claimed {T R E fn items} st _ w i _.
Arguments inv_distinct {T R E fn items} st _ w w' i _ _.
Arguments inv_sound {T R E fn items} st _ j v _.
Arguments inv_done {T R E fn items} st _ j _ _.
Arguments inv_alive {T R E fn items} st _ _.

End PoolInvariant.

(** ** Scenarios *)

Module Scenarios.

(** The narration of the two-sentence scenario, a narration of three
    one-word sentences, and a narration that is one word of 50 letters. *)
Definition hornNarration : jsstring :=
  str "Check the horn. Then look left and right before moving.".

Definition stopLookListen : jsstring := str "Stop. Look. Listen.".

Definition longWord : jsstring := replicate 50 97%N.

(** The engine's number printing is not used on these inputs. *)
Definition noPrinting (x : float) : jsstring := [].

(** An empty file system, a temp directory name, and collaborators: an
    encoder that always succeeds, one that fails exactly on the filter
    chains with a text overlay, and a concatenation that completes before
    its deadline. *)
Definition emptyWorld : Assemble.World unit :=
  {| Assemble.files := ∅; Assemble.events := [];
     Assemble.refuses := fun _ => false |}.

Definition tmpDir1 : jsstring := str "/tmp/safety-video-1700000000000".

Definition renderOk (job : Assemble.Job) (fs : Assemble.Files unit)
    : option nat * Assemble.Files unit := (None, fs).

Definition renderFailsOnCaptions (job : Assemble.Job) (fs : Assemble.Files unit)
    : option nat * Assemble.Files unit :=
  match job with
  | Assemble.RenderSegment _ _ _ options _ =>
      if existsb (includes (str "drawtext=")) options then (Some 1, fs)
      else (None, fs)
  | Assemble.Concat _ _ => (None, fs)
  end.

Definition concatOk (job : Assemble.Job) (fs : Assemble.Files unit)
    : Timeout.Event unit nat * Assemble.Files unit :=
  (Timeout.OperationCompletes (Timeout.Fulfils tt),
   match fs !! tmpDir1 with
   | Some entries =>
       <[tmpDir1 := <[str "output.mp4" := Assemble.Produced tt]> entries]> fs
   | None => fs
   end).

(** A well-formed scene asset, and requests made of it: eleven scenes
    (one above [MAX_SCENES]) without a Content-Length header, and a request
    announcing 50 MB and one byte. *)
Definition sceneJson : Json :=
  JObject [(str "sceneIndex", JNumber 0%float);
           (str "imageBase64", JString (str "aGk="));
           (str "audioBase64", JString (str "aGk="));
           (str "durationSeconds", JNumber 4%float);
           (str "narration", JString (str "Check the horn."))].

Definition elevenScenes : Assemble.Request :=
  {| Assemble.contentLength := None;
     Assemble.json := Some (JObject [(str "scenes", JArray (replicate 11 sceneJson))]) |}.

Definition oversized : Assemble.Request :=
  {| Assemble.contentLength := Some (str "52428801");
     Assemble.json := Some (JObject [(str "scenes", JArray [sceneJson])]) |}.

(** Three assets in an array, as the hook holds them before a
    regeneration, and collaborators that all succeed. *)
Definition asset0 : SceneAssets :=
  {| sceneIndex := 0%float; imageBase64 := Some (str "aGk="); videoBase64 := None;
     audioBase64 := str "aGk="; durationSeconds := 4%float; narration := None |}.

Definition threeAssets : Regenerate.World :=
  {| Regenerate.objects := <[0 := asset0]> (<[1 := asset0]> (<[2 := asset0]> ∅));
     Regenerate.arrays := <[0 := [Some 0; Some 1; Some 2]]> ∅;
     Regenerate.liveUrls := {[0]};
     Regenerate.urlCounter := 1;
     Regenerate.videoBlobUrl := Some 0;
     Regenerate.assets := Some 0;
     Regenerate.regeneratingSceneIndex := None;
     Regenerate.trace := [] |}.

(** The asset with its narration, and the state after the temp directory
    was made. *)
Definition narratedAsset : SceneAssets :=
  {| sceneIndex := 0%float; imageBase64 := Some (str "aGk="); videoBase64 := None;
     audioBase64 := str "aGk="; durationSeconds := 4%float;
     narration := Some (str "Check the horn.") |}.

Definition dirMade : Assemble.World unit :=
  snd (Assemble.mkdirSync (FfErr := nat) tmpDir1 emptyWorld).

Definition someScene : Scene :=
  {| scene_narration := str "Check the horn."; scene_imagePrompt := str "A forklift";
     scene_duration := None |}.

(** An operation that always fails, with the number of the invocations
    before it as its error; options that give two attempts and 250 ms,
    and options that give two attempts and a half. *)
Definition failsWithItsNumber (history : list Retry.Event) : nat + nat :=
  inr (Retry.invocations history).

Definition twoQuickAttempts : Retry.Options :=
  {| Retry.attempts := Some (inject_Z 2); Retry.initialMs := Some 250%Z |}.

Definition fractionalAttempts : Retry.Options :=
  {| Retry.attempts := Some (5 # 2)%Q; Retry.initialMs := None |}.

End Scenarios.
Export Scenarios.

(** ** Captions: words and white space *)

Module CaptionWords.

(** The words of a text: the non-empty pieces of [s.split(' ')]. *)
Definition words (s : jsstring) : list jsstring :=
  List.filter truthy (splitSpace s).

(** The only white space of the text is the space itself (no tab, no line
    terminator, no other Unicode space). *)
Definition onlySpaces (s : jsstring) : Prop :=
  Forall (fun c => isWhiteSpace c = true -> c = SPACE) s.

(** The string is trimmed: [s.trim() === s]. *)
Definition trimmed (s : jsstring) : Prop := trim s = s.

(** The words of a list of segments, in order. *)
Definition wordsOf (segs : list jsstring) : list jsstring :=
  List.concat (List.map words segs).

(** The argument of a [drawtext] option as the encoder reads it between
    the quotes: a sequence of plain code units, none of them a quote, a
    colon, a backslash or a line terminator, and of the two escapes
    [\\] and [\:]. *)
Definition isPlain (c : N) : bool :=
  negb ((c =? 92) || (c =? 39) || (c =? 34) || (c =? 58) || (c =? 10) || (c =? 13))%N.

Fixpoint wellEscaped (s : jsstring) : bool :=
  match s with
  | [] => true
  | c :: r =>
      if (c =? 92)%N then
        match r with
        | d :: r' => ((d =? 92) || (d =? 58))%N && wellEscaped r'
        | [] => false
        end
      else isPlain c && wellEscaped r
  end.

End CaptionWords.
Export CaptionWords.

(** ** What the schema lets through *)

Module SchemaShape.

(** The shape of a scene: an index that is a non-negative integer,
    exactly one of the image and the video, not empty, a non-empty audio
    and a positive duration. *)
Definition wellFormed (d : SceneAssets) : bool :=
  isInteger (sceneIndex d) && PrimFloat.leb 0 (sceneIndex d)
  && match imageBase64 d, videoBase64 d with
     | Some image, None => truthy image
     | None, Some video => truthy video
     | _, _ => false
     end
  && truthy (audioBase64 d)
  && PrimFloat.ltb 0 (durationSeconds d).

(** [Math.max(scene.durationSeconds, MIN_SCENE_DURATION)], the duration a
    scene is rendered for ([route.ts], line 155). *)
Definition effectiveDuration (d : SceneAssets) : float :=
  mathMax (durationSeconds d) MIN_SCENE_DURATION.

End SchemaShape.

(** ** The process clock *)

Module Clock.

(** [Date.now()]: the successive readings of the clock of the process, and
    how many of them were taken. *)
Record Clock : Type := { readings : nat -> Z; reads : nat }.

Definition dateNow (c : Clock) : Z * Clock :=
  (readings c (reads c), {| readings := readings c; reads := S (reads c) |}).

End Clock.

(** ** Rate limiting ([src/lib/rate-limit.ts]) *)

Module RateLimit.
Import Clock.

Definition RATE_LIMIT_REQUESTS : Z := 30.
Definition RATE_LIMIT_WINDOW_MS : Z := 60000.

(** An entry of [memoryStore]: [{ count, resetAt }]. *)
Record Entry : Type := { count : Z; resetAt : Z }.

(** What the module works on: its [memoryStore] and the clock. *)
Record State : Type := {
  memoryStore : gmap jsstring Entry;
  clock : Clock
}.

(** [memoryPrune()]: every entry with [resetAt <= now] is deleted, [now]
    being a reading of its own. *)
Definition memoryPrune (st : State) : State :=
  let '(now, c) := dateNow (clock st) in
  {| memoryStore :=
       base.filter (fun kv : jsstring * Entry => (now < resetAt kv.2)%Z)
         (memoryStore st);
     clock := c |}.

(** [rateLimitMemory(key)] *)
Definition rateLimitMemory (key : jsstring) (st : State) : bool * State :=
  let '(now, c) := dateNow (clock st) in
  let st := {| memoryStore := memoryStore st; clock := c |} in
  let st := if (10000 <? Z.of_nat (size (memoryStore st)))%Z then memoryPrune st else st in
  let opened := {| count := 1; resetAt := now + RATE_LIMIT_WINDOW_MS |} in
  match memoryStore st !! key with
  | None =>
      (true, {| memoryStore := <[key := opened]> (memoryStore st);
                clock := clock st |})
  | Some entry =>
      if (resetAt entry <=? now)%Z then
        (true, {| memoryStore := <[key := opened]> (memoryStore st);
                  clock := clock st |})
      else if (RATE_LIMIT_REQUESTS <=? count entry)%Z then (false, st)
      else
        (* entry.count += 1 *)
        (true, {| memoryStore :=
                    <[key := {| count := count entry + 1;
                                resetAt := resetAt entry |}]> (memoryStore st);
                  clock := clock st |})
  end.

(** The client of [getRedisClient()], as far as [rateLimit] uses it: each
    call resolves ([incr] with the new count) or rejects ([None],
    [false]). *)
Record RedisLike : Type := {
  incr : jsstring -> option Z;
  expire : jsstring -> Z -> bool
}.

(** [Math.ceil(RATE_LIMIT_WINDOW_MS / 1000)] *)
Definition windowSeconds : Z := 60.

(** [rateLimit(key)]; [redis] is what [getRedisClient()] resolves to,
    [None] for [null]. *)
Definition rateLimit (redis : option RedisLike) (key : jsstring) (st : State)
    : bool * State :=
  match redis with
  | None => rateLimitMemory key st
  | Some client =>
      let rlKey := str "rl:" ++ key in
      match incr client rlKey with
      | Some n =>
          if (n =? 1)%Z && negb (expire client rlKey windowSeconds)
          then rateLimitMemory key st
          else ((n <=? RATE_LIMIT_REQUESTS)%Z, st)
      | None => rateLimitMemory key st
      end
  end.

(** Successive calls of [rateLimitMemory], one per key of the list, and
    the decisions taken for one key among them. *)
Fixpoint rateLimitAll (keys : list jsstring) (st : State) : list bool * State :=
  match keys with
  | [] => ([], st)
  | key :: rest =>
      let '(allowed, st') := rateLimitMemory key st in
      let '(decisions, st'') := rateLimitAll rest st' in
      (allowed :: decisions, st'')
  end.

Fixpoint decisionsFor (key : jsstring) (keys : list jsstring)
    (decisions : list bool) : list bool :=
  match keys, decisions with
  | k :: keys', d :: decisions' =>
      if bool_decide (k = key) then d :: decisionsFor key keys' decisions'
      else decisionsFor key keys' decisions'
  | _, _ => []
  end.

(** The number of calls made for the key. *)
Definition callsFor (key : jsstring) (keys : list jsstring) : nat :=
  length (List.filter (fun k => bool_decide (k = key)) keys).

(** A process that has just started: an empty store, and a clock that
    advances by a millisecond at each of its first hundred readings. *)
Definition quietStart : State :=
  {| memoryStore := ∅;
     clock := {| readings := fun i => (1700000000000 + Z.of_nat (Nat.min i 100))%Z;
                 reads := 0 |} |}.

End RateLimit.

(** ** The route wrapper ([src/lib/with-api-handler.ts], with
    [src/lib/api-errors.ts], [src/lib/logger.ts] and [getClientIp] of
    [src/lib/rate-limit.ts]) *)

Module ApiHandler.
Import Clock.

(** What the wrapper and the handlers read of a [Request]. *)
Record HttpRequest : Type := {
  method : jsstring;
  headers : jsstring -> option jsstring;   (* request.headers.get(name) *)
  body : option Json                        (* request.json(), [None]: it rejects *)
}.

(** [apiError(message, { code, details })]: every code is a non-empty
    string and every details object is truthy, so both are spread into
    the body when given. *)
Record ApiErrorResponse : Type := {
  error : jsstring;
  code : option Assemble.ErrorCode;
  details : option (list (jsstring * Json))
}.

Definition apiError (message : jsstring) (code_ : option Assemble.ErrorCode)
    (details_ : option (list (jsstring * Json))) : ApiErrorResponse :=
  {| error := message; code := code_; details := details_ |}.

(** [getRequestId(request)] *)
Definition getRequestId (request : HttpRequest) : jsstring :=
  match headers request (str "x-request-id") with
  | Some id => id
  | None => str "no-id"
  end.

(** The context object of a [logInfo] call. *)
Record LogContext : Type := {
  ctxRequestId : jsstring;
  ctxRoute : jsstring;
  ctxIp : option jsstring;
  ctxDurationMs : option Z
}.

(** The calls made to the logger and the console, by their arguments. *)
Inductive ConsoleCall : Type :=
| LogInfo (message : jsstring) (context : LogContext)
| LogError (route : jsstring) (err : Thrown) (requestId : jsstring)
| ConsoleWarn (text : jsstring).

(** The process as the wrapper sees it: the limiter's store and the clock,
    the [trustProxyWarned] flag, the console, and what the handlers work
    on. *)
Record Server (W : Type) : Type := {
  limiter : RateLimit.State;
  trustProxyWarned : bool;
  console : list ConsoleCall;
  inner : W
}.
Arguments limiter {W} _.
Arguments trustProxyWarned {W} _.
Arguments console {W} _.
Arguments inner {W} _.

(** [ApiHandlerContext] *)
Record ApiHandlerContext : Type := { requestId : jsstring; ip : jsstring }.

(** The response of a wrapped route: the handler's own, or the JSON error
    the wrapper makes, [NextResponse.json(apiError(...), { status })]. *)
Inductive ApiResponse (R : Type) : Type :=
| FromHandler (response : R)
| JsonError (status : nat) (body : ApiErrorResponse).
Arguments FromHandler {R} response.
Arguments JsonError {R} status body.

(** [s.split(sep)[0]] *)
Fixpoint beforeFirst (sep : N) (s : jsstring) : jsstring :=
  match s with
  | [] => []
  | c :: r => if (c =? sep)%N then [] else c :: beforeFirst sep r
  end.

(** A header that is present and not empty. *)
Definition truthyHeader (value : option jsstring) : option jsstring :=
  match value with
  | Some s => if truthy s then Some s else None
  | None => None
  end.

Definition trustProxyWarning : jsstring :=
  [9888; 65039]%N
  ++ str "  TRUST_PROXY not set. All clients share one rate-limit bucket. "
  ++ str "Set TRUST_PROXY=1 if behind a reverse proxy (nginx, Cloudflare, etc.).".

Section Wrapper.
Context {W R X : Type}.

(** The environment: [shouldTrustProxy()] of [src/lib/env.ts],
    [process.env.NODE_ENV], and the client [getRedisClient()] resolves
    to. *)
Variable shouldTrustProxy : bool.
Variable nodeEnv : option jsstring.
Variable redis : option RateLimit.RedisLike.

(** What the wrapper needs of a response and of a thrown value. *)
Variable statusOf : R -> nat.
Variable asThrown : X -> Thrown.

Definition logged (call : ConsoleCall) (srv : Server W) : Server W :=
  {| limiter := limiter srv; trustProxyWarned := trustProxyWarned srv;
     console := console srv ++ [call]; inner := inner srv |}.

(** [Date.now()] *)
Definition now (srv : Server W) : Z * Server W :=
  let '(t, c) := dateNow (RateLimit.clock (limiter srv)) in
  (t, {| limiter := {| RateLimit.memoryStore := RateLimit.memoryStore (limiter srv);
                       RateLimit.clock := c |};
         trustProxyWarned := trustProxyWarned srv;
         console := console srv; inner := inner srv |}).

(** [getClientIp(request)] *)
Definition getClientIp (request : HttpRequest) (srv : Server W)
    : jsstring * Server W :=
  let viaProxy :=
    if shouldTrustProxy then
      match truthyHeader (headers request (str "x-forwarded-for")) with
      | Some forwarded => Some (trim (beforeFirst 44 forwarded))
      | None => truthyHeader (headers request (str "x-real-ip"))
      end
    else None in
  match viaProxy with
  | Some address => (address, srv)
  | None =>
      (str "unknown",
       if negb (trustProxyWarned srv)
          && bool_decide (nodeEnv = Some (str "production"))
       then logged (ConsoleWarn trustProxyWarning)
              {| limiter := limiter srv; trustProxyWarned := true;
                 console := console srv; inner := inner srv |}
       else srv)
  end.

(** [await rateLimit(ip)] *)
Definition limited (key : jsstring) (srv : Server W) : bool * Server W :=
  let '(allowed, l) := RateLimit.rateLimit redis key (limiter srv) in
  (allowed, {| limiter := l; trustProxyWarned := trustProxyWarned srv;
               console := console srv; inner := inner srv |}).

(** A handler runs on what the handlers work on and on the clock; it
    returns a response or throws. *)
Definition ApiHandler : Type :=
  HttpRequest -> ApiHandlerContext -> Clock * W -> (R + X) * (Clock * W).

Definition runHandler (handler : ApiHandler) (request : HttpRequest)
    (ctx : ApiHandlerContext) (srv : Server W) : (R + X) * Server W :=
  let '(r, (c, w)) :=
    handler request ctx (RateLimit.clock (limiter srv), inner srv) in
  (r, {| limiter := {| RateLimit.memoryStore := RateLimit.memoryStore (limiter srv);
                       RateLimit.clock := c |};
         trustProxyWarned := trustProxyWarned srv;
         console := console srv; inner := w |}).

Definition arrowIn : jsstring := [8594; 32]%N.    (* the arrow of a request *)
Definition arrowOut : jsstring := [8592; 32]%N.   (* the arrow of an answer *)

(** [withApiHandler(routeName, handler)] *)
Definition withApiHandler (routeName : jsstring) (handler : ApiHandler)
    (request : HttpRequest) (srv : Server W) : ApiResponse R * Server W :=
  let requestId_ := getRequestId request in
  let '(ip_, srv) := getClientIp request srv in
  let '(startTime, srv) := now srv in
  let srv :=
    logged (LogInfo (arrowIn ++ method request ++ str " /api/" ++ routeName)
              {| ctxRequestId := requestId_; ctxRoute := routeName;
                 ctxIp := Some ip_; ctxDurationMs := None |}) srv in
  let '(allowed, srv) := limited ip_ srv in
  if negb allowed then
    let '(t, srv) := now srv in
    let srv :=
      logged (LogInfo (arrowOut ++ str "429 rate limited")
                {| ctxRequestId := requestId_; ctxRoute := routeName;
                   ctxIp := None; ctxDurationMs := Some (t - startTime)%Z |}) srv in
    (JsonError 429
       (apiError (str "Too many requests. Please try again later.")
          (Some Assemble.RATE_LIMITED) None),
     srv)
  else
    match runHandler handler request {| requestId := requestId_; ip := ip_ |} srv with
    | (inl response, srv) =>
        let '(t, srv) := now srv in
        let srv :=
          logged (LogInfo (arrowOut ++ ofNat (statusOf response))
                    {| ctxRequestId := requestId_; ctxRoute := routeName;
                       ctxIp := None; ctxDurationMs := Some (t - startTime)%Z |}) srv in
        (FromHandler response, srv)
    | (inr err, srv) =>
        let '(t, srv) := now srv in
        let srv := logged (LogError routeName (asThrown err) requestId_) srv in
        let srv :=
          logged (LogInfo (arrowOut ++ str "500 error")
                    {| ctxRequestId := requestId_; ctxRoute := routeName;
                       ctxIp := None; ctxDurationMs := Some (t - startTime)%Z |}) srv in
        (JsonError 500
           (apiError
              (if isError (asThrown err) then errMessage (asThrown err)
               else str "Request failed")
              (Some Assemble.INTERNAL_ERROR)
              (Some [(str "requestId", JString requestId_)])),
         srv)
    end.

(** The requests of a list, served one after the other. *)
Fixpoint serve (routeName : jsstring) (handler : ApiHandler)
    (requests : list HttpRequest) (srv : Server W)
    : list (ApiResponse R) * Server W :=
  match requests with
  | [] => ([], srv)
  | request :: rest =>
      let '(response, srv') := withApiHandler routeName handler request srv in
      let '(responses, srv'') := serve routeName handler rest srv' in
      (response :: responses, srv'')
  end.

End Wrapper.

(** The answer is the wrapper's 429. *)
Definition rateLimited {R} (response : ApiResponse R) : bool :=
  match response with
  | JsonError status _ => status =? 429
  | FromHandler _ => false
  end.

(** The status of the answer. *)
Definition answered {R} (statusOf : R -> nat) (response : ApiResponse R) : nat :=
  match response with
  | FromHandler r => statusOf r
  | JsonError status _ => status
  end.

End ApiHandler.

(** ** The assemble route ([route.ts], [POST]) *)

Module AssembleRoute.
Import Clock ApiHandler.

(** An integer in a template literal. *)
Definition ofInteger (z : Z) : jsstring :=
  if (z <? 0)%Z then str "-" ++ ofZdigits (- z) else ofZdigits z.

Section Route.
Context {Media FfErr : Type}.
Variable numberToString : float -> jsstring.
Variable renderRun : Assemble.Job -> Assemble.Files Media
                     -> option FfErr * Assemble.Files Media.
Variable concatRun : Assemble.Job -> Assemble.Files Media
                     -> Timeout.Event unit FfErr * Assemble.Files Media.

(** [os.tmpdir()], and what [err instanceof Error] and [err.message] give
    for a value the handler throws. *)
Variable osTmpdir : jsstring.
Variable thrownOf : Assemble.Exn FfErr -> Thrown.

(** [path.join(os.tmpdir(), `safety-video-${Date.now()}`)] *)
Definition tmpDirAt (t : Z) : jsstring :=
  Assemble.pathJoin osTmpdir (str "safety-video-" ++ ofInteger t).

Definition requestOf (request : HttpRequest) : Assemble.Request :=
  {| Assemble.contentLength := headers request (str "content-length");
     Assemble.json := body request |}.

(** [handleAssembleVideo] as the wrapper calls it.  The name of the temp
    directory is made after the size check: the clock is read only when
    the check has passed. *)
Definition handler (request : HttpRequest) (ctx : ApiHandlerContext)
    (cw : Clock * Assemble.World Media)
    : (Assemble.NextResponse Media + Assemble.Exn FfErr)
      * (Clock * Assemble.World Media) :=
  let '(c, w) := cw in
  let '(t, c') :=
    if Assemble.bodyTooLarge (Assemble.contentLength (requestOf request))
    then (0%Z, c) else dateNow c in
  let '(r, w') :=
    Assemble.handleAssembleVideo numberToString renderRun concatRun
      (tmpDirAt t) (requestOf request) w in
  (match r with
   | Assemble.Normal response => inl response
   | Assemble.Throw e => inr e
   end, (c', w')).

Variable shouldTrustProxy : bool.
Variable nodeEnv : option jsstring.
Variable redis : option RateLimit.RedisLike.

(** [export const POST = withApiHandler('assemble-video', handleAssembleVideo)] *)
Definition POST (request : HttpRequest) (srv : Server (Assemble.World Media))
    : ApiResponse (Assemble.NextResponse Media) * Server (Assemble.World Media) :=
  withApiHandler shouldTrustProxy nodeEnv redis Assemble.status thrownOf
    (str "assemble-video") handler request srv.

End Route.

(** The encoder writes inside the directory only. *)
Definition writesInside {Media Out : Type} (dir : jsstring)
    (run : Assemble.Job -> Assemble.Files Media -> Out * Assemble.Files Media)
    : Prop :=
  forall job fs d, d <> dir -> (run job fs).2 !! d = fs !! d.

End AssembleRoute.

(** ** The client of the API ([src/lib/api-client.ts]) *)

Module ApiClient.

Definition DEFAULT_RETRIES : Z := 2.
Definition INITIAL_BACKOFF_MS : Z := 1000.

(** [backoffMs(attemptIndex)] *)
Definition backoffMs (attemptIndex : Z) : Z :=
  (INITIAL_BACKOFF_MS * 2 ^ attemptIndex)%Z.

(** What [fetchWithRetry] does to its environment, in order: a call of
    [fetch], or a wait of [ms] milliseconds. *)
Inductive Event : Type :=
| Fetch
| Wait (ms : Z).

Section FetchWithRetry.
(** A [Response], as far as [fetchWithRetry] looks at it: [res.ok] is
    [res.status] being one of 200 to 299. *)
Context {Res : Type}.
Variable statusOf : Res -> Z.

Definition ok (res : Res) : bool :=
  ((200 <=? statusOf res) && (statusOf res <=? 299))%Z.

(** How a call of [fetch(url, options)] settles, given everything that
    happened before it: with a response, or with a thrown value. *)
Variable fetch : list Event -> Res + Thrown.

(** The returned promise: resolved with [lastRes] ([None]: the [null] it
    starts as), or rejected. *)
Inductive Outcome : Type :=
| Returned (res : option Res)
| Threw (e : Thrown).

Definition isAbort (e : Thrown) : bool :=
  isError e && bool_decide (errName e = str "AbortError").

(** [for (let i = 0; i <= retries; i++) { ... } return lastRes!];
    [remaining] counts the iterations left. *)
Fixpoint fetchLoop (retries : Z) (remaining : nat) (i : Z)
    (lastRes : option Res) (history : list Event) : Outcome * list Event :=
  match remaining with
  | 0 => (Returned lastRes, history)
  | S remaining' =>
      match fetch history with
      | inl res =>
          if ok res then (Returned (Some res), history ++ [Fetch])
          else if (500 <=? statusOf res)%Z && (i <? retries)%Z then
            fetchLoop retries remaining' (i + 1)%Z (Some res)
              (history ++ [Fetch; Wait (backoffMs i)])
          else (Returned (Some res), history ++ [Fetch])
      | inr e =>
          if isAbort e then (Threw e, history ++ [Fetch])
          else if (i =? retries)%Z then (Threw e, history ++ [Fetch])
          else
            fetchLoop retries remaining' (i + 1)%Z lastRes
              (history ++ [Fetch; Wait (backoffMs i)])
      end
  end.

(** [fetchWithRetry(url, options, retries)], [retries] being an integer. *)
Definition fetchWithRetry (retries : Z) : Outcome * list Event :=
  fetchLoop retries (Z.to_nat (retries + 1)) 0%Z None [].

(** An attempt that is tried again: a response of status 500 or more, or
    a thrown value that is not an abort. *)
Definition retried (r : Res + Thrown) : bool :=
  match r with
  | inl res => negb (ok res) && (500 <=? statusOf res)%Z
  | inr e => negb (isAbort e)
  end.

End FetchWithRetry.

Arguments Outcome : clear implicits.

(** The environment after [k] attempts that were tried again, each
    followed by its wait. *)
Fixpoint retriedAttempts (k : nat) : list Event :=
  match k with
  | 0 => []
  | S k' => retriedAttempts k' ++ [Fetch; Wait (backoffMs (Z.of_nat k'))]
  end.

Definition fetches (history : list Event) : nat :=
  length (List.filter (fun e => match e with Fetch => true | _ => false end)
            history).

End ApiClient.

(** ** The client of the generation routes
    ([src/lib/video-generation-client.ts]) *)

Module VideoClient.

(** [GenerateSceneAssetOptions] (the abort signal apart). *)
Record GenerateSceneAssetOptions : Type := {
  styleGuide : jsstring;
  highQuality : bool;
  voice : jsstring;
  draft : bool;
  captions : bool;
  useVideo : option bool;
  safetyKeywords : option jsstring
}.

(** The bodies posted to the three routes. *)
Record VideoRequest : Type := {
  vr_prompt : jsstring; vr_styleGuide : jsstring; vr_sceneIndex : float;
  vr_narration : jsstring
}.

Record ImageRequest : Type := {
  ir_imagePrompt : jsstring; ir_styleGuide : jsstring; ir_highQuality : bool;
  ir_narration : jsstring; ir_sceneIndex : float;
  ir_safetyKeywords : option jsstring
}.

Record AudioRequest : Type := {
  ar_text : jsstring; ar_voice : jsstring; ar_draft : bool
}.

(** The data the routes answer with, by their declared types. *)
Record VideoData : Type := { vd_videoBase64 : jsstring; vd_durationSeconds : float }.
Record ImageData : Type := { id_imageBase64 : jsstring }.
Record AudioData : Type := {
  ad_audioBase64 : jsstring; ad_contentType : option jsstring
}.

(** The result of [fetchJson]: [{ ok: true; data }], or [{ ok: false;
    error }] with its [error.message]. *)
Inductive FetchJson (A : Type) : Type :=
| JsonOk (data : A)
| JsonNotOk (message : jsstring).
Arguments JsonOk {A} data.
Arguments JsonNotOk {A} message.

(** [new Error(message)] *)
Definition newError (message : jsstring) : Thrown :=
  {| isError := true; errName := str "Error"; errMessage := message |}.

Section GenerateSceneAsset.
(** The collaborators, as the settlement of each awaited call: the three
    [fetchJson] calls and [getAudioDuration]; and which of the two
    requests of [Promise.all] settles first. *)
Variable generateVideo : VideoRequest -> FetchJson VideoData + Thrown.
Variable generateImage : ImageRequest -> FetchJson ImageData + Thrown.
Variable generateAudio : AudioRequest -> FetchJson AudioData + Thrown.
Variable getAudioDuration : jsstring -> option jsstring -> float + Thrown.
Variable audioSettlesFirst : bool.

(** [Promise.all([visual, audio])]: both values, or the rejection that
    came first. *)
Definition promiseAll {A B} (visual : A + Thrown) (audio : B + Thrown)
    : (A * B) + Thrown :=
  match visual, audio with
  | inl v, inl a => inl (v, a)
  | inr e, inl _ => inr e
  | inl _, inr e => inr e
  | inr e1, inr e2 => inr (if audioSettlesFirst then e2 else e1)
  end.

(** The two branches of [generateSceneAsset(scene, sceneIndex, options)],
    after the requests: the checks of the two results, the duration of
    the audio, and the asset. *)
Definition finishAsset {A} (visualResult : FetchJson A)
    (audioResult : FetchJson AudioData)
    (build : A -> AudioData -> float -> SceneAssets) : SceneAssets + Thrown :=
  match visualResult with
  | JsonNotOk message => inr (newError message)
  | JsonOk visual =>
      match audioResult with
      | JsonNotOk message => inr (newError message)
      | JsonOk audio =>
          match getAudioDuration (ad_audioBase64 audio) (ad_contentType audio) with
          | inr e => inr e
          | inl audioDurationSeconds =>
              inl (build visual audio audioDurationSeconds)
          end
      end
  end.

(** [Math.max] of three numbers is written with [mathMax] twice; of two
    zeros of different signs the inner one may keep the negative one,
    which is below 3 as the positive one is. *)
Definition generateSceneAsset (scene : Scene) (sceneIndex_ : float)
    (options : GenerateSceneAssetOptions) : SceneAssets + Thrown :=
  let useVideo_ := match useVideo options with Some b => b | None => false end in
  let audioRequest :=
    {| ar_text := scene_narration scene; ar_voice := voice options;
       ar_draft := draft options |} in
  let narration_ :=
    if captions options then Some (scene_narration scene) else None in
  if useVideo_ then
    match promiseAll
            (generateVideo
               {| vr_prompt := scene_imagePrompt scene;
                  vr_styleGuide := styleGuide options;
                  vr_sceneIndex := sceneIndex_;
                  vr_narration := scene_narration scene |})
            (generateAudio audioRequest) with
    | inr e => inr e
    | inl (visualResult, audioResult) =>
        finishAsset visualResult audioResult
          (fun visual audio audioDurationSeconds =>
             {| sceneIndex := sceneIndex_;
                imageBase64 := None;
                videoBase64 := Some (vd_videoBase64 visual);
                audioBase64 := ad_audioBase64 audio;
                durationSeconds :=
                  mathMax (mathMax (vd_durationSeconds visual) audioDurationSeconds)
                    3%float;
                narration := narration_ |})
    end
  else
    match promiseAll
            (generateImage
               {| ir_imagePrompt := scene_imagePrompt scene;
                  ir_styleGuide := styleGuide options;
                  ir_highQuality := highQuality options;
                  ir_narration := scene_narration scene;
                  ir_sceneIndex := sceneIndex_;
                  ir_safetyKeywords := safetyKeywords options |})
            (generateAudio audioRequest) with
    | inr e => inr e
    | inl (visualResult, audioResult) =>
        finishAsset visualResult audioResult
          (fun visual audio audioDurationSeconds =>
             {| sceneIndex := sceneIndex_;
                imageBase64 := Some (id_imageBase64 visual);
                videoBase64 := None;
                audioBase64 := ad_audioBase64 audio;
                durationSeconds := mathMax audioDurationSeconds 3%float;
                narration := narration_ |})
    end.

End GenerateSceneAsset.

(** [JSON.stringify] of a number, read back by [JSON.parse]: a finite
    number comes back as it is, [-0] as [0]; [NaN] and the infinities are
    written [null]. *)
Definition jsonNumber (x : float) : Json :=
  match Prim2SF x with
  | S754_zero _ => JNumber 0%float
  | S754_finite _ _ _ => JNumber x
  | _ => JNull
  end.

(** A key with its value, left out for [undefined]. *)
Definition optionalKey (key : string) (value : option jsstring)
    : list (jsstring * Json) :=
  match value with
  | Some s => [(str key, JString s)]
  | None => []
  end.

(** A [SceneAssets] object in a body, as the server reads it. *)
Definition sceneAssetJson (asset : SceneAssets) : Json :=
  JObject
    ([(str "sceneIndex", jsonNumber (sceneIndex asset))]
     ++ optionalKey "imageBase64" (imageBase64 asset)
     ++ optionalKey "videoBase64" (videoBase64 asset)
     ++ [(str "audioBase64", JString (audioBase64 asset));
         (str "durationSeconds", jsonNumber (durationSeconds asset))]
     ++ optionalKey "narration" (narration asset)).

(** The body of [assembleVideo(scenes, captions)]:
    [JSON.stringify({ scenes, captions })]. *)
Definition assembleBody (scenes_ : list SceneAssets) (captions_ : bool) : Json :=
  JObject [(str "scenes", JArray (List.map sceneAssetJson scenes_));
           (str "captions", JBool captions_)].

(** A number that JSON carries as it is: finite, and not [-0]. *)
Definition carried (x : float) : bool :=
  match Prim2SF x with
  | S754_zero negative => negb negative
  | S754_finite _ _ _ => true
  | _ => false
  end.

(** A duration that is neither NaN nor [+Infinity]. *)
Definition bounded (x : float) : bool :=
  match Prim2SF x with
  | S754_nan | S754_infinity false => false
  | _ => true
  end.

(** The assets the schema of the server accepts as they are: an index
    that is a non-negative integer, exactly one of the image and the
    video, each non-empty, a non-empty audio, and a finite positive
    duration. *)
Definition acceptable (asset : SceneAssets) : bool :=
  carried (sceneIndex asset) && isInteger (sceneIndex asset)
  && PrimFloat.leb 0 (sceneIndex asset)
  && match imageBase64 asset, videoBase64 asset with
     | Some image, None => truthy image
     | None, Some video => truthy video
     | _, _ => false
     end
  && truthy (audioBase64 asset)
  && carried (durationSeconds asset) && PrimFloat.ltb 0 (durationSeconds asset).

End VideoClient.

(** ** The pool: the states it goes through *)

Module PoolStates.
Import Pool.

Section Reachable.
Context {T R E : Type}.
Variable fn : T -> nat -> R + E.
Variable items : list T.
Variable concurrency : nat.

(** The states of a run: the state the workers start in, and from a state
    every state that the settlement of an awaited task leads to, whichever
    awaited task settles. *)
Inductive reachable : State R -> Prop :=
| reach_start : reachable (start items concurrency)
| reach_resume (st st' : State R) (w : nat) :
    reachable st ->
    In w (awaiting (workers st)) ->
    resume fn items st w = inl st' ->
    reachable st'.

End Reachable.

End PoolStates.

(** ** Retry: the time spent waiting *)

Module RetryWait.
Import Retry.

(** The milliseconds waited in a run. *)
Fixpoint totalWait (history : list Event) : Z :=
  match history with
  | [] => 0
  | Invoke :: rest => totalWait rest
  | Wait ms :: rest => ms + totalWait rest
  end.

End RetryWait.

(** ** Debounced callback ([src/lib/useDebouncedCallback.ts]) *)

Module Debounce.

Section UseDebouncedCallback.
(** [Parameters<T>], the arguments of a call. *)
Context {Args : Type}.

(** An invocation of [callbackRef.current]: its arguments, and whether it
    threw. *)
Definition Invocation : Type := (Args * bool)%type.

(** Whether [callbackRef.current(...args)] throws, given the invocations
    made before it.  The callback is one that does not call [debounced]
    or [flush] itself. *)
Variable callbackThrows : list Invocation -> Args -> bool.

(** The two refs of the hook, the timers of the page that are armed
    ([setTimeout] hands out the ids 1, 2, ...), and the invocations of
    [callbackRef.current], in order. *)
Record State : Type := {
  timeoutRef : option nat;
  pendingArgsRef : option Args;
  armed : gset nat;
  nextTimer : nat;
  invoked : list Invocation
}.

Definition mounted : State :=
  {| timeoutRef := None; pendingArgsRef := None; armed := ∅; nextTimer := 1;
     invoked := [] |}.

(** [if (timeoutRef.current) clearTimeout(timeoutRef.current)] *)
Definition clearPending (st : State) : gset nat :=
  match timeoutRef st with
  | Some t => armed st ∖ {[t]}
  | None => armed st
  end.

(** [if (pendingArgsRef.current) { callbackRef.current(...pendingArgsRef.current);
    pendingArgsRef.current = null }]: the invocations and the pending
    arguments afterwards.  When the callback throws, the assignment is
    not reached and the arguments stay pending. *)
Definition deliver (st : State) : list Invocation * option Args :=
  match pendingArgsRef st with
  | Some args =>
      let threw := callbackThrows (invoked st) args in
      (invoked st ++ [(args, threw)], if threw then Some args else None)
  | None => (invoked st, None)
  end.

(** [debounced(...args)] *)
Definition debounced (args : Args) (st : State) : State :=
  {| timeoutRef := Some (nextTimer st);
     pendingArgsRef := Some args;
     armed := clearPending st ∪ {[nextTimer st]};
     nextTimer := S (nextTimer st);
     invoked := invoked st |}.

(** [flush()] *)
Definition flush (st : State) : State :=
  {| timeoutRef := None;
     pendingArgsRef := (deliver st).2;
     armed := clearPending st;
     nextTimer := nextTimer st;
     invoked := (deliver st).1 |}.

(** The callback given to [setTimeout], run when timer [t] fires; a timer
    that is not armed does not fire. *)
Definition fire (t : nat) (st : State) : State :=
  if bool_decide (t ∈ armed st) then
    {| timeoutRef := None;
       pendingArgsRef := (deliver st).2;
       armed := armed st ∖ {[t]};
       nextTimer := nextTimer st;
       invoked := (deliver st).1 |}
  else st.

(** The cleanup of the effect, at unmount. *)
Definition unmount (st : State) : State :=
  {| timeoutRef := timeoutRef st;
     pendingArgsRef := pendingArgsRef st;
     armed := clearPending st;
     nextTimer := nextTimer st;
     invoked := invoked st |}.

Inductive Event : Type :=
| Call (args : Args)
| Flush
| Fire (t : nat)
| Unmount.

Definition step (st : State) (ev : Event) : State :=
  match ev with
  | Call args => debounced args st
  | Flush => flush st
  | Fire t => fire t st
  | Unmount => unmount st
  end.

Definition run (events : list Event) : State := fold_left step events mounted.

(** The arguments of the calls of [debounced] among the events. *)
Fixpoint called (events : list Event) : list Args :=
  match events with
  | [] => []
  | Call args :: rest => args :: called rest
  | _ :: rest => called rest
  end.

(** The arguments of the invocations from which the callback returned. *)
Fixpoint returned (invocations : list Invocation) : list Args :=
  match invocations with
  | [] => []
  | (args, threw) :: rest =>
      if threw then returned rest else args :: returned rest
  end.

End UseDebouncedCallback.

Arguments State : clear implicits.
Arguments Event : clear implicits.
Arguments Invocation : clear implicits.
Arguments mounted {Args}.
Arguments clearPending {Args} st.
Arguments debounced {Args} args st.
Arguments unmount {Args} st.
Arguments called {Args} events.
Arguments returned {Args} invocations.

End Debounce.

(** ** More scenarios *)

Module MoreScenarios.

(** A request of one well-formed scene, without a Content-Length header. *)
Definition oneScene : Assemble.Request :=
  {| Assemble.contentLength := None;
     Assemble.json := Some (JObject [(str "scenes", JArray [sceneJson])]) |}.

(** The data the schema reads from it. *)
Definition oneSceneData : AssembleVideoBody :=
  {| Schema.scenes :=
       [{| sceneIndex := 0%float; imageBase64 := Some (str "aGk=");
           videoBase64 := None; audioBase64 := str "aGk=";
           durationSeconds := 4%float;
           narration := Some (str "Check the horn.") |}];
     Schema.captions := true |}.

(** A server that has just started, with nothing on its file system, and
    a handler that answers 200 without reading the clock. *)
Definition freshServer : ApiHandler.Server unit :=
  {| ApiHandler.limiter := RateLimit.quietStart;
     ApiHandler.trustProxyWarned := false;
     ApiHandler.console := [];
     ApiHandler.inner := tt |}.

Definition alwaysOk (request : ApiHandler.HttpRequest)
    (ctx : ApiHandler.ApiHandlerContext) (cw : Clock.Clock * unit)
    : (nat + Thrown) * (Clock.Clock * unit) :=
  (inl 200, cw).

(** A request with a forwarded address, and one without headers. *)
Definition forwardedRequest : ApiHandler.HttpRequest :=
  {| ApiHandler.method := str "POST";
     ApiHandler.headers := fun name =>
       if bool_decide (name = str "x-forwarded-for") then Some (str "10.0.0.7")
       else None;
     ApiHandler.body := None |}.

Definition bareRequest : ApiHandler.HttpRequest :=
  {| ApiHandler.method := str "POST";
     ApiHandler.headers := fun _ => None;
     ApiHandler.body := None |}.

(** Generation routes that answer with a clip of 5 seconds, an image and
    an audio, and an audio measured at 2.5 seconds. *)
Definition videoFive (request : VideoClient.VideoRequest)
    : VideoClient.FetchJson VideoClient.VideoData + Thrown :=
  inl (VideoClient.JsonOk {| VideoClient.vd_videoBase64 := str "aGk=";
                             VideoClient.vd_durationSeconds := 5%float |}).

Definition imageOk (request : VideoClient.ImageRequest)
    : VideoClient.FetchJson VideoClient.ImageData + Thrown :=
  inl (VideoClient.JsonOk {| VideoClient.id_imageBase64 := str "aGk=" |}).

Definition audioOk (request : VideoClient.AudioRequest)
    : VideoClient.FetchJson VideoClient.AudioData + Thrown :=
  inl (VideoClient.JsonOk {| VideoClient.ad_audioBase64 := str "aGk=";
                             VideoClient.ad_contentType := Some (str "audio/mpeg") |}).

Definition twoAndAHalf (audio : jsstring) (contentType : option jsstring)
    : float + Thrown := inl 2.5%float.

Definition draftOptions : VideoClient.GenerateSceneAssetOptions :=
  {| VideoClient.styleGuide := str "flat";
     VideoClient.highQuality := false;
     VideoClient.voice := str "alloy";
     VideoClient.draft := true;
     VideoClient.captions := true;
     VideoClient.useVideo := Some true;
     VideoClient.safetyKeywords := None |}.

(** The asset generated for [someScene] with these. *)
Definition generatedAsset : SceneAssets :=
  {| sceneIndex := 0%float; imageBase64 := None; videoBase64 := Some (str "aGk=");
     audioBase64 := str "aGk="; durationSeconds := 5%float;
     narration := Some (str "Check the horn.") |}.

(** A task that fulfils with the double of its item. *)
Definition double (item i : nat) : nat + unit := inl (2 * item).

(** The pool of two workers over three items, after the task of the first
    worker has settled. *)
Definition oneSettled : Pool.State nat :=
  {| Pool.results := [Some 2; None; None];
     Pool.nextIndex := 3;
     Pool.workers := [Some 2; Some 1] |}.

(** The limiter after a first request from the shared bucket. *)
Definition oneUnknown : RateLimit.State :=
  (RateLimit.rateLimitMemory (str "unknown") RateLimit.quietStart).2.

End MoreScenarios.

(** * Properties *)

(** ** Captions: the timing loop *)

Module CaptionFacts.

Section AnyArithmetic.
Variable A : Arith.
Variables (effectiveDuration : num A) (total : nat).

Lemma timingLoop_length (wcs : list nat) (c : num A) :
  length (timingLoop A effectiveDuration total wcs c) = length wcs.
Proof.
  revert c. induction wcs as [|w wcs IH]; intros c; simpl; [reflexivity|].
  now rewrite IH.
Qed.

(** Every timing ends its own duration after it starts. *)
Lemma timingLoop_duration (wcs : list nat) (c : num A) (i : nat) (t : Timing A) :
  timingLoop A effectiveDuration total wcs c !! i = Some t ->
  exists w, wcs !! i = Some w /\
    t_end t = add A (t_start t) (segmentDuration A effectiveDuration total w).
Proof.
  revert c i. induction wcs as [|w wcs IH]; intros c i H; simpl in H.
  - destruct i; discriminate.
  - destruct i as [|i]; simpl in H.
    + injection H as <-. exists w. split; reflexivity.
    + apply IH in H. exact H.
Qed.

Lemma timingLoop_first (wcs : list nat) (c : num A) (t : Timing A) :
  timingLoop A effectiveDuration total wcs c !! 0 = Some t -> t_start t = c.
Proof.
  destruct wcs as [|w wcs]; simpl; intros H; [discriminate|].
  now injection H as <-.
Qed.

(** Every timing starts where the one before it ends. *)
Lemma timingLoop_chain (wcs : list nat) (c : num A) (i : nat) (t t' : Timing A) :
  timingLoop A effectiveDuration total wcs c !! i = Some t ->
  timingLoop A effectiveDuration total wcs c !! S i = Some t' ->
  t_start t' = t_end t.
Proof.
  revert c i. induction wcs as [|w wcs IH]; intros c i H H'; simpl in *.
  - destruct i; discriminate.
  - destruct i as [|i]; simpl in *.
    + injection H as <-. simpl. now apply timingLoop_first in H'.
    + eapply IH; eassumption.
Qed.
End AnyArithmetic.

(** Word counts. *)
Lemma splitSpace_nonempty (s : jsstring) : 1 <= length (splitSpace s).
Proof.
  induction s as [|c r IH]; simpl; [lia|].
  destruct (c =? SPACE)%N; simpl; [lia|].
  destruct (splitSpace r); simpl in *; lia.
Qed.

Lemma wordCounts_positive (segs : list jsstring) (i w : nat) :
  wordCounts segs !! i = Some w -> 1 <= w.
Proof.
  unfold wordCounts. revert i.
  induction segs as [|s segs IH]; intros i H; [destruct i; discriminate|].
  destruct i as [|i]; simpl in H.
  - injection H as <-. apply splitSpace_nonempty.
  - eapply IH; eassumption.
Qed.

Lemma fold_add_acc (l : list nat) (a : nat) :
  fold_left Nat.add l a = a + fold_left Nat.add l 0.
Proof.
  revert a. induction l as [|x l IH]; intros a; simpl; [lia|].
  rewrite (IH (a + x)), (IH x). lia.
Qed.

Lemma totalWords_cons (w : nat) (wcs : list nat) :
  totalWords (w :: wcs) = w + totalWords wcs.
Proof. unfold totalWords. simpl. apply fold_add_acc. Qed.

Lemma totalWords_lookup (wcs : list nat) (i w : nat) :
  wcs !! i = Some w -> w <= totalWords wcs.
Proof.
  revert i. induction wcs as [|x wcs IH]; intros i H; [destruct i; discriminate|].
  rewrite totalWords_cons. destruct i as [|i]; simpl in H.
  - injection H as ->. lia.
  - apply IH in H. lia.
Qed.

(** *** The segmenter keeps to its limit when no word is above it *)

Lemma trimStart_length (s : jsstring) : length (trimStart s) <= length s.
Proof.
  induction s as [|c r IH]; simpl; [lia|].
  destruct (isWhiteSpace c); simpl; lia.
Qed.

Lemma trim_length (s : jsstring) : length (trim s) <= length s.
Proof.
  unfold trim, trimEnd. rewrite length_rev.
  etransitivity; [apply trimStart_length|].
  rewrite length_rev. apply trimStart_length.
Qed.

Lemma splitSpace_cons (c : N) (r : jsstring) :
  splitSpace (c :: r)
  = if (c =? SPACE)%N then [] :: splitSpace r
    else (c :: hd [] (splitSpace r)) :: tl (splitSpace r).
Proof.
  simpl. destruct (c =? SPACE)%N; [reflexivity|].
  pose proof (splitSpace_nonempty r) as H.
  destruct (splitSpace r); [simpl in H; lia | reflexivity].
Qed.

Lemma splitSpace_hd_tl (s : jsstring) :
  splitSpace s = hd [] (splitSpace s) :: tl (splitSpace s).
Proof.
  pose proof (splitSpace_nonempty s) as H.
  destruct (splitSpace s); [simpl in H; lia | reflexivity].
Qed.

Lemma wordsWithin_tail (n : nat) (c : N) (s : jsstring) :
  wordsWithin n (c :: s) -> wordsWithin n s.
Proof.
  unfold wordsWithin. rewrite splitSpace_cons.
  destruct (c =? SPACE)%N; intros H; apply Forall_cons_iff in H as [Hw Hws].
  - exact Hws.
  - rewrite (splitSpace_hd_tl s). apply Forall_cons_iff.
    split; [simpl in Hw; lia | exact Hws].
Qed.

Lemma wordsWithin_suffix (n : nat) (a b : jsstring) :
  wordsWithin n (a ++ b) -> wordsWithin n b.
Proof.
  induction a as [|c a IH]; [auto|]. intros H.
  apply IH. eapply wordsWithin_tail. exact H.
Qed.

(** The first word of a prefix is not longer than the first word of the
    whole. *)
Lemma first_word_prefix (a b : jsstring) :
  length (hd [] (splitSpace a)) <= length (hd [] (splitSpace (a ++ b))).
Proof.
  induction a as [|c a IH]; [simpl; lia|].
  change ((c :: a) ++ b) with (c :: (a ++ b)). rewrite !splitSpace_cons.
  destruct (c =? SPACE)%N; simpl; lia.
Qed.

Lemma wordsWithin_prefix (n : nat) (a b : jsstring) :
  wordsWithin n (a ++ b) -> wordsWithin n a.
Proof.
  induction a as [|c a IH]; intros H.
  - unfold wordsWithin. simpl. apply Forall_cons_iff. split; [simpl; lia | constructor].
  - pose proof (wordsWithin_tail _ _ _ H) as Htail. specialize (IH Htail).
    unfold wordsWithin in *.
    change ((c :: a) ++ b) with (c :: (a ++ b)) in H.
    rewrite splitSpace_cons in H. rewrite splitSpace_cons.
    destruct (c =? SPACE)%N.
    + apply Forall_cons_iff. split; [simpl; lia | exact IH].
    + rewrite (splitSpace_hd_tl a) in IH.
      apply Forall_cons_iff in IH as [_ Hws].
      apply Forall_cons_iff in H as [Hw _].
      apply Forall_cons_iff. split; [|exact Hws].
      pose proof (first_word_prefix a b). simpl in *. lia.
Qed.

Lemma wordsWithin_part (n : nat) (a p b : jsstring) :
  wordsWithin n (a ++ p ++ b) -> wordsWithin n p.
Proof.
  intros H. apply wordsWithin_suffix in H. eapply wordsWithin_prefix. exact H.
Qed.

(** Every piece of the sentence split is a part of the text. *)
Lemma splitFrom_pieces (s : jsstring) (inMatch afterEnd : bool)
    (piece p : jsstring) :
  (inMatch = true -> piece = []) ->
  In p (splitFrom inMatch afterEnd piece s) ->
  exists a b, rev piece ++ s = a ++ p ++ b.
Proof.
  revert inMatch afterEnd piece.
  induction s as [|c r IH]; intros inMatch afterEnd piece Hm H; simpl in H.
  - destruct H as [<-|[]]. exists [], []. now rewrite !app_nil_r.
  - assert (Hkeep : forall e, In p (splitFrom false e (c :: piece) r) ->
               exists a b, rev piece ++ c :: r = a ++ p ++ b).
    { intros e Hin. apply IH in Hin as (a & b & E); [|discriminate].
      exists a, b. rewrite <- E. simpl. now rewrite <- app_assoc. }
    destruct inMatch.
    + destruct (isWhiteSpace c); [|now apply (Hkeep (isSentenceEnd c))].
      rewrite (Hm eq_refl) in *. apply IH in H as (a & b & E); [|reflexivity].
      simpl in E. exists (c :: a), b. simpl. now rewrite <- E.
    + destruct (afterEnd && isWhiteSpace c); [|now apply (Hkeep (isSentenceEnd c))].
      destruct H as [<-|H].
      * exists [], (c :: r). reflexivity.
      * apply IH in H as (a & b & E); [|reflexivity]. simpl in E.
        exists (rev piece ++ c :: a), b. rewrite <- app_assoc. simpl.
        now rewrite <- E.
Qed.

Lemma sentence_words_within (n : nat) (text sentence : jsstring) :
  wordsWithin n text -> In sentence (sentencesOf text) ->
  wordsWithin n sentence.
Proof.
  intros Hw Hin. unfold sentencesOf in Hin. apply filter_In in Hin as [Hin _].
  apply splitFrom_pieces in Hin as (a & b & E); [|discriminate].
  simpl in E. rewrite E in Hw. eapply wordsWithin_part. exact Hw.
Qed.

Local Abbreviation within := (Forall (fun seg : jsstring => length seg <= maxCharsPerSegment)).

Lemma within_push (segs : list jsstring) (chunk : jsstring) :
  within segs -> length chunk <= maxCharsPerSegment -> within (segs ++ [trim chunk]).
Proof.
  intros Hs Hc. apply Forall_app. split; [exact Hs|].
  constructor; [|constructor]. pose proof (trim_length chunk). lia.
Qed.

(** The word loop: the chunk and the segments stay within the limit. *)
Lemma packWords_within (words : list jsstring) (chunk : jsstring)
    (segs : list jsstring) :
  within words -> length chunk <= maxCharsPerSegment -> within segs ->
  length (packWords words chunk segs).1 <= maxCharsPerSegment
  /\ within (packWords words chunk segs).2.
Proof.
  revert chunk segs. induction words as [|word words IH]; intros chunk segs Hw Hc Hs.
  - simpl. auto.
  - apply Forall_cons_iff in Hw as [Hword Hwords]. simpl.
    destruct (Nat.leb_spec (length chunk + length word + 1) maxCharsPerSegment) as [Hfit|Hno].
    + apply IH; [exact Hwords| |exact Hs].
      destruct chunk; simpl; [exact Hword|].
      simpl in Hfit. rewrite length_app. simpl. lia.
    + apply IH; [exact Hwords|exact Hword|].
      destruct chunk; simpl; [exact Hs|]. now apply within_push.
Qed.

Lemma pushChunks_within (text : jsstring) (segs : list jsstring) :
  wordsWithin maxCharsPerSegment text -> within segs ->
  within (pushChunks text segs).
Proof.
  intros Hw Hs. unfold pushChunks.
  destruct (packWords_within (splitSpace text) [] segs Hw) as [Hc Hs'];
    [simpl; lia | exact Hs |].
  destruct (packWords (splitSpace text) [] segs) as [chunk segs']. simpl in *.
  destruct chunk; simpl; [exact Hs'|]. now apply within_push.
Qed.

Lemma pushSentence_within (segs : list jsstring) (sentence : jsstring) :
  wordsWithin maxCharsPerSegment sentence -> within segs ->
  within (pushSentence segs sentence).
Proof.
  intros Hw Hs. unfold pushSentence.
  destruct (Nat.leb_spec (length sentence) maxCharsPerSegment) as [Hle|Hgt].
  - now apply within_push.
  - now apply pushChunks_within.
Qed.

(** When no word of the caption text is longer than the limit, no segment
    is: the 45 characters are exceeded by over-long words only. *)
Lemma segments_within_limit (captionForScene : jsstring) :
  wordsWithin maxCharsPerSegment captionForScene ->
  Forall (fun seg => length seg <= maxCharsPerSegment) (segments captionForScene).
Proof.
  intros Hw. unfold segments.
  assert (Hfold : forall sentences segs,
             (forall s0, In s0 sentences -> wordsWithin maxCharsPerSegment s0) ->
             within segs -> within (fold_left pushSentence sentences segs)).
  { induction sentences as [|s0 sentences IH]; intros segs Hall Hs; [exact Hs|].
    simpl. apply IH.
    - intros s1 H1. apply Hall. now right.
    - apply pushSentence_within; [apply Hall; now left | exact Hs]. }
  assert (Hsegs : within (fold_left pushSentence (sentencesOf captionForScene) [])).
  { apply Hfold; [|constructor].
    intros s0 H0. eapply sentence_words_within; eassumption. }
  destruct (length _ =? 0); [|exact Hsegs].
  now apply pushChunks_within.
Qed.

(** Without rounding. *)
Section ExactArithmetic.
Variables (exactDuration : Q) (total : nat).

Lemma inject_count_add (a b : nat) :
  (inject_Z (Z.of_nat (a + b)) == inject_Z (Z.of_nat a) + inject_Z (Z.of_nat b))%Q.
Proof. rewrite Nat2Z.inj_add, inject_Z_plus. reflexivity. Qed.

Lemma inject_count_pos (n : nat) : 1 <= n -> (0 < inject_Z (Z.of_nat n))%Q.
Proof. intros H. unfold Qlt. simpl. lia. Qed.

(** The loop ends at its start time plus the share of all its words. *)
Lemma exact_last_end (wcs : list nat) (c : Q) (t : Timing Exact) :
  list.last (timingLoop Exact exactDuration total wcs c) = Some t ->
  (t_end t == c + exactDuration
        * (inject_Z (Z.of_nat (totalWords wcs)) * / inject_Z (Z.of_nat total)))%Q.
Proof.
  revert c. induction wcs as [|w wcs IH]; intros c H; [discriminate|].
  rewrite totalWords_cons, inject_count_add.
  simpl in H. destruct wcs as [|w' wcs].
  - simpl in H. injection H as <-. simpl.
    unfold totalWords, segmentDuration. simpl. unfold Qdiv. ring.
  - change (list.last (timingLoop Exact exactDuration total (w' :: wcs)
                    (c + segmentDuration Exact exactDuration total w)%Q) = Some t) in H.
    apply IH in H. rewrite H.
    unfold segmentDuration. simpl. unfold Qdiv. ring.
Qed.

Lemma exact_duration_pos (w : nat) :
  (0 < exactDuration)%Q -> 1 <= w -> 1 <= total ->
  (0 < segmentDuration Exact exactDuration total w)%Q.
Proof.
  intros Hd Hw Ht. unfold segmentDuration. simpl.
  apply Qmult_lt_0_compat; [exact Hd|].
  unfold Qdiv. apply Qmult_lt_0_compat; [now apply inject_count_pos|].
  apply Qinv_lt_0_compat. now apply inject_count_pos.
Qed.
End ExactArithmetic.

End CaptionFacts.

Module CaptionClaims.
Import CaptionFacts.

Lemma exact_durations_sum (exactDuration : Q) (total : nat) (wcs : list nat) (c : Q) :
  (exactSum (exactDurations (timingLoop Exact exactDuration total wcs c))
   == exactDuration
      * (inject_Z (Z.of_nat (totalWords wcs)) * / inject_Z (Z.of_nat total)))%Q.
Proof.
  revert c. induction wcs as [|w wcs IH]; intros c.
  - simpl. unfold totalWords. simpl. ring.
  - rewrite totalWords_cons, inject_count_add.
    change (exactSum (exactDurations (timingLoop Exact exactDuration total (w :: wcs) c)))
      with ((c + segmentDuration Exact exactDuration total w - c)
            + exactSum (exactDurations
                (timingLoop Exact exactDuration total wcs
                   (c + segmentDuration Exact exactDuration total w))))%Q.
    rewrite IH. unfold segmentDuration. simpl. unfold Qdiv. ring.
Qed.

Lemma share_of_all (exactDuration : Q) (total : nat) :
  1 <= total ->
  (exactDuration * (inject_Z (Z.of_nat total) * / inject_Z (Z.of_nat total))
   == exactDuration)%Q.
Proof.
  intros H. rewrite Qmult_inv_r; [ring|].
  intros E. apply inject_count_pos in H. rewrite E in H. now apply Qlt_irrefl in H.
Qed.

Lemma segments_total_positive (segs : list jsstring) :
  segs <> [] -> 1 <= totalWords (wordCounts segs).
Proof.
  destruct segs as [|s segs]; [congruence|]. intros _.
  unfold wordCounts. simpl. rewrite totalWords_cons.
  pose proof (splitSpace_nonempty s). lia.
Qed.

(** C1 (amended).  For a caption text whose segment list is not empty, the
    timings computed by the handler, in its double arithmetic, are as many
    as the segments; the first starts at 0; each next one starts where the
    previous one ends; each one ends at its start plus
    [effectiveDuration * (segmentWords / totalWords)].  Computed without
    rounding, on rationals, the same loop moreover gives each segment the
    duration [duration * (segmentWords / totalWords)] exactly (twice the
    words, twice the duration), the durations sum to the duration and the
    last segment ends at it, and for a positive duration every segment
    starts before it ends: the segments are ordered, do not overlap and
    cover [0, duration). *)
Theorem segment_timings_partition
    (captionForScene : jsstring) (effectiveDuration : float) (exactDuration : Q) :
  segments captionForScene <> [] ->
  let segs := segments captionForScene in
  let wcs := wordCounts segs in
  let total := totalWords wcs in
  let ts := segmentTimings Float64 effectiveDuration segs in
  let tq := segmentTimings Exact exactDuration segs in
  (length ts = length segs
   /\ (exists t0, ts !! 0 = Some t0 /\ t_start t0 = 0%float)
   /\ (forall i t t', ts !! i = Some t -> ts !! S i = Some t' ->
         t_start t' = t_end t)
   /\ (forall i t, ts !! i = Some t -> exists w, wcs !! i = Some w /\
         t_end t = (t_start t + effectiveDuration
                      * (ofCount Float64 w / ofCount Float64 total))%float))
  /\
  (length tq = length segs
   /\ (exists t0, tq !! 0 = Some t0 /\ t_start t0 = 0%Q)
   /\ (forall i t t', tq !! i = Some t -> tq !! S i = Some t' ->
         t_start t' = t_end t)
   /\ (forall i t, tq !! i = Some t -> exists w, wcs !! i = Some w /\
         (t_end t - t_start t
          == exactDuration * (inject_Z (Z.of_nat w) / inject_Z (Z.of_nat total)))%Q)
   /\ (forall i j ti tj wi wj,
         tq !! i = Some ti -> tq !! j = Some tj ->
         wcs !! i = Some wi -> wcs !! j = Some wj -> wi = 2 * wj ->
         (t_end ti - t_start ti == 2 * (t_end tj - t_start tj))%Q)
   /\ (exactSum (exactDurations tq) == exactDuration)%Q
   /\ (exists tl, list.last tq = Some tl /\ (t_end tl == exactDuration)%Q)
   /\ ((0 < exactDuration)%Q ->
       forall i t, tq !! i = Some t -> (t_start t < t_end t)%Q)).
Proof.
  intros Hne segs wcs total ts tq.
  assert (Htotal : 1 <= total) by (apply segments_total_positive; exact Hne).
  assert (Hsegs : 1 <= length segs).
  { unfold segs. destruct (segments captionForScene); [congruence | simpl; lia]. }
  assert (Hlen : forall A d, length (segmentTimings A d segs) = length segs).
  { intros A d. unfold segmentTimings. rewrite timingLoop_length.
    unfold wordCounts. apply length_map. }
  assert (Hhead : forall A d, exists t0,
             segmentTimings A d segs !! 0 = Some t0 /\ t_start t0 = zero A).
  { intros A d. specialize (Hlen A d).
    destruct (segmentTimings A d segs) as [|t0 rest] eqn:E.
    - simpl in Hlen. lia.
    - exists t0. split; [reflexivity|].
      unfold segmentTimings in E. eapply timingLoop_first. rewrite E. reflexivity. }
  assert (Hdur : forall i t, tq !! i = Some t -> exists w, wcs !! i = Some w /\
         (t_end t - t_start t
          == exactDuration * (inject_Z (Z.of_nat w) / inject_Z (Z.of_nat total)))%Q).
  { intros i t H. apply timingLoop_duration in H as (w & Hw & E).
    exists w. split; [exact Hw|]. rewrite E. unfold segmentDuration, total, wcs.
    simpl. unfold Qdiv. ring. }
  split; [|split; [|split; [|split; [|split; [|split; [|split; [|split]]]]]]].
  - split; [apply Hlen|]. split; [apply (Hhead Float64)|]. split.
    + intros i t t'. apply timingLoop_chain.
    + intros i t H. apply timingLoop_duration in H as (w & Hw & E).
      exists w. split; [exact Hw|exact E].
  - apply Hlen.
  - apply (Hhead Exact).
  - intros i t t'. apply timingLoop_chain.
  - exact Hdur.
  - intros i j ti tj wi wj Hi Hj Hwi Hwj ->.
    apply Hdur in Hi as (w1 & E1 & ->). apply Hdur in Hj as (w2 & E2 & ->).
    fold wcs in E1, E2. rewrite Hwi in E1. rewrite Hwj in E2.
    injection E1 as <-. injection E2 as <-.
    replace (Z.of_nat (wj + (wj + 0))) with (Z.of_nat wj + Z.of_nat wj)%Z by lia.
    rewrite inject_Z_plus. unfold Qdiv. ring.
  - unfold tq, segmentTimings. rewrite exact_durations_sum.
    now apply share_of_all.
  - specialize (Hlen Exact exactDuration). fold tq in Hlen.
    destruct (list.last tq) as [tl|] eqn:El.
    + exists tl. split; [reflexivity|].
      unfold tq, segmentTimings in El. apply exact_last_end in El.
      rewrite El. fold wcs. fold total. rewrite share_of_all by exact Htotal.
      simpl. ring.
    + apply last_None in El. rewrite El in Hlen. simpl in Hlen. lia.
  - intros Hpos i t H. apply timingLoop_duration in H as (w & Hw & E).
    rewrite E.
    assert (0 < segmentDuration Exact exactDuration total w)%Q.
    { apply exact_duration_pos; [exact Hpos| |exact Htotal].
      eapply wordCounts_positive. exact Hw. }
    simpl. rewrite <- (Qplus_0_r (t_start t)) at 1.
    apply Qplus_lt_r. exact H.
Qed.

Lemma segment_timings_partition_witness :
  segments (captionText (Some stopLookListen)) <> []
  /\ length (segmentTimings Float64 7%float (segments (captionText (Some stopLookListen))))
     = length (segments (captionText (Some stopLookListen)))
  /\ (exactSum (exactDurations
        (segmentTimings Exact 7%Q (segments (captionText (Some stopLookListen)))))
      == 7)%Q.
Proof.
  assert (H : segments (captionText (Some stopLookListen)) <> [])
    by (vm_compute; discriminate).
  split; [exact H|].
  destruct (segment_timings_partition _ 7%float 7%Q H)
    as [[Hlen _] (_ & _ & _ & _ & _ & Hsum & _)].
  split; [exact Hlen | exact Hsum].
Defined.

(** C1, as stated, fails in the arithmetic of the code: "Stop. Look.
    Listen." over a 7-second scene gives three segments of one word each,
    whose durations [7 * (1 / 3)] add up, in doubles, to less than 7; the
    last segment ends before the scene does. *)
Lemma three_words_over_seven_seconds :
  wordCounts (segments (captionText (Some stopLookListen))) = [1; 1; 1]
  /\ PrimFloat.ltb
       (fold_left PrimFloat.add
          (List.map (segmentDuration Float64 7%float 3) [1; 1; 1]) 0%float)
       7%float = true
  /\ exists tl,
      list.last (segmentTimings Float64 (mathMax 7%float MIN_SCENE_DURATION)
                   (segments (captionText (Some stopLookListen)))) = Some tl
      /\ PrimFloat.ltb (t_end tl) 7%float = true.
Proof.
  split; [vm_compute; reflexivity|].
  split; [vm_compute; reflexivity|].
  eexists. split; vm_compute; reflexivity.
Qed.

(** C3 (amended).  For the narration "Check the horn. Then look left and
    right before moving." with captions enabled over a 9.0-second scene,
    the segmenter produces exactly two segments, of 3 and 7 words, and
    their windows, as printed into the overlay filter, are [0.00, 2.70)
    and [2.70, 9.00). *)
Theorem horn_scenario_timings (numberToString : float -> jsstring) :
  useCaptions true (captionText (Some hornNarration)) = true
  /\ segments (captionText (Some hornNarration))
     = [str "Check the horn."; str "Then look left and right before moving."]
  /\ wordCounts (segments (captionText (Some hornNarration))) = [3; 7]
  /\ printedWindows numberToString
       (segmentTimings Float64 (mathMax 9%float MIN_SCENE_DURATION)
          (segments (captionText (Some hornNarration))))
     = [(str "0.00", str "2.70"); (str "2.70", str "9.00")].
Proof.
  repeat split; vm_compute; reflexivity.
Qed.

(** C3, as stated, fails: the first window is not [0.00, 3.00). *)
Lemma horn_scenario_not_thirds :
  printedWindows noPrinting
    (segmentTimings Float64 (mathMax 9%float MIN_SCENE_DURATION)
       (segments (captionText (Some hornNarration))))
  <> [(str "0.00", str "3.00"); (str "3.00", str "9.00")].
Proof.
  vm_compute. discriminate.
Qed.

(** C4: the code breaks the bound.  A narration that is a single word of
    50 letters comes out as one segment of 50 characters, above
    [maxCharsPerSegment]. *)
Theorem long_word_exceeds_segment_limit :
  useCaptions true (captionText (Some longWord)) = true
  /\ segments (captionText (Some longWord)) = [longWord]
  /\ maxCharsPerSegment < length longWord.
Proof.
  repeat split; vm_compute; try reflexivity. lia.
Qed.

End CaptionClaims.

(** ** Resilience layer *)

Module RetryClaims.
Import Retry.

Lemma invocations_app (h1 h2 : list Event) :
  invocations (h1 ++ h2) = invocations h1 + invocations h2.
Proof. unfold invocations. now rewrite filter_app, length_app. Qed.

Lemma invocations_failedAttempts (ms : Z) (k : nat) :
  invocations (failedAttempts ms k) = k.
Proof.
  induction k as [|k IH]; [reflexivity|].
  simpl. rewrite invocations_app, IH. unfold invocations. simpl. lia.
Qed.

(** The options and the values the loop runs with. *)
Lemma wholeAttempts_attemptsOf (options : Options) (n : Z) :
  wholeAttempts options n -> (attemptsOf options == inject_Z n)%Q.
Proof.
  unfold wholeAttempts, attemptsOf. destruct (attempts options) as [a|].
  - auto.
  - intros ->. reflexivity.
Qed.

Lemma delayOf_initialMsOf (options : Options) (ms : Z) :
  delayOf options ms -> initialMsOf options = ms.
Proof.
  unfold delayOf, initialMsOf. destruct (initialMs options) as [m|]; auto.
Qed.

Section Loop.
Context {T E : Type}.
Variable fn : list Event -> T + E.
Variable a : Q.
Variables (n ms : Z).
Hypothesis whole : (a == inject_Z n)%Q.

(** [i === attempts - 1], for a whole number of attempts. *)
Lemma last_attempt_test (i : Z) :
  Qeq_bool (inject_Z i) (a - 1)%Q = (i =? n - 1)%Z.
Proof.
  destruct (Z.eqb_spec i (n - 1)) as [->|Hne].
  - apply Qeq_bool_iff. rewrite whole.
    unfold Qeq, Qminus, Qplus, Qopp, inject_Z. simpl. lia.
  - destruct (Qeq_bool _ _) eqn:Heq; [|reflexivity]. exfalso.
    apply Qeq_bool_iff in Heq. rewrite whole in Heq.
    unfold Qeq, Qminus, Qplus, Qopp, inject_Z in Heq. simpl in Heq. lia.
Qed.

(** The loop entered for its attempt number [k0 + 1], after [k0] failed
    attempts and their waits, with [remaining = n - k0] iterations to go:
    it ends after some [k] failed attempts and one more invocation. *)
Lemma retryLoop_run (remaining k0 : nat) (lastErr : option E) :
  1 <= remaining ->
  (Z.of_nat k0 + Z.of_nat remaining = n)%Z ->
  exists k,
    k0 <= k < k0 + remaining
    /\ snd (retryLoop fn a ms remaining (Z.of_nat k0) lastErr (failedAttempts ms k0))
       = failedAttempts ms k ++ [Invoke]
    /\ (forall j, k0 <= j < k -> exists err, fn (failedAttempts ms j) = inr err)
    /\ match fn (failedAttempts ms k) with
       | inl value =>
           fst (retryLoop fn a ms remaining (Z.of_nat k0) lastErr (failedAttempts ms k0))
           = Resolved value
       | inr err =>
           Z.of_nat (S k) = n
           /\ fst (retryLoop fn a ms remaining (Z.of_nat k0) lastErr (failedAttempts ms k0))
              = Rejected (Some err)
       end.
Proof.
  revert k0 lastErr.
  induction remaining as [|r IH]; intros k0 lastErr Hr Hn; [lia|].
  cbn [retryLoop]. rewrite last_attempt_test.
  destruct (fn (failedAttempts ms k0)) as [value|err] eqn:Hfn.
  - exists k0. rewrite Hfn. simpl.
    split; [lia|]. split; [reflexivity|]. split; [intros j Hj; lia | reflexivity].
  - destruct (Z.eqb_spec (Z.of_nat k0) (n - 1)) as [Hlast|Hmore].
    + exists k0. rewrite Hfn. simpl.
      split; [lia|]. split; [reflexivity|]. split; [intros j Hj; lia|].
      split; [lia | reflexivity].
    + assert (Hr' : 1 <= r) by lia.
      assert (Hn' : (Z.of_nat (S k0) + Z.of_nat r = n)%Z) by lia.
      destruct (IH (S k0) (Some err) Hr' Hn') as (k & Hk & Hh & Hfail & Hend).
      replace (Z.of_nat k0 + 1)%Z with (Z.of_nat (S k0)) by lia.
      change (failedAttempts ms k0 ++ [Invoke; Wait (ms * 2 ^ Z.of_nat k0)])
        with (failedAttempts ms (S k0)).
      exists k. split; [lia|]. split; [exact Hh|]. split; [|exact Hend].
      intros j Hj. destruct (Nat.eq_dec j k0) as [->|Hne].
      * exists err. exact Hfn.
      * apply Hfail. lia.
Qed.
End Loop.

(** [withRetry] on options that name a whole number of attempts. *)
Lemma withRetry_whole {T E : Type} (fn : list Event -> T + E)
    (options : Options) (n ms : Z) :
  wholeAttempts options n -> delayOf options ms ->
  withRetry fn options
  = retryLoop fn (attemptsOf options) ms (Z.to_nat n) 0%Z None [].
Proof.
  intros Hn Hms. unfold withRetry.
  rewrite (delayOf_initialMsOf options ms Hms).
  rewrite (Qceiling_comp _ _ (wholeAttempts_attemptsOf options n Hn)).
  now rewrite Qceiling_Z.
Qed.

(** C8 (amended).  For options whose [attempts] is a whole number [n]
    (given, or the default 3) and whose [initialMs] is [ms] (given, or the
    default 1000): with [n <= 0] [withRetry] invokes nothing and rejects
    with the undefined [lastErr].  Otherwise its run is: [k] failed
    invocations, the [j]-th of them (from 0) followed by a wait of
    [ms * 2^j], then one more invocation, [k + 1 <= n] in all; that last
    invocation is either the first success, whose value is returned at once,
    or the failure of attempt number [n], whose error is the rejection
    reason, unchanged and without a further wait. *)
Theorem withRetry_attempts {T E : Type} (fn : list Event -> T + E)
    (options : Options) (n ms : Z) :
  wholeAttempts options n -> delayOf options ms ->
  let outcome := fst (withRetry fn options) in
  let history := snd (withRetry fn options) in
  (Z.of_nat (invocations history) <= Z.max 0 n)%Z /\
  ((n <= 0)%Z /\ history = [] /\ outcome = Rejected None
   \/
   (1 <= n)%Z /\
   exists k,
     (Z.of_nat (S k) <= n)%Z
     /\ history = failedAttempts ms k ++ [Invoke]
     /\ (forall j, j < k -> exists err, fn (failedAttempts ms j) = inr err)
     /\ match fn (failedAttempts ms k) with
        | inl value => outcome = Resolved value
        | inr err => Z.of_nat (S k) = n /\ outcome = Rejected (Some err)
        end).
Proof.
  intros Hn Hms outcome history.
  pose proof (withRetry_whole fn options n ms Hn Hms) as Hrun.
  pose proof (wholeAttempts_attemptsOf options n Hn) as Hwhole.
  destruct (Z_le_gt_dec n 0) as [Hle|Hgt].
  - replace (Z.to_nat n) with 0 in Hrun by lia. cbn [retryLoop] in Hrun.
    unfold history, outcome. rewrite Hrun. simpl.
    split; [unfold invocations; simpl; lia|]. left. auto.
  - assert (Hr : 1 <= Z.to_nat n) by lia.
    assert (Hsum : (Z.of_nat 0 + Z.of_nat (Z.to_nat n) = n)%Z) by lia.
    destruct (retryLoop_run fn (attemptsOf options) n ms Hwhole (Z.to_nat n) 0 None
                Hr Hsum) as (k & Hk & Hh & Hfail & Hend).
    change (retryLoop fn (attemptsOf options) ms (Z.to_nat n) (Z.of_nat 0) None
              (failedAttempts ms 0))
      with (retryLoop fn (attemptsOf options) ms (Z.to_nat n) 0%Z None [])
      in Hh, Hend.
    rewrite <- Hrun in Hh, Hend.
    fold history in Hh. fold outcome in Hend.
    split.
    + rewrite Hh, invocations_app, invocations_failedAttempts.
      unfold invocations. simpl. lia.
    + right. split; [lia|]. exists k.
      split; [lia|]. split; [exact Hh|]. split; [|exact Hend].
      intros j Hj. apply Hfail. lia.
Qed.

(** Two attempts and 250 ms, given in the options, on an operation that
    always fails: two invocations, one wait of 250 ms between them, and
    the error of the second invocation as the rejection reason. *)
Lemma withRetry_attempts_witness :
  wholeAttempts twoQuickAttempts 2 /\ delayOf twoQuickAttempts 250
  /\ withRetry failsWithItsNumber twoQuickAttempts
     = (Rejected (Some 1), [Invoke; Wait 250; Invoke]).
Proof.
  assert (Hn : wholeAttempts twoQuickAttempts 2) by reflexivity.
  assert (Hms : delayOf twoQuickAttempts 250) by reflexivity.
  split; [exact Hn|]. split; [exact Hms|].
  destruct (withRetry_attempts failsWithItsNumber twoQuickAttempts 2 250 Hn Hms)
    as [_ [(Hle & _)|(_ & k & _ & Hh & _ & Hend)]]; [lia|].
  vm_compute. reflexivity.
Defined.

(** C8, as stated, fails for a number of attempts that is not whole: with
    [attempts: 2.5] an operation that always fails is invoked three times,
    more than [attempts], and after the third failure [withRetry] still
    waits 4000 ms before it rejects (with the error of that failure). *)
Lemma two_and_a_half_attempts :
  attempts fractionalAttempts = Some (5 # 2)%Q
  /\ withRetry failsWithItsNumber fractionalAttempts
     = (Rejected (Some 2),
        [Invoke; Wait 1000; Invoke; Wait 2000; Invoke; Wait 4000])
  /\ (attemptsOf fractionalAttempts
      < inject_Z (Z.of_nat (invocations
                              (snd (withRetry failsWithItsNumber fractionalAttempts)))))%Q.
Proof.
  split; [reflexivity|]. split; [reflexivity|]. vm_compute. reflexivity.
Qed.

(** The default policy on an operation that always fails: three
    invocations, waits of 1000 and 2000 ms between them, and the error of
    the third invocation as the rejection reason. *)
Example withRetry_default_backoff :
  withRetry failsWithItsNumber noOptions
  = (Rejected (Some 2), [Invoke; Wait 1000; Invoke; Wait 2000; Invoke]).
Proof. reflexivity. Qed.

End RetryClaims.

Module TimeoutClaims.
Import Timeout.

Section Facts.
Context {T E : Type}.
Variable message : jsstring.

Lemma step_keeps_settled (st : State T E) (ev : Event T E) :
  returned st <> Pending -> returned (step message st ev) = returned st.
Proof.
  intros H. destruct ev as [|how]; simpl.
  - destruct (timer st); [|reflexivity]. simpl.
    destruct (returned st); [congruence | reflexivity | reflexivity].
  - destruct (underlying st); [reflexivity|]. simpl.
    destruct how; destruct (returned st); congruence || reflexivity.
Qed.

Lemma run_keeps_settled (events : list (Event T E)) (st : State T E) :
  returned st <> Pending ->
  returned (fold_left (step message) events st) = returned st.
Proof.
  revert st. induction events as [|ev events IH]; intros st H; [reflexivity|].
  simpl. rewrite IH; rewrite step_keeps_settled; auto.
Qed.

(** The first event settles the returned promise. *)
Lemma withTimeout_head (ms : Z) (events : list (Event T E)) :
  withTimeout ms message events
  = match events with
    | [] => Pending
    | TimerElapsed :: _ => Rejected (NewError message)
    | OperationCompletes (Fulfils value) :: _ => Fulfilled value
    | OperationCompletes (Rejects err) :: _ => Rejected (OfPromise err)
    end.
Proof.
  unfold withTimeout, run. destruct events as [|ev events]; [reflexivity|].
  simpl. rewrite run_keeps_settled.
  - destruct ev as [|[value|err]]; reflexivity.
  - destruct ev as [|[value|err]]; simpl; congruence.
Qed.

(** The timer has no part in how the wrapped operation ends. *)
Lemma run_underlying (events : list (Event T E)) (st : State T E) :
  underlying (fold_left (step message) events st)
  = match underlying st with
    | Some how => Some how
    | None => firstCompletion events
    end.
Proof.
  revert st. induction events as [|ev events IH]; intros st.
  - simpl. now destruct (underlying st).
  - simpl. rewrite IH. destruct ev as [|how]; simpl.
    + destruct (timer st); reflexivity.
    + destruct (underlying st) eqn:Hu; simpl; [rewrite Hu|]; reflexivity.
Qed.
End Facts.

(** C9.  The promise returned by [withTimeout] is settled by the first
    event delivered: rejected with the [new Error(message)] of the timer
    when the delay elapses first, and otherwise fulfilled with the wrapped
    promise's value or rejected with its reason, unchanged; it is pending
    before any event.  The timer does nothing to the wrapped operation: it
    completes as its first completion event says, also after the timeout
    rejection, which then stands. *)
Theorem withTimeout_first_event {T E : Type} (ms : Z) (message : jsstring)
    (events : list (Event T E)) :
  withTimeout ms message events
  = match events with
    | [] => Pending
    | TimerElapsed :: _ => Rejected (NewError message)
    | OperationCompletes (Fulfils value) :: _ => Fulfilled value
    | OperationCompletes (Rejects err) :: _ => Rejected (OfPromise err)
    end
  /\ underlying (run ms message events) = firstCompletion events
  /\ (forall (how : Settlement T E) (later : list (Event T E)),
        withTimeout ms message (TimerElapsed :: OperationCompletes how :: later)
        = Rejected (NewError message)
        /\ underlying (run ms message (TimerElapsed :: OperationCompletes how :: later))
           = Some how)
  /\ (forall (ev : Event T E) (later : list (Event T E)),
        withTimeout ms message (ev :: later)
        = match awaitTimeout ms message ev with
          | inl value => Fulfilled value
          | inr reason => Rejected reason
          end)
  /\ withTimeout ms defaultMessage [TimerElapsed : Event T E]
     = Rejected (NewError (str "Request timed out")).
Proof.
  split; [apply withTimeout_head|]. split; [|split; [|split]].
  - unfold run. now rewrite run_underlying.
  - intros how later. split.
    + now rewrite withTimeout_head.
    + unfold run. now rewrite run_underlying.
  - intros ev later. rewrite withTimeout_head.
    destruct ev as [|[value|err]]; reflexivity.
  - reflexivity.
Qed.

End TimeoutClaims.

(** ** The bounded-concurrency pool *)

Module PoolClaims.
Import Pool PoolInvariant.

Lemma awaitingFrom_shift (w : nat) (ws : list (option nat)) :
  awaitingFrom (S w) ws = List.map S (awaitingFrom w ws).
Proof.
  revert w. induction ws as [|[i|] ws IH]; intros w; simpl; [reflexivity| |].
  - now rewrite IH.
  - apply IH.
Qed.

Lemma awaiting_elem (ws : list (option nat)) (w : nat) :
  In w (awaiting ws) <-> exists i, ws !! w = Some (Some i).
Proof.
  unfold awaiting. revert w.
  induction ws as [|[i|] ws IH]; intros w; simpl.
  - split; [tauto | intros [i H]; discriminate].
  - rewrite awaitingFrom_shift, in_map_iff. split.
    + intros [<-|(x & <- & Hx)]; [exists i; reflexivity|].
      apply IH in Hx. exact Hx.
    + intros [j H]. destruct w as [|w]; [now left|].
      right. exists w. split; [reflexivity|]. apply IH. exists j. exact H.
  - rewrite awaitingFrom_shift, in_map_iff. split.
    + intros (x & <- & Hx). apply IH in Hx. exact Hx.
    + intros [j H]. destruct w as [|w]; [discriminate|].
      exists w. split; [reflexivity|]. apply IH. exists j. exact H.
Qed.

Lemma awaitingFrom_length (w w' : nat) (ws : list (option nat)) :
  length (awaitingFrom w ws) = length (awaitingFrom w' ws).
Proof.
  revert w w'. induction ws as [|[i|] ws IH]; intros w w'; simpl; auto.
Qed.

(** A worker that takes another task stays busy; one that returns is one
    busy worker less. *)
Lemma busy_insert_some (ws : list (option nat)) (w i j : nat) :
  ws !! w = Some (Some i) -> busy (<[w := Some j]> ws) = busy ws.
Proof.
  unfold busy, awaiting. generalize 0 as w0. revert w.
  induction ws as [|[x|] ws IH]; intros w w0 H; [discriminate| |].
  - destruct w as [|w]; simpl; [reflexivity|]. f_equal. now apply IH.
  - destruct w as [|w]; [discriminate|]. simpl. now apply IH.
Qed.

Lemma busy_insert_none (ws : list (option nat)) (w i : nat) :
  ws !! w = Some (Some i) -> S (busy (<[w := None]> ws)) = busy ws.
Proof.
  unfold busy, awaiting. generalize 0 as w0. revert w.
  induction ws as [|[x|] ws IH]; intros w w0 H; [discriminate| |].
  - destruct w as [|w]; simpl.
    + reflexivity.
    + f_equal. now apply IH.
  - destruct w as [|w]; [discriminate|]. simpl. now apply IH.
Qed.

(** The choice of the schedule is an awaiting worker. *)
Lemma chosen_awaits (l : list nat) (w0 k : nat) :
  l <> [] -> In (nth (k mod length l) l w0) l.
Proof.
  intros H. apply nth_In. apply Nat.mod_upper_bound.
  destruct l; [congruence | discriminate].
Qed.

Section Run.
Context {T R E : Type}.
Variable fn : T -> nat -> R + E.
Variable items : list T.

Local Abbreviation n := (length items).
Local Abbreviation Inv := (PoolInvariant.Inv fn items).
Local Abbreviation todo := (PoolInvariant.todo items).
Local Abbreviation fulfils := (PoolInvariant.fulfils fn items).

Lemma spawn_seq (count next : nat) :
  next + count <= n ->
  spawn items count next = (List.map Some (seq next count), next + count).
Proof.
  revert next. induction count as [|count IH]; intros next H; simpl.
  - f_equal. lia.
  - unfold claim. destruct (Nat.ltb_spec next n) as [_|Hge]; [|lia].
    rewrite IH by lia. f_equal. lia.
Qed.

Lemma lookup_map_seq (m w i : nat) :
  List.map Some (seq 0 m) !! w = Some (Some i) -> i = w /\ w < m.
Proof.
  intros H. change (List.map Some (seq 0 m)) with (Some <$> seq 0 m) in H.
  rewrite list_lookup_fmap in H.
  destruct (seq 0 m !! w) as [x|] eqn:Hx; [|discriminate].
  simpl in H. apply lookup_seq in Hx as [-> Hlt]. injection H as <-. lia.
Qed.

Lemma awaitingFrom_all (m s w0 : nat) :
  length (awaitingFrom w0 (List.map Some (seq s m))) = m.
Proof.
  revert s w0. induction m as [|m IH]; intros s w0; simpl; [reflexivity|].
  now rewrite IH.
Qed.

Lemma busy_map_seq (m : nat) : busy (List.map Some (seq 0 m)) = m.
Proof. apply awaitingFrom_all. Qed.

Lemma start_inv (concurrency : nat) :
  1 <= concurrency -> Inv (start items concurrency).
Proof.
  intros Hc. unfold start. rewrite spawn_seq by lia. simpl.
  set (m := Nat.min concurrency n).
  split; simpl.
  - apply length_replicate.
  - lia.
  - intros w i H. apply lookup_map_seq in H. lia.
  - intros w w' i H H'. apply lookup_map_seq in H, H'. lia.
  - intros j v H. apply lookup_replicate in H as [H _]. discriminate.
  - intros j Hj Hnone. exfalso. apply (Hnone j).
    change (List.map Some (seq 0 m)) with (Some <$> seq 0 m).
    rewrite list_lookup_fmap, lookup_seq_lt by lia. reflexivity.
  - intros Hlt. exists 0, 0.
    change (List.map Some (seq 0 m)) with (Some <$> seq 0 m).
    rewrite list_lookup_fmap, lookup_seq_lt by lia. reflexivity.
Qed.

Lemma start_todo (concurrency : nat) :
  todo (start (R := R) items concurrency) = n.
Proof.
  unfold start, todo. rewrite spawn_seq by lia. simpl.
  rewrite busy_map_seq. lia.
Qed.

(** A lookup [H] in a list updated at [i], read at [j]: the two cases.
    [inrange] proves that [i] is within the list. *)
Ltac at_index i j H inrange :=
  destruct (Nat.eq_dec i j) as [<-|?];
  [ rewrite list_lookup_insert_eq in H by (first [exact inrange | inrange])
  | rewrite list_lookup_insert_ne in H by assumption ].

(** One task settles: the invariant is kept and one thing less is left to
    do, or the task failed. *)
Lemma resume_step (st : State R) (w : nat) :
  Inv st -> In w (awaiting (workers st)) ->
  match resume fn items st w with
  | inl st' => Inv st' /\ S (todo st') = todo st
  | inr err => exists i item, items !! i = Some item /\ fn item i = inr err
  end.
Proof.
  intros HI Hw. apply awaiting_elem in Hw as [i Hwi].
  pose proof (inv_claimed st HI w i Hwi) as Hi.
  pose proof (inv_next st HI) as Hnext.
  unfold resume. rewrite Hwi.
  destruct (items !! i) as [item|] eqn:Hitem;
    [|apply lookup_ge_None in Hitem; lia].
  destruct (fn item i) as [v|err] eqn:Hfn; [|exists i, item; auto].
  assert (Hsound : forall j v',
             <[i := Some v]> (results st) !! j = Some (Some v') -> fulfils j v').
  { intros j v' H. at_index i j H ltac:(rewrite (inv_length st HI); lia).
    - injection H as <-. exists item. auto.
    - now apply (inv_sound st HI) in H. }
  assert (Hfree : forall j next_w,
             j <> i -> j < nextIndex st ->
             (forall w', <[w := next_w]> (workers st) !! w' <> Some (Some j)) ->
             forall w', workers st !! w' <> Some (Some j)).
  { intros j next_w Hji Hj Hnone w' H. destruct (Nat.eq_dec w w') as [<-|Hww].
    - rewrite Hwi in H. congruence.
    - apply (Hnone w'). now rewrite list_lookup_insert_ne. }
  assert (Hww : w < length (workers st)) by (eapply lookup_lt_Some; exact Hwi).
  unfold claim. destruct (Nat.ltb_spec (nextIndex st) n) as [Hlt|Hge].
  - (* the worker claims task [nextIndex] *)
    split.
    + split; simpl.
      * rewrite length_insert. apply (inv_length st HI).
      * lia.
      * intros w' i' H. at_index w w' H Hww.
        -- injection H as <-. lia.
        -- apply (inv_claimed st HI) in H. lia.
      * intros w1 w2 i' H1 H2.
        at_index w w1 H1 Hww; at_index w w2 H2 Hww; try reflexivity.
        -- injection H1 as <-. apply (inv_claimed st HI) in H2. lia.
        -- injection H2 as <-. apply (inv_claimed st HI) in H1. lia.
        -- eapply (inv_distinct st HI); eassumption.
      * exact Hsound.
      * intros j Hj Hnone. destruct (Nat.eq_dec i j) as [<-|Hne].
        -- exists v. apply list_lookup_insert_eq. rewrite (inv_length st HI). lia.
        -- rewrite list_lookup_insert_ne by exact Hne.
           destruct (Nat.eq_dec j (nextIndex st)) as [->|Hnew].
           ++ exfalso. apply (Hnone w). now apply list_lookup_insert_eq.
           ++ apply (inv_done st HI); [lia|]. eapply Hfree; eauto. lia.
      * intros _. exists w, (nextIndex st). now apply list_lookup_insert_eq.
    + unfold todo, PoolInvariant.todo. simpl.
      rewrite (busy_insert_some _ _ i) by exact Hwi. lia.
  - (* no task is left: the worker returns *)
    split.
    + split; simpl.
      * rewrite length_insert. apply (inv_length st HI).
      * lia.
      * intros w' i' H. at_index w w' H Hww; [discriminate|].
        now apply (inv_claimed st HI) in H.
      * intros w1 w2 i' H1 H2.
        at_index w w1 H1 Hww; [discriminate|].
        at_index w w2 H2 Hww; [discriminate|].
        eapply (inv_distinct st HI); eassumption.
      * exact Hsound.
      * intros j Hj Hnone. destruct (Nat.eq_dec i j) as [<-|Hne].
        -- exists v. apply list_lookup_insert_eq. rewrite (inv_length st HI). lia.
        -- rewrite list_lookup_insert_ne by exact Hne.
           apply (inv_done st HI); [lia|]. eapply Hfree; eauto.
      * intros Hlt. lia.
    + unfold todo, PoolInvariant.todo. simpl.
      rewrite <- (busy_insert_none _ _ i Hwi). lia.
Qed.

Lemma exec_unfold (schedule : list nat) (st : State R) :
  exec fn items schedule st
  = match awaiting (workers st) with
    | [] => Returned (results st)
    | w0 :: ws =>
        match schedule with
        | [] => StillRunning
        | k :: schedule' =>
            match resume fn items st (nth (k mod length (w0 :: ws)) (w0 :: ws) w0) with
            | inl st' => exec fn items schedule' st'
            | inr err => Threw err
            end
        end
    end.
Proof. destruct schedule; reflexivity. Qed.

(** Every schedule that is long enough ends the run: with all the results
    in place, or with the failure of a task. *)
Lemma exec_ends (schedule : list nat) (st : State R) :
  Inv st -> todo st <= length schedule ->
  match exec fn items schedule st with
  | Returned rs =>
      length rs = n /\
      forall j, j < n -> exists v, rs !! j = Some (Some v) /\ fulfils j v
  | Threw err => exists i item, items !! i = Some item /\ fn item i = inr err
  | StillRunning => False
  end.
Proof.
  revert st. induction schedule as [|k schedule IH]; intros st HI Hlen.
  - assert (Hbusy : busy (workers st) = 0) by (unfold todo in Hlen; simpl in Hlen; lia).
    assert (Hnext : nextIndex st = n).
    { unfold todo in Hlen. simpl in Hlen. pose proof (inv_next st HI) as Hle. lia. }
    unfold busy in Hbusy. simpl.
    destruct (awaiting (workers st)) as [|w0 ws] eqn:Ha; [|discriminate].
    split; [apply (inv_length st HI)|].
    intros j Hj. destruct (inv_done st HI j) as [v Hv]; [lia| |].
    + intros w H. assert (Hin : In w (awaiting (workers st)))
        by (apply awaiting_elem; eauto).
      rewrite Ha in Hin. contradiction.
    + exists v. split; [exact Hv|]. apply (inv_sound st HI). exact Hv.
  - rewrite exec_unfold. destruct (awaiting (workers st)) as [|w0 ws] eqn:Ha.
    + assert (Hnone : forall w j, workers st !! w <> Some (Some j)).
      { intros w j H. assert (Hin : In w (awaiting (workers st)))
          by (apply awaiting_elem; eauto).
        rewrite Ha in Hin. contradiction. }
      assert (Hnext : nextIndex st = n).
      { pose proof (inv_next st HI) as Hle.
        destruct (Nat.eq_dec (nextIndex st) n) as [|Hne]; [assumption|].
        destruct (inv_alive st HI) as (w & i & Hwi); [lia|].
        exfalso. eapply Hnone. exact Hwi. }
      split; [apply (inv_length st HI)|].
      intros j Hj. destruct (inv_done st HI j) as [v Hv]; [lia| |].
      * intros w. apply Hnone.
      * exists v. split; [exact Hv|]. apply (inv_sound st HI). exact Hv.
    + set (w := nth (k mod length (w0 :: ws)) (w0 :: ws) w0).
      assert (Hw : In w (awaiting (workers st))).
      { rewrite Ha. apply chosen_awaits. discriminate. }
      pose proof (resume_step st w HI Hw) as Hstep.
      destruct (resume fn items st w) as [st'|err]; [|exact Hstep].
      destruct Hstep as [HI' Htodo]. apply IH; [exact HI'|].
      simpl in Hlen. lia.
Qed.

(** The reference: all its tasks fulfil, or one of them fails. *)
Lemma sequentialFrom_values (i : nat) (rest : list T) (values : list R) :
  sequentialFrom fn i rest = inl values ->
  length values = length rest /\
  forall k item, rest !! k = Some item ->
    exists v, values !! k = Some v /\ fn item (i + k) = inl v.
Proof.
  revert i values. induction rest as [|item rest IH]; intros i values H; simpl in H.
  - injection H as <-. split; [reflexivity|]. intros k x Hk. destruct k; discriminate.
  - destruct (fn item i) as [v|err] eqn:Hfn; [|discriminate].
    destruct (sequentialFrom fn (S i) rest) as [vs|err] eqn:Hrest; [|discriminate].
    injection H as <-. destruct (IH (S i) vs Hrest) as [Hlen Hall].
    split; [simpl; lia|].
    intros [|k] x Hk; simpl in Hk.
    + injection Hk as <-. exists v. rewrite Nat.add_0_r. auto.
    + destruct (Hall k x Hk) as (v' & Hv' & Hfn'). exists v'.
      replace (i + S k) with (S i + k) by lia. auto.
Qed.

Lemma sequentialFrom_error (i : nat) (rest : list T) (err : E) :
  sequentialFrom fn i rest = inr err ->
  exists k item e, rest !! k = Some item /\ fn item (i + k) = inr e.
Proof.
  revert i. induction rest as [|item rest IH]; intros i H; simpl in H; [discriminate|].
  destruct (fn item i) as [v|e] eqn:Hfn.
  - destruct (sequentialFrom fn (S i) rest) as [vs|e] eqn:Hrest; [discriminate|].
    injection H as ->.
    destruct (IH (S i) Hrest) as (k & x & e' & Hk & Hx).
    exists (S k), x, e'. replace (i + S k) with (S i + k) by lia. auto.
  - exists 0, item, e. rewrite Nat.add_0_r. auto.
Qed.

End Run.

(** C6.  For every list of items, task function and concurrency bound of
    at least 1, and every order in which the awaited tasks settle (every
    schedule with a choice for each task): the pool does not stay running;
    when the tasks awaited one after the other in input order give the list
    [values], the pool returns exactly that list, [results[i]] being the
    value of task [i]; and whenever the pool returns a list, it is that
    list.  (When a task fails, both fail.) *)
Theorem runWithConcurrency_in_input_order {T R E : Type}
    (fn : T -> nat -> R + E) (items : list T) (concurrency : nat)
    (schedule : list nat) :
  1 <= concurrency ->
  length items <= length schedule ->
  runWithConcurrency fn items concurrency schedule <> StillRunning
  /\ (forall values,
        sequentialMap fn items = inl values ->
        runWithConcurrency fn items concurrency schedule
        = Returned (List.map Some values))
  /\ (forall results,
        runWithConcurrency fn items concurrency schedule = Returned results ->
        exists values,
          sequentialMap fn items = inl values /\ results = List.map Some values).
Proof.
  intros Hc Hlen.
  pose proof (exec_ends fn items schedule (start items concurrency)
                (start_inv fn items concurrency Hc)) as Hend.
  rewrite start_todo in Hend. specialize (Hend Hlen).
  fold (runWithConcurrency fn items concurrency schedule) in Hend.
  assert (Hvalues : forall values,
             sequentialMap fn items = inl values ->
             runWithConcurrency fn items concurrency schedule
             = Returned (List.map Some values)).
  { intros values Hseq. apply sequentialFrom_values in Hseq as [Hl Hall].
    destruct (runWithConcurrency fn items concurrency schedule) as [rs|err|].
    - destruct Hend as [Hrs Hres]. f_equal. apply list_eq. intros j.
      change (List.map Some values) with (Some <$> values).
      rewrite list_lookup_fmap.
      destruct (Nat.lt_ge_cases j (length items)) as [Hj|Hj].
      + destruct (Hres j Hj) as (v & Hv & item & Hitem & Hfn).
        destruct (Hall j item Hitem) as (v' & Hv' & Hfn').
        simpl in Hfn'. rewrite Hfn in Hfn'. injection Hfn' as <-.
        rewrite Hv, Hv'. reflexivity.
      + rewrite (lookup_ge_None_2 rs) by lia.
        rewrite (lookup_ge_None_2 values) by lia. reflexivity.
    - destruct Hend as (i & item & Hitem & Hfn).
      destruct (Hall i item Hitem) as (v & _ & Hv). simpl in Hv. congruence.
    - contradiction. }
  split; [|split].
  - intros H. rewrite H in Hend. exact Hend.
  - exact Hvalues.
  - intros results Hrun.
    destruct (sequentialMap fn items) as [values|err] eqn:Hseq.
    + exists values. split; [reflexivity|].
      rewrite (Hvalues values eq_refl) in Hrun. now injection Hrun as <-.
    + exfalso. apply sequentialFrom_error in Hseq as (k & item & e & Hk & Hfn).
      rewrite Hrun in Hend. destruct Hend as [_ Hres].
      destruct (Hres k) as (v & _ & item' & Hitem' & Hfn').
      { eapply lookup_lt_Some. exact Hk. }
      simpl in Hfn. rewrite Hk in Hitem'. injection Hitem' as <-. congruence.
Qed.

Lemma runWithConcurrency_in_input_order_witness :
  1 <= SCENE_ASSET_CONCURRENCY
  /\ length [10; 20; 30; 40; 50] <= length [4; 0; 1; 0; 3]
  /\ runWithConcurrency (fun (item i : nat) => @inl nat nat (item + i))
       [10; 20; 30; 40; 50] SCENE_ASSET_CONCURRENCY [4; 0; 1; 0; 3]
     = Returned [Some 10; Some 21; Some 32; Some 43; Some 54].
Proof.
  assert (Hc : 1 <= SCENE_ASSET_CONCURRENCY) by (unfold SCENE_ASSET_CONCURRENCY; lia).
  assert (Hl : length [10; 20; 30; 40; 50] <= length [4; 0; 1; 0; 3]) by (simpl; lia).
  split; [exact Hc|]. split; [exact Hl|].
  exact (proj1 (proj2 (runWithConcurrency_in_input_order
                         (fun (item i : nat) => @inl nat nat (item + i))
                         [10; 20; 30; 40; 50] SCENE_ASSET_CONCURRENCY
                         [4; 0; 1; 0; 3] Hc Hl))
           [10; 21; 32; 43; 54] eq_refl).
Defined.

(** Without a worker ([concurrency = 0]) the array comes back with its
    holes. *)
Example runWithConcurrency_no_worker :
  runWithConcurrency (fun (item i : nat) => @inl nat nat (item + i))
    [10; 20] 0 [0; 0]
  = Returned [None; None].
Proof. reflexivity. Qed.

End PoolClaims.

(** ** Single-scene regeneration *)

Module RegenerateClaims.
Import Regenerate.

Lemma arrayGet_arraySet_eq {A} (l : list (option A)) (k : nat) (v : A) :
  arrayGet (arraySet l k v) k = Some v.
Proof.
  unfold arrayGet, arraySet. destruct (Nat.ltb_spec k (length l)) as [Hlt|Hge].
  - now rewrite list_lookup_insert_eq.
  - rewrite lookup_app_r by lia. rewrite lookup_app_r; rewrite length_replicate; [|lia].
    replace (k - length l - (k - length l)) with 0 by lia. reflexivity.
Qed.

Lemma arrayGet_arraySet_ne {A} (l : list (option A)) (k j : nat) (v : A) :
  j <> k -> arrayGet (arraySet l k v) j = arrayGet l j.
Proof.
  intros Hne. unfold arrayGet, arraySet.
  destruct (Nat.ltb_spec k (length l)) as [Hlt|Hge].
  - rewrite list_lookup_insert_ne by congruence. reflexivity.
  - destruct (Nat.lt_ge_cases j (length l)) as [Hj|Hj].
    + rewrite lookup_app_l by exact Hj. reflexivity.
    + rewrite (lookup_ge_None_2 l j) by exact Hj.
      rewrite lookup_app_r by exact Hj.
      destruct (Nat.lt_ge_cases j k) as [Hjk|Hjk].
      * rewrite lookup_app_l by (rewrite length_replicate; lia).
        rewrite lookup_replicate_2 by lia. reflexivity.
      * rewrite lookup_app_r by (rewrite length_replicate; lia).
        rewrite length_replicate.
        destruct (j - length l - (k - length l)) as [|d] eqn:Hd; [lia|].
        reflexivity.
Qed.

(** What a regeneration changes, by its outcome. *)
Lemma regenerateScene_frame
    (fetchProviderConfig : unit + Thrown)
    (generateSceneAsset : Scene -> nat -> SceneAssets + Thrown)
    (assembleVideo : list (option SceneAssets) -> bool -> unit + Thrown)
    (k : nat) (scene : Scene) (currentAssets : nat) (captions : bool)
    (previousBlobUrl : option nat) (w : World) (old : list (option nat)) :
  arrays w !! currentAssets = Some old ->
  let run := regenerateScene fetchProviderConfig generateSceneAsset assembleVideo
               k scene currentAssets captions previousBlobUrl w in
  let outcome := fst run in
  let w' := snd run in
  arrays w' !! currentAssets = Some old
  /\ (forall r a, objects w !! r = Some a -> objects w' !! r = Some a)
  /\ (outcome = Resolved Ok ->
      exists newAssets new asset data u,
        assets w' = Some newAssets
        /\ newAssets <> currentAssets
        /\ arrays w' !! newAssets = Some new
        /\ arrayGet new k = Some asset
        /\ objects w !! asset = None
        /\ generateSceneAsset scene k = inl data
        /\ objects w' !! asset = Some data
        /\ (forall j, j <> k -> arrayGet new j = arrayGet old j)
        /\ trace w' = trace w ++ [Generated; CostAdded; Assembled]
                        ++ match previousBlobUrl with
                           | Some p => [Revoked p]
                           | None => []
                           end
                        ++ [UrlCreated u]
        /\ videoBlobUrl w' = Some u
        /\ liveUrls w' = match previousBlobUrl with
                         | Some p => liveUrls w ∖ {[p]}
                         | None => liveUrls w
                         end ∪ {[u]})
  /\ (outcome <> Resolved Ok ->
      liveUrls w' = liveUrls w
      /\ videoBlobUrl w' = videoBlobUrl w
      /\ assets w' = assets w
      /\ exists done_, trace w' = trace w ++ done_
           /\ forall ev, In ev done_ -> ev = Generated \/ ev = CostAdded).
Proof.
  intros Hold run outcome w'. subst outcome w' run. unfold regenerateScene.
  destruct w as [objs arrs urls ctr vurl asts regen tr].
  cbv beta iota zeta delta
    [objects arrays liveUrls urlCounter videoBlobUrl assets
     regeneratingSceneIndex trace] in Hold |- *.
  destruct fetchProviderConfig as [cfg|e0].
  2:{ simpl. split; [exact Hold|]. split; [auto|]. split; [discriminate|].
      intros _. repeat split. exists []. rewrite app_nil_r. split; [reflexivity|].
      intros ev []. }
  destruct (generateSceneAsset scene k) as [data|e1] eqn:Hgen.
  2:{ simpl. split; [exact Hold|]. split; [auto|]. split; [discriminate|].
      intros _. repeat split. exists []. rewrite app_nil_r. split; [reflexivity|].
      intros ev []. }
  set (asset := fresh (dom objs)).
  set (newAssets := fresh (dom arrs)).
  assert (Hasset : objs !! asset = None).
  { apply not_elem_of_dom. apply is_fresh. }
  assert (Hnew : arrs !! newAssets = None).
  { apply not_elem_of_dom. apply is_fresh. }
  assert (Hne : newAssets <> currentAssets) by congruence.
  cbv beta iota zeta delta
    [allocObject allocArray storeArray log setRegeneratingSceneIndex finally_
     setAssets setVideoBlobUrl createObjectURL revokeObjectURL
     objects arrays liveUrls urlCounter videoBlobUrl assets
     regeneratingSceneIndex trace fst snd].
  fold asset. fold newAssets. rewrite Hold.
  rewrite lookup_alter_eq, lookup_insert_eq. cbn [fmap option_fmap option_map].
  assert (Hcur : alter (fun l => arraySet l k asset) newAssets
                   (<[newAssets := old]> arrs) !! currentAssets = Some old).
  { rewrite lookup_alter_ne, lookup_insert_ne by congruence. exact Hold. }
  assert (Hnw : alter (fun l => arraySet l k asset) newAssets
                   (<[newAssets := old]> arrs) !! newAssets
                = Some (arraySet old k asset)).
  { rewrite lookup_alter_eq, lookup_insert_eq. reflexivity. }
  assert (Hobj : forall r a, objs !! r = Some a ->
                   <[asset := data]> objs !! r = Some a).
  { intros r a Hr. rewrite lookup_insert_ne by congruence. exact Hr. }
  destruct (assembleVideo _ captions) as [blob|e2].
  - destruct previousBlobUrl as [p|];
      cbv beta iota zeta delta
        [log objects arrays liveUrls urlCounter videoBlobUrl assets
         regeneratingSceneIndex trace fst snd].
    + split; [exact Hcur|]. split; [exact Hobj|].
      split; [|congruence]. intros _.
      exists newAssets, (arraySet old k asset), asset, data, ctr.
      split; [reflexivity|]. split; [exact Hne|].
      split; [exact Hnw|].
      split; [apply arrayGet_arraySet_eq|]. split; [exact Hasset|].
      split; [reflexivity|]. split; [apply lookup_insert_eq|].
      split; [intros j Hj; now apply arrayGet_arraySet_ne|].
      split; [rewrite <- !app_assoc; reflexivity|].
      split; reflexivity.
    + split; [exact Hcur|]. split; [exact Hobj|].
      split; [|congruence]. intros _.
      exists newAssets, (arraySet old k asset), asset, data, ctr.
      split; [reflexivity|]. split; [exact Hne|].
      split; [exact Hnw|].
      split; [apply arrayGet_arraySet_eq|]. split; [exact Hasset|].
      split; [reflexivity|]. split; [apply lookup_insert_eq|].
      split; [intros j Hj; now apply arrayGet_arraySet_ne|].
      split; [rewrite <- !app_assoc; reflexivity|].
      split; reflexivity.
  - cbv beta iota zeta delta
      [objects arrays liveUrls urlCounter videoBlobUrl assets
       regeneratingSceneIndex trace fst snd].
    split; [exact Hcur|]. split; [exact Hobj|].
    split; [discriminate|]. intros _. repeat split.
    exists [Generated; CostAdded]. split; [rewrite <- app_assoc; reflexivity|].
    intros ev [<-|[<-|[]]]; auto.
Qed.

Lemma arrayGet_map {A B} (f : option A -> option B) (l : list (option A))
    (k : nat) :
  f None = None -> arrayGet (List.map f l) k = f (arrayGet l k).
Proof.
  intros Hf. unfold arrayGet.
  change (List.map f l) with (f <$> l). rewrite list_lookup_fmap.
  destruct (l !! k) as [entry|]; [reflexivity | now rewrite Hf].
Qed.

(** When a regeneration succeeds: exactly when each collaborator does. *)
Lemma regenerateScene_ok_iff
    (fetchProviderConfig : unit + Thrown)
    (generateSceneAsset : Scene -> nat -> SceneAssets + Thrown)
    (assembleVideo : list (option SceneAssets) -> bool -> unit + Thrown)
    (k : nat) (scene : Scene) (currentAssets : nat) (captions : bool)
    (previousBlobUrl : option nat) (w : World) (old : list (option nat)) :
  arrays w !! currentAssets = Some old ->
  fst (regenerateScene fetchProviderConfig generateSceneAsset assembleVideo
         k scene currentAssets captions previousBlobUrl w) = Resolved Ok
  <-> (exists config, fetchProviderConfig = inl config)
      /\ exists data, generateSceneAsset scene k = inl data
         /\ exists blob,
              assembleVideo (sentAssets w old k data) captions = inl blob.
Proof.
  intros Hold. unfold regenerateScene, sentAssets.
  destruct w as [objs arrs urls ctr vurl asts regen tr].
  cbv beta iota zeta delta
    [objects arrays liveUrls urlCounter videoBlobUrl assets
     regeneratingSceneIndex trace] in Hold |- *.
  destruct fetchProviderConfig as [cfg|e0].
  2:{ simpl. split; [discriminate|]. intros [[config H] _]. discriminate. }
  destruct (generateSceneAsset scene k) as [data|e1] eqn:Hgen.
  2:{ simpl. split; [discriminate|]. intros (_ & data & H & _). discriminate. }
  cbv beta iota zeta delta
    [allocObject allocArray storeArray log setRegeneratingSceneIndex finally_
     setAssets setVideoBlobUrl createObjectURL revokeObjectURL contents
     objects arrays liveUrls urlCounter videoBlobUrl assets
     regeneratingSceneIndex trace fst snd].
  rewrite Hold. rewrite lookup_alter_eq, lookup_insert_eq.
  cbn [fmap option_fmap option_map].
  destruct (assembleVideo _ captions) as [blob|e2] eqn:Hasm.
  - split; [|destruct previousBlobUrl; reflexivity]. intros _.
    split; [now exists cfg|]. exists data. split; [reflexivity|]. now exists blob.
  - split; [discriminate|]. intros (_ & data' & Hd & blob & Hb).
    injection Hd as <-. rewrite Hasm in Hb. discriminate.
Qed.

(** C7.  Regenerating scene [k] over the array [currentAssets] never
    changes that array nor any object that existed.  It succeeds exactly
    when the configuration is fetched, the asset is generated and the
    assembler returns a blob for the assets it is sent, which hold the
    regenerated asset at [k] and at every other index what
    [currentAssets] refers to there.  When it succeeds, the
    new [assets] state is another array; at [k] it holds an object that did
    not exist before, carrying the regenerated asset; at every other index
    it holds what [currentAssets] holds there, the same references; and the
    previous object URL was revoked after the assembler returned the new
    blob and before the new URL was created.  When it does not succeed,
    no URL was revoked or created, and [videoBlobUrl] and [assets] are
    as before: the previous result stays usable. *)
Theorem regenerateScene_replaces_one
    (fetchProviderConfig : unit + Thrown)
    (generateSceneAsset : Scene -> nat -> SceneAssets + Thrown)
    (assembleVideo : list (option SceneAssets) -> bool -> unit + Thrown)
    (k : nat) (scene : Scene) (currentAssets : nat) (captions : bool)
    (previousBlobUrl : option nat) (w : World) (old : list (option nat)) :
  arrays w !! currentAssets = Some old ->
  let run := regenerateScene fetchProviderConfig generateSceneAsset assembleVideo
               k scene currentAssets captions previousBlobUrl w in
  let outcome := fst run in
  let w' := snd run in
  arrays w' !! currentAssets = Some old
  /\ (forall r a, objects w !! r = Some a -> objects w' !! r = Some a)
  /\ (outcome = Resolved Ok ->
      exists newAssets new asset data u,
        assets w' = Some newAssets
        /\ newAssets <> currentAssets
        /\ arrays w' !! newAssets = Some new
        /\ arrayGet new k = Some asset
        /\ objects w !! asset = None
        /\ generateSceneAsset scene k = inl data
        /\ objects w' !! asset = Some data
        /\ (forall j, j <> k -> arrayGet new j = arrayGet old j)
        /\ trace w' = trace w ++ [Generated; CostAdded; Assembled]
                        ++ match previousBlobUrl with
                           | Some p => [Revoked p]
                           | None => []
                           end
                        ++ [UrlCreated u]
        /\ videoBlobUrl w' = Some u
        /\ liveUrls w' = match previousBlobUrl with
                         | Some p => liveUrls w ∖ {[p]}
                         | None => liveUrls w
                         end ∪ {[u]})
  /\ (outcome <> Resolved Ok ->
      liveUrls w' = liveUrls w
      /\ videoBlobUrl w' = videoBlobUrl w
      /\ assets w' = assets w
      /\ exists done_, trace w' = trace w ++ done_
           /\ forall ev, In ev done_ -> ev = Generated \/ ev = CostAdded)
  /\ (outcome = Resolved Ok
      <-> (exists config, fetchProviderConfig = inl config)
          /\ exists data, generateSceneAsset scene k = inl data
             /\ exists blob,
                  assembleVideo (sentAssets w old k data) captions = inl blob)
  /\ (forall data,
        arrayGet (sentAssets w old k data) k = Some data
        /\ forall j r a, j <> k -> arrayGet old j = Some r ->
             objects w !! r = Some a ->
             arrayGet (sentAssets w old k data) j = Some a).
Proof.
  intros Hold run outcome w'.
  destruct (regenerateScene_frame fetchProviderConfig generateSceneAsset
              assembleVideo k scene currentAssets captions previousBlobUrl w old
              Hold) as (H1 & H2 & H3 & H4).
  split; [exact H1|]. split; [exact H2|]. split; [exact H3|]. split; [exact H4|].
  split; [now apply regenerateScene_ok_iff|].
  intros data. unfold sentAssets.
  assert (Hfresh : objects w !! fresh (dom (objects w)) = None).
  { apply not_elem_of_dom. apply is_fresh. }
  split.
  - rewrite arrayGet_map by reflexivity. rewrite arrayGet_arraySet_eq.
    apply lookup_insert_eq.
  - intros j r a Hj Hr Ha. rewrite arrayGet_map by reflexivity.
    rewrite arrayGet_arraySet_ne by exact Hj. rewrite Hr.
    rewrite lookup_insert_ne by congruence. exact Ha.
Qed.

(** Scene 1 of three is regenerated, every collaborator succeeding: the
    outcome is [ok], the input array is as before, and the new array
    holds an object that did not exist at 1 and the old references at 0
    and 2. *)
Lemma regenerateScene_replaces_one_witness :
  let run := regenerateScene (inl tt) (fun _ _ => inl asset0)
               (fun _ _ => inl tt) 1 someScene 0 true (Some 0) threeAssets in
  arrays threeAssets !! 0 = Some [Some 0; Some 1; Some 2]
  /\ arrays (snd run) !! 0 = Some [Some 0; Some 1; Some 2]
  /\ fst run = Resolved Ok
  /\ exists newAssets new asset,
       assets (snd run) = Some newAssets
       /\ arrays (snd run) !! newAssets = Some new
       /\ arrayGet new 1 = Some asset
       /\ objects threeAssets !! asset = None
       /\ arrayGet new 0 = Some 0 /\ arrayGet new 2 = Some 2.
Proof.
  intros run.
  assert (H : arrays threeAssets !! 0 = Some [Some 0; Some 1; Some 2])
    by (vm_compute; reflexivity).
  destruct (regenerateScene_replaces_one (inl tt) (fun _ _ => inl asset0)
              (fun _ _ => inl tt) 1 someScene 0 true (Some 0) threeAssets
              [Some 0; Some 1; Some 2] H)
    as (Hsame & _ & Hok & _ & Hiff & _).
  cbv zeta in Hsame, Hok, Hiff. fold run in Hsame, Hok, Hiff.
  assert (Hdone : fst run = Resolved Ok).
  { apply Hiff. split; [now exists tt|]. exists asset0.
    split; [reflexivity|]. now exists tt. }
  split; [exact H|]. split; [exact Hsame|]. split; [exact Hdone|].
  destruct (Hok Hdone)
    as (newAssets & new & asset & data & u & Ha & _ & Hn & Hk & Hfresh & _ & _
        & Hother & _).
  exists newAssets, new, asset.
  split; [exact Ha|]. split; [exact Hn|]. split; [exact Hk|].
  split; [exact Hfresh|].
  split; [now rewrite Hother by lia | now rewrite Hother by lia].
Defined.

(** Regenerating scene 1 of three: the new array holds a new object at 1
    and the old references at 0 and 2; a regeneration whose assembly fails
    leaves the URL and the state as they were. *)
Example regenerate_middle_scene :
  let w' := snd (regenerateScene (inl tt) (fun _ _ => inl asset0)
                   (fun _ _ => inl tt) 1 someScene 0 true (Some 0) threeAssets) in
  match assets w' with
  | Some a => arrays w' !! a
  | None => None
  end = Some [Some 0; Some 3; Some 2]
  /\ trace w' = [Generated; CostAdded; Assembled; Revoked 0; UrlCreated 1].
Proof. split; vm_compute; reflexivity. Qed.

Example regenerate_beyond_the_end :
  arraySet [Some 0; Some 1] 4 9 = [Some 0; Some 1; None; None; Some 9].
Proof. reflexivity. Qed.

End RegenerateClaims.

(** ** The assemble endpoint *)

Module AssembleClaims.
Import Assemble.

Section Facts.
Context {Media FfErr : Type}.
Variable numberToString : float -> jsstring.
Variable renderRun : Job -> Files Media -> option FfErr * Files Media.
Variable concatRun : Job -> Files Media -> Timeout.Event unit FfErr * Files Media.

(** With captions in use the filter chain is the base chain and more. *)
Lemma vf_extends_base (captions_ : bool) (captionForScene : jsstring)
    (effectiveDuration : float) :
  useCaptions captions_ captionForScene = true ->
  vfOf numberToString captions_ captionForScene effectiveDuration
  <> baseVfOf numberToString effectiveDuration.
Proof.
  intros Huse E. unfold vfOf in E. rewrite Huse in E.
  apply (f_equal (@List.length N)) in E.
  rewrite !length_app in E. simpl in E. lia.
Qed.

Lemma useCaptions_true (captions_ : bool) (captionForScene : jsstring) :
  captions_ = true -> captionForScene <> [] ->
  useCaptions captions_ captionForScene = true.
Proof.
  intros -> Hne. unfold useCaptions. destruct captionForScene; [congruence|reflexivity].
Qed.

(** The size check: when it rejects. *)
Lemma bodyTooLarge_iff (header : option jsstring) :
  bodyTooLarge header = true
  <-> exists s n, header = Some s /\ parseInt10 s = Some n
                  /\ (MAX_ASSEMBLE_BODY_BYTES < n)%Z.
Proof.
  unfold bodyTooLarge. split.
  - destruct header as [s|]; [|discriminate]. intros H.
    apply andb_true_iff in H as [_ H].
    destruct (parseInt10 s) as [n|] eqn:Hn; [|discriminate].
    exists s, n. apply Z.ltb_lt in H. auto.
  - intros (s & n & -> & Hn & Hlt). rewrite Hn.
    apply andb_true_iff. split; [|now apply Z.ltb_lt].
    destruct s; [discriminate | reflexivity].
Qed.

(** What the handler can answer once the size check has passed. *)
Lemma bind_normal {A B} (c : M Media FfErr A) (k : A -> M Media FfErr B)
    (w w' : World Media) (b : B) :
  bind c k w = (Normal b, w') ->
  exists a w1, c w = (Normal a, w1) /\ k a w1 = (Normal b, w').
Proof.
  unfold bind. destruct (c w) as [[a|e] w1]; [|discriminate].
  intros H. exists a, w1. auto.
Qed.

Lemma processScene_status (tmpDir : jsstring) (captions_ : bool)
    (captionTexts : list jsstring) (i : nat) (scene : SceneAssets)
    (w w' : World Media) (response : NextResponse Media) :
  processScene numberToString renderRun tmpDir captions_ captionTexts i scene w
  = (Normal (Some response), w') ->
  status response = 400.
Proof.
  unfold processScene.
  destruct (_ || _ || _); [intros H; now injection H as <- _|].
  destruct (_ && _); [intros H; now injection H as <- _|].
  intros H. apply bind_normal in H as (? & w1 & _ & H).
  apply bind_normal in H as (? & w2 & _ & H). discriminate.
Qed.

Lemma sceneLoop_status (tmpDir : jsstring) (captions_ : bool)
    (captionTexts : list jsstring) (rest : list SceneAssets) (i : nat)
    (segmentPaths : list jsstring) (w w' : World Media)
    (response : NextResponse Media) :
  sceneLoop numberToString renderRun tmpDir captions_ captionTexts i rest
    segmentPaths w = (Normal (inl response), w') ->
  status response = 400.
Proof.
  revert i segmentPaths w.
  induction rest as [|scene rest IH]; intros i segmentPaths w H; [discriminate|].
  simpl in H. apply bind_normal in H as ([r|] & w1 & Hscene & H).
  - injection H as <- _. eapply processScene_status. exact Hscene.
  - eapply IH. exact H.
Qed.

Lemma assemble_status (tmpDir : jsstring) (request : Request)
    (w w' : World Media) (response : NextResponse Media) :
  assemble numberToString renderRun concatRun tmpDir request w
  = (Normal response, w') ->
  status response = 400 \/ status response = 200.
Proof.
  unfold assemble. intros H.
  apply bind_normal in H as (body & w1 & _ & H).
  destruct (safeParse body) as [data|]; [|injection H as <- _; now left].
  apply bind_normal in H as ([r|paths] & w2 & Hloop & H).
  - injection H as <- _. left. eapply sceneLoop_status. exact Hloop.
  - apply bind_normal in H as (? & w3 & _ & H).
    apply bind_normal in H as (? & w4 & _ & H).
    apply bind_normal in H as (buffer & w5 & _ & H).
    injection H as <- _. now right.
Qed.

(** The checks at the head of the scene loop repeat the schema: they never
    fire for a scene that the schema accepted. *)
Lemma positive_not_leb_zero (x : float) :
  PrimFloat.ltb 0 x = true -> PrimFloat.leb x 0 = false.
Proof.
  rewrite ltb_spec, leb_spec. change (Prim2SF 0) with (S754_zero false).
  destruct (Prim2SF x) as [s|s| |s m e]; try destruct s; simpl;
    try discriminate; reflexivity.
Qed.

Lemma zNonEmpty_truthy (v : option Json) (s : jsstring) :
  zNonEmpty v = Some s -> truthy s = true.
Proof.
  unfold zNonEmpty. destruct (zString v) as [t|]; [|discriminate].
  destruct t; simpl; [discriminate|]. now intros [= <-].
Qed.

Lemma parsed_scene_passes_checks (v : Json) (d : SceneAssets) :
  parseSceneAsset v = Some d ->
  passesChecks d.
Proof.
  unfold passesChecks, parseSceneAsset. destruct v as [| | | | |props]; try discriminate.
  destruct (zIndex _) as [idx|]; [|discriminate].
  destruct (zOptional zNonEmpty (getProp (str "imageBase64") props)) as [image|];
    [|discriminate].
  destruct (zOptional zNonEmpty (getProp (str "videoBase64") props)) as [video|];
    [|discriminate].
  destruct (zNonEmpty (getProp (str "audioBase64") props)) as [audio|] eqn:Haudio;
    [|discriminate].
  destruct (zPositive _) as [duration|] eqn:Hduration; [|discriminate].
  destruct (zOptional zString _) as [narr|]; [|discriminate].
  destruct (_ && _) eqn:Hrefine; [|discriminate].
  intros [= <-]. simpl.
  apply andb_true_iff in Hrefine as [Hone Hboth].
  apply negb_true_iff in Hboth.
  apply zNonEmpty_truthy in Haudio.
  assert (Hpos : PrimFloat.leb duration 0 = false).
  { unfold zPositive in Hduration. destruct (zNumber _) as [x|]; [|discriminate].
    destruct (PrimFloat.ltb 0 x) eqn:Hx; [|discriminate].
    injection Hduration as <-. now apply positive_not_leb_zero. }
  rewrite Haudio, Hpos, Hboth. split; [|reflexivity].
  destruct (present image), (present video); simpl in *; congruence.
Qed.

Lemma parseScenes_pass (elems : list Json) (ds : list SceneAssets) :
  parseScenes elems = Some ds -> Forall passesChecks ds.
Proof.
  revert ds. induction elems as [|v elems IH]; intros ds H; simpl in H.
  - injection H as <-. constructor.
  - destruct (parseSceneAsset v) as [d|] eqn:Hd; [|discriminate].
    destruct (parseScenes elems) as [ds'|]; [|discriminate].
    injection H as <-. constructor; [|now apply IH].
    eapply parsed_scene_passes_checks. exact Hd.
Qed.

Lemma safeParse_pass (body : Json) (data : AssembleVideoBody) :
  safeParse body = Some data -> Forall passesChecks (scenes data).
Proof.
  unfold safeParse. destruct body as [| | | | |props]; try discriminate.
  destruct (getProp (str "scenes") props) as [[| | | |elems|]|]; try discriminate.
  destruct (_ && _); [|discriminate].
  destruct (parseScenes elems) as [ds|] eqn:Hds; [|discriminate].
  destruct (zCaptions _) as [c|]; [|discriminate].
  intros [= <-]. simpl. eapply parseScenes_pass. exact Hds.
Qed.

Lemma processScene_no_answer (tmpDir : jsstring) (captions_ : bool)
    (captionTexts : list jsstring) (i : nat) (scene : SceneAssets)
    (w w' : World Media) (response : NextResponse Media) :
  passesChecks scene ->
  processScene numberToString renderRun tmpDir captions_ captionTexts i scene w
  <> (Normal (Some response), w').
Proof.
  intros [H1 H2] H. unfold processScene in H. rewrite H1, H2 in H.
  apply bind_normal in H as (? & w1 & _ & H).
  apply bind_normal in H as (? & w2 & _ & H). discriminate.
Qed.

Lemma sceneLoop_no_answer (tmpDir : jsstring) (captions_ : bool)
    (captionTexts : list jsstring) (rest : list SceneAssets) (i : nat)
    (segmentPaths : list jsstring) (w w' : World Media)
    (response : NextResponse Media) :
  Forall passesChecks rest ->
  sceneLoop numberToString renderRun tmpDir captions_ captionTexts i rest
    segmentPaths w <> (Normal (inl response), w').
Proof.
  revert i segmentPaths w.
  induction rest as [|scene rest IH]; intros i segmentPaths w Hall H; [discriminate|].
  apply Forall_cons_iff in Hall as [Hscene Hrest].
  simpl in H. apply bind_normal in H as ([r|] & w1 & Hp & H).
  - eapply processScene_no_answer; eassumption.
  - eapply IH; eassumption.
Qed.

(** The handler answers 400 for a body that fails the schema, and for no
    other. *)
Lemma assemble_400 (tmpDir : jsstring) (request : Request)
    (w w' : World Media) (response : NextResponse Media) :
  assemble numberToString renderRun concatRun tmpDir request w
  = (Normal response, w') ->
  status response = 400 ->
  exists body, json request = Some body /\ safeParse body = None.
Proof.
  unfold assemble. intros H Hs.
  apply bind_normal in H as (body & w1 & Hbody & H).
  destruct (json request) as [v|]; [|discriminate].
  injection Hbody as -> _. exists body. split; [reflexivity|].
  destruct (safeParse body) as [data|] eqn:Hp; [|reflexivity]. exfalso.
  apply bind_normal in H as ([r|paths] & w2 & Hloop & H).
  - eapply sceneLoop_no_answer; [|exact Hloop]. eapply safeParse_pass. exact Hp.
  - apply bind_normal in H as (? & w3 & _ & H).
    apply bind_normal in H as (? & w4 & _ & H).
    apply bind_normal in H as (buffer & w5 & _ & H).
    injection H as <- _. discriminate.
Qed.

(** What the cleanup does. *)
Lemma unlinkEach_events (refused : FsCall -> bool) (tmpDir : jsstring)
    (names : list jsstring) (entries : gmap jsstring (FileData Media)) :
  Forall (isCleanupEvent tmpDir) (unlinkEach refused tmpDir names entries).2.
Proof.
  revert entries. induction names as [|f names IH]; intros entries; simpl;
    [constructor|].
  destruct (refused (UnlinkOf tmpDir f)); [constructor|].
  specialize (IH (delete f entries)).
  destruct (unlinkEach refused tmpDir names (delete f entries)) as [[done e'] evs].
  simpl in *. constructor; [reflexivity | exact IH].
Qed.

Lemma unlinkEach_allowed (refused : FsCall -> bool) (tmpDir : jsstring)
    (names : list jsstring) (entries : gmap jsstring (FileData Media)) :
  (forall f, refused (UnlinkOf tmpDir f) = false) ->
  (unlinkEach refused tmpDir names entries).1.1 = true
  /\ (unlinkEach refused tmpDir names entries).2 = List.map (Unlink tmpDir) names.
Proof.
  intros Hok. revert entries.
  induction names as [|f names IH]; intros entries; simpl; [auto|].
  rewrite Hok. specialize (IH (delete f entries)).
  destruct (unlinkEach refused tmpDir names (delete f entries)) as [[done e'] evs].
  simpl in *. destruct IH as [-> ->]. auto.
Qed.

Lemma cleanup_events (tmpDir : jsstring) (w : World Media) :
  exists evs, events (cleanup tmpDir w) = events w ++ evs
              /\ Forall (isCleanupEvent tmpDir) evs.
Proof.
  unfold cleanup. destruct (files w !! tmpDir) as [entries|];
    [|exists []; split; [now rewrite app_nil_r | constructor]].
  destruct (refuses w (Readdir tmpDir)).
  { eexists. split; [reflexivity|]. repeat constructor. }
  pose proof (unlinkEach_events (refuses w) tmpDir
                (List.map fst (map_to_list entries)) entries) as Hevs.
  destruct (unlinkEach _ _ _ _) as [[done e'] evs]. simpl in Hevs.
  destruct (done && _); (eexists; split; [reflexivity|]);
    (apply Forall_app; split; [exact Hevs | repeat constructor]).
Qed.

Lemma cleanup_other (tmpDir d : jsstring) (w : World Media) :
  d <> tmpDir -> files (cleanup tmpDir w) !! d = files w !! d.
Proof.
  intros Hd. unfold cleanup. destruct (files w !! tmpDir) as [entries|];
    [|reflexivity].
  unfold Files in *.
  destruct (refuses w (Readdir tmpDir)); [simpl; now rewrite lookup_insert_ne|].
  destruct (unlinkEach _ _ _ _) as [[done e'] evs].
  destruct (done && _); simpl;
    [now rewrite lookup_delete_ne | now rewrite lookup_insert_ne].
Qed.

Lemma cleanup_allowed (tmpDir : jsstring) (w : World Media) :
  cleanupAllowed tmpDir w -> files (cleanup tmpDir w) = delete tmpDir (files w).
Proof.
  intros (Hread & Hunlink & Hrmdir). unfold cleanup.
  destruct (files w !! tmpDir) as [entries|] eqn:Hdir.
  - rewrite Hread.
    destruct (unlinkEach_allowed (refuses w) tmpDir
                (List.map fst (map_to_list entries)) entries Hunlink) as [Hdone _].
    destruct (unlinkEach _ _ _ _) as [[done e'] evs]. simpl in Hdone.
    now rewrite Hdone, Hrmdir.
  - unfold Files in *. now rewrite delete_id.
Qed.

(** After the cleanup the directory does not exist, or it is still there,
    a call was refused and the error was logged. *)
Lemma cleanup_outcome (tmpDir : jsstring) (w : World Media) :
  files (cleanup tmpDir w) !! tmpDir = None
  \/ (exists left_, files (cleanup tmpDir w) !! tmpDir = Some left_)
      /\ list.last (events (cleanup tmpDir w))
         = Some (ConsoleError (str "Cleanup error:"))
      /\ ~ cleanupAllowed tmpDir w.
Proof.
  unfold cleanup. destruct (files w !! tmpDir) as [entries|] eqn:Hdir;
    [|left; exact Hdir].
  unfold Files in *.
  destruct (refuses w (Readdir tmpDir)) eqn:Hread.
  { right. split; [eexists; cbn [files]; apply lookup_insert_eq|].
    split; [cbn [events]; rewrite app_assoc; apply last_snoc|].
    intros (H & _). congruence. }
  pose proof (unlinkEach_allowed (refuses w) tmpDir
                (List.map fst (map_to_list entries)) entries) as Hok.
  destruct (unlinkEach _ _ _ _) as [[done e'] evs]. cbn [fst snd] in Hok.
  destruct done; cbn [andb].
  - destruct (refuses w (RmdirOf tmpDir)) eqn:Hrmdir; cbn [negb].
    + right. split; [eexists; cbn [files]; apply lookup_insert_eq|].
      split; [cbn [events]; rewrite !app_assoc; apply last_snoc|].
      intros (_ & _ & H). congruence.
    + left. cbn [files]. apply lookup_delete_eq.
  - right. split; [eexists; cbn [files]; apply lookup_insert_eq|].
    split; [cbn [events]; rewrite !app_assoc; apply last_snoc|].
    intros (_ & H & _). destruct (Hok H) as [Hdone _]. discriminate.
Qed.

(** The refusals are those of the state before [mkdirSync]. *)
Lemma cleanupAllowed_mkdir (tmpDir : jsstring) (w : World Media) :
  cleanupAllowed tmpDir (snd (mkdirSync (FfErr := FfErr) tmpDir w))
  <-> cleanupAllowed tmpDir w.
Proof. reflexivity. Qed.

(** A request that fails the schema: the directory is made, nothing is
    written, the cleanup is run. *)
Lemma schema_failure_run (tmpDir : jsstring) (request : Request) (body : Json)
    (w : World Media) :
  bodyTooLarge (contentLength request) = false ->
  json request = Some body -> safeParse body = None ->
  handleAssembleVideo numberToString renderRun concatRun tmpDir request w
  = (Normal validationResponse,
     cleanup tmpDir (snd (mkdirSync (FfErr := FfErr) tmpDir w))).
Proof.
  intros Hsize Hjson Hparse.
  unfold handleAssembleVideo. rewrite Hsize.
  unfold bind at 1. cbn [mkdirSync]. unfold finally_, assemble, bind.
  rewrite Hjson. cbn [ret]. rewrite Hparse. reflexivity.
Qed.

(** The directory did not exist: it is made and removed, when the file
    system lets it be listed and removed. *)
Lemma mkdir_cleanup_fresh (tmpDir : jsstring) (w : World Media) :
  files w !! tmpDir = None ->
  refuses w (Readdir tmpDir) = false -> refuses w (RmdirOf tmpDir) = false ->
  cleanup tmpDir (snd (mkdirSync (FfErr := FfErr) tmpDir w))
  = {| files := files w;
       events := events w ++ [Mkdir tmpDir; Rmdir tmpDir];
       refuses := refuses w |}.
Proof.
  intros Hdir Hread Hrmdir. unfold mkdirSync, cleanup, record. cbn [snd files events refuses].
  rewrite Hdir. unfold Files in *.
  rewrite lookup_insert_eq, Hread, map_to_list_empty. cbn [List.map unlinkEach andb].
  rewrite Hrmdir. cbn [negb].
  rewrite delete_insert_eq, delete_id by exact Hdir.
  rewrite <- app_assoc. reflexivity.
Qed.

(** [tryRunSegment] against the answers of the encoder. *)
Lemma tryRunSegment_runs (captionForScene : jsstring) (effectiveDuration : float)
    (audioPath segmentPath inputPath : jsstring) (isVideo : bool)
    (w : World Media) :
  captionForScene <> [] ->
  let job := fun filterChain =>
    RenderSegment inputPath isVideo audioPath
      (outputOptions numberToString effectiveDuration filterChain) segmentPath in
  let baseVf := baseVfOf numberToString effectiveDuration in
  let vf := vfOf numberToString true captionForScene effectiveDuration in
  tryRunSegment (useCaptions true captionForScene) baseVf
    (fun filterChain =>
       runSegment numberToString renderRun effectiveDuration audioPath
         segmentPath filterChain inputPath isVideo) vf w
  = match renderRun (job vf) (files w) with
    | (None, fs1) => (Normal tt, encoded [job vf] fs1 w)
    | (Some e1, fs1) =>
        match renderRun (job baseVf) fs1 with
        | (None, fs2) => (Normal tt, encoded [job vf; job baseVf] fs2 w)
        | (Some e2, fs2) =>
            (Throw (RenderError e2), encoded [job vf; job baseVf] fs2 w)
        end
    end.
Proof.
  intros Hne job baseVf vf.
  pose proof (useCaptions_true true captionForScene eq_refl Hne) as Huse.
  pose proof (vf_extends_base true captionForScene effectiveDuration Huse) as Hvf.
  fold vf baseVf in Hvf.
  unfold tryRunSegment, catch, runSegment. fold (job vf) (job baseVf).
  destruct (renderRun (job vf) (files w)) as [[e1|] fs1]; [|reflexivity].
  rewrite Huse, bool_decide_eq_false_2 by exact Hvf. cbn [andb negb record files events refuses].
  destruct (renderRun (job baseVf) fs1) as [[e2|] fs2];
    unfold encoded, throw, record; cbn [files events refuses List.map];
    rewrite <- app_assoc; reflexivity.
Qed.

End Facts.

(** C5.  For a scene rendered with captions enabled and a non-empty caption
    text, the filter chain tried first is not the caption-free chain.
    [processScene], once the inputs of the scene are written, runs the
    encoder with the captioned chain; when the encoder answers with
    success, that is all; when it answers with an error, the encoder is
    run once more, with the caption-free chain, from the files the failed
    run left: when that run succeeds the scene is done and the loop
    goes on, and only when it fails too does the handler throw, with the
    error of the caption-free run.  The same holds of [tryRunSegment] on
    any paths. *)
Theorem caption_render_fallback (Media FfErr : Type)
    (numberToString : float -> jsstring)
    (renderRun : Job -> Files Media -> option FfErr * Files Media)
    (tmpDir : jsstring) (captionTexts : list jsstring) (i : nat)
    (scene : SceneAssets) (w : World Media) (entries : gmap jsstring (FileData Media)) :
  passesChecks scene ->
  captionForSceneOf captionTexts i scene <> [] ->
  files w !! tmpDir = Some entries ->
  let effectiveDuration := mathMax (durationSeconds scene) MIN_SCENE_DURATION in
  let baseVf := baseVfOf numberToString effectiveDuration in
  let vf := vfOf numberToString true (captionForSceneOf captionTexts i scene)
              effectiveDuration in
  let job := segmentJob numberToString tmpDir i scene in
  let w0 := inputsWritten FfErr tmpDir i scene w in
  vf <> baseVf
  /\ events w0
     = events w ++ [WriteFile tmpDir (sceneFile "scene-" i ".audio");
                    WriteFile tmpDir (inputName i scene)]
  /\ processScene numberToString renderRun tmpDir true captionTexts i scene w
     = match renderRun (job vf) (files w0) with
       | (None, fs1) => (Normal None, encoded [job vf] fs1 w0)
       | (Some e1, fs1) =>
           match renderRun (job baseVf) fs1 with
           | (None, fs2) => (Normal None, encoded [job vf; job baseVf] fs2 w0)
           | (Some e2, fs2) =>
               (Throw (RenderError e2), encoded [job vf; job baseVf] fs2 w0)
           end
       end
  /\ (forall audioPath segmentPath inputPath isVideo (w1 : World Media),
        let job1 := fun filterChain =>
          RenderSegment inputPath isVideo audioPath
            (outputOptions numberToString effectiveDuration filterChain)
            segmentPath in
        tryRunSegment (useCaptions true (captionForSceneOf captionTexts i scene))
          baseVf
          (fun filterChain =>
             runSegment numberToString renderRun effectiveDuration audioPath
               segmentPath filterChain inputPath isVideo) vf w1
        = match renderRun (job1 vf) (files w1) with
          | (None, fs1) => (Normal tt, encoded [job1 vf] fs1 w1)
          | (Some e1, fs1) =>
              match renderRun (job1 baseVf) fs1 with
              | (None, fs2) => (Normal tt, encoded [job1 vf; job1 baseVf] fs2 w1)
              | (Some e2, fs2) =>
                  (Throw (RenderError e2), encoded [job1 vf; job1 baseVf] fs2 w1)
              end
          end).
Proof.
  intros [Hc1 Hc2] Hne Hdir effectiveDuration baseVf vf job w0.
  pose proof (useCaptions_true true _ eq_refl Hne) as Huse.
  split; [exact (vf_extends_base numberToString true _ effectiveDuration Huse)|].
  assert (Hw0 : w0
                = {| files :=
                       <[tmpDir := <[inputName i scene :=
                                       Base64Decoded
                                         (default [] (if present (imageBase64 scene)
                                                      then imageBase64 scene
                                                      else videoBase64 scene))]>
                                    (<[sceneFile "scene-" i ".audio" :=
                                         Base64Decoded (audioBase64 scene)]> entries)]>
                         (<[tmpDir := <[sceneFile "scene-" i ".audio" :=
                                          Base64Decoded (audioBase64 scene)]> entries]>
                            (files w));
                     events := events w
                               ++ [WriteFile tmpDir (sceneFile "scene-" i ".audio");
                                   WriteFile tmpDir (inputName i scene)];
                     refuses := refuses w |}).
  { unfold w0, inputsWritten, bind, writeFileSync, record.
    rewrite Hdir. cbn [files events refuses snd]. unfold Files in *.
    rewrite lookup_insert_eq. cbn [snd]. rewrite <- app_assoc. reflexivity. }
  split; [rewrite Hw0; reflexivity|].
  split; [|intros audioPath segmentPath inputPath isVideo w1 job1;
           now apply tryRunSegment_runs].
  unfold processScene. rewrite Hc1, Hc2.
  fold effectiveDuration baseVf vf.
  pose proof (tryRunSegment_runs numberToString renderRun
                (captionForSceneOf captionTexts i scene) effectiveDuration
                (pathJoin tmpDir (sceneFile "scene-" i ".audio"))
                (pathJoin tmpDir (sceneFile "segment-" i ".mp4"))
                (pathJoin tmpDir (inputName i scene))
                (negb (present (imageBase64 scene))) w0 Hne) as Htry.
  cbv zeta in Htry. fold effectiveDuration baseVf vf in Htry.
  change (fun filterChain =>
            RenderSegment (pathJoin tmpDir (inputName i scene))
              (negb (present (imageBase64 scene)))
              (pathJoin tmpDir (sceneFile "scene-" i ".audio"))
              (outputOptions numberToString effectiveDuration filterChain)
              (pathJoin tmpDir (sceneFile "segment-" i ".mp4")))
    with job in Htry.
  unfold bind at 1. unfold writeFileSync at 1. rewrite Hdir.
  unfold bind at 1.
  assert (Hinner :
    (if present (imageBase64 scene)
     then bind (writeFileSync tmpDir (sceneFile "scene-" i ".png")
                  (Base64Decoded (default [] (imageBase64 scene))))
            (fun _ =>
               tryRunSegment (useCaptions true (captionForSceneOf captionTexts i scene))
                 baseVf
                 (fun filterChain =>
                    runSegment numberToString renderRun effectiveDuration
                      (pathJoin tmpDir (sceneFile "scene-" i ".audio"))
                      (pathJoin tmpDir (sceneFile "segment-" i ".mp4")) filterChain
                      (pathJoin tmpDir (sceneFile "scene-" i ".png")) false) vf)
     else bind (writeFileSync tmpDir (sceneFile "scene-" i ".mp4")
                  (Base64Decoded (default [] (videoBase64 scene))))
            (fun _ =>
               tryRunSegment (useCaptions true (captionForSceneOf captionTexts i scene))
                 baseVf
                 (fun filterChain =>
                    runSegment numberToString renderRun effectiveDuration
                      (pathJoin tmpDir (sceneFile "scene-" i ".audio"))
                      (pathJoin tmpDir (sceneFile "segment-" i ".mp4")) filterChain
                      (pathJoin tmpDir (sceneFile "scene-" i ".mp4")) true) vf))
      (record (WriteFile tmpDir (sceneFile "scene-" i ".audio"))
         {| files := <[tmpDir := <[sceneFile "scene-" i ".audio" :=
                                     Base64Decoded (audioBase64 scene)]> entries]>
                       (files w);
            events := events w; refuses := refuses w |})
    = tryRunSegment (useCaptions true (captionForSceneOf captionTexts i scene))
        baseVf
        (fun filterChain =>
           runSegment numberToString renderRun effectiveDuration
             (pathJoin tmpDir (sceneFile "scene-" i ".audio"))
             (pathJoin tmpDir (sceneFile "segment-" i ".mp4")) filterChain
             (pathJoin tmpDir (inputName i scene))
             (negb (present (imageBase64 scene)))) vf w0).
  { rewrite Hw0. unfold inputName.
    destruct (present (imageBase64 scene)); unfold bind, writeFileSync, record;
      cbn [files events refuses negb]; unfold Files in *;
      rewrite lookup_insert_eq, <- app_assoc; reflexivity. }
  rewrite Hinner, Htry.
  destruct (renderRun (job vf) (files w0)) as [[e1|] fs1]; [|reflexivity].
  destruct (renderRun (job baseVf) fs1) as [[e2|] fs2]; reflexivity.
Qed.

(** The asset with its narration, an encoder that fails on the chains with
    a text overlay: the encoder is run twice, and the scene is done. *)
Lemma caption_render_fallback_witness :
  passesChecks narratedAsset
  /\ captionForSceneOf [captionText (narration narratedAsset)] 0 narratedAsset <> []
  /\ files dirMade !! tmpDir1 = Some ∅
  /\ (let vf := vfOf noPrinting true
                  (captionForSceneOf [captionText (narration narratedAsset)] 0
                     narratedAsset)
                  (mathMax (durationSeconds narratedAsset) MIN_SCENE_DURATION) in
      let baseVf := baseVfOf noPrinting
                      (mathMax (durationSeconds narratedAsset) MIN_SCENE_DURATION) in
      let job := segmentJob noPrinting tmpDir1 0 narratedAsset in
      renderFailsOnCaptions (job vf) (files (inputsWritten nat tmpDir1 0 narratedAsset dirMade))
      = (Some 1, files (inputsWritten nat tmpDir1 0 narratedAsset dirMade))
      /\ processScene noPrinting renderFailsOnCaptions tmpDir1 true
           [captionText (narration narratedAsset)] 0 narratedAsset dirMade
         = (Normal None,
            encoded [job vf; job baseVf]
              (files (inputsWritten nat tmpDir1 0 narratedAsset dirMade))
              (inputsWritten nat tmpDir1 0 narratedAsset dirMade))).
Proof.
  assert (H1 : passesChecks narratedAsset) by (split; reflexivity).
  assert (H2 : captionForSceneOf [captionText (narration narratedAsset)] 0
                 narratedAsset <> []) by (vm_compute; discriminate).
  assert (H3 : files dirMade !! tmpDir1 = Some ∅) by reflexivity.
  split; [exact H1|]. split; [exact H2|]. split; [exact H3|].
  destruct (caption_render_fallback unit nat noPrinting renderFailsOnCaptions
              tmpDir1 [captionText (narration narratedAsset)] 0 narratedAsset
              dirMade ∅ H1 H2 H3) as (_ & _ & Hrun & _).
  cbv zeta in *.
  assert (Hfail : renderFailsOnCaptions
                    (segmentJob noPrinting tmpDir1 0 narratedAsset
                       (vfOf noPrinting true
                          (captionForSceneOf [captionText (narration narratedAsset)] 0
                             narratedAsset)
                          (mathMax (durationSeconds narratedAsset) MIN_SCENE_DURATION)))
                    (files (inputsWritten nat tmpDir1 0 narratedAsset dirMade))
                  = (Some 1, files (inputsWritten nat tmpDir1 0 narratedAsset dirMade)))
    by (vm_compute; reflexivity).
  split; [exact Hfail|].
  rewrite Hrun, Hfail. reflexivity.
Defined.

(** C2 (amended).  A request refused for its announced size is answered
    413 with nothing done to the file system.  A request that passes the
    size check and whose body fails the schema (too many scenes, a scene of
    the wrong shape, a duration that is not positive, ...) is answered 400
    after [mkdirSync] on the temp directory at the start of the request and
    the cleanup at its end: no file is written and the encoder is not run;
    besides making the directory the handler only unlinks files of that
    directory, removes it, or logs a cleanup error, and no other directory
    is touched.  When the directory did not exist and the file system lets
    it be listed and removed, the file system ends as it started; when the
    file system refuses nothing to the cleanup, a directory of that name
    that existed before is gone with its files after the request; and the
    directory is still there after the request only when a step of the
    cleanup was refused, and the error was then logged.  Every
    answer 400 of the handler is of that kind (the checks inside the scene
    loop never fire once the schema has passed). *)
Theorem validation_failure_writes_no_file {Media FfErr : Type}
    (numberToString : float -> jsstring)
    (renderRun : Job -> Files Media -> option FfErr * Files Media)
    (concatRun : Job -> Files Media -> Timeout.Event unit FfErr * Files Media)
    (tmpDir : jsstring) (request : Request) (w : World Media) :
  let run :=
    handleAssembleVideo numberToString renderRun concatRun tmpDir request w in
  (bodyTooLarge (contentLength request) = true ->
   run = (Normal (errorResponse 413 (str "Request body too large") BAD_REQUEST None), w))
  /\ (bodyTooLarge (contentLength request) = false ->
      forall body,
        json request = Some body -> safeParse body = None ->
        run = (Normal validationResponse,
               cleanup tmpDir (snd (mkdirSync (FfErr := FfErr) tmpDir w)))
        /\ (exists evs,
              events run.2 = events w ++ Mkdir tmpDir :: evs
              /\ Forall (isCleanupEvent tmpDir) evs)
        /\ (forall d, d <> tmpDir -> files run.2 !! d = files w !! d)
        /\ (files w !! tmpDir = None ->
            refuses w (Readdir tmpDir) = false ->
            refuses w (RmdirOf tmpDir) = false ->
            run.2 = {| files := files w;
                       events := events w ++ [Mkdir tmpDir; Rmdir tmpDir];
                       refuses := refuses w |})
        /\ (cleanupAllowed tmpDir w -> files run.2 = delete tmpDir (files w))
        /\ (files run.2 !! tmpDir = None
            \/ (exists left_, files run.2 !! tmpDir = Some left_)
                /\ list.last (events run.2)
                   = Some (ConsoleError (str "Cleanup error:"))
                /\ ~ cleanupAllowed tmpDir w))
  /\ (forall response w',
        run = (Normal response, w') ->
        status response = 400 ->
        response = validationResponse
        /\ w' = cleanup tmpDir (snd (mkdirSync (FfErr := FfErr) tmpDir w))
        /\ exists body, json request = Some body /\ safeParse body = None).
Proof.
  intros run. split; [|split].
  - intros H. unfold run, handleAssembleVideo. rewrite H. reflexivity.
  - intros Hsize body Hjson Hparse.
    pose proof (schema_failure_run numberToString renderRun concatRun tmpDir
                  request body w Hsize Hjson Hparse) as Hrun.
    fold run in Hrun. split; [exact Hrun|]. rewrite Hrun. cbn [snd].
    split; [|split; [|split; [|split]]].
    + destruct (cleanup_events tmpDir (snd (mkdirSync (FfErr := FfErr) tmpDir w)))
        as (evs & Hevs & Hall).
      exists evs. split; [|exact Hall]. rewrite Hevs.
      cbn [mkdirSync snd record events]. now rewrite <- app_assoc.
    + intros d Hd. rewrite cleanup_other by exact Hd.
      cbn [mkdirSync snd record files]. destruct (files w !! tmpDir); [reflexivity|].
      unfold Files in *. now rewrite lookup_insert_ne.
    + intros Hdir Hread Hrmdir. now apply mkdir_cleanup_fresh.
    + intros Hallowed. rewrite cleanup_allowed by exact Hallowed.
      cbn [mkdirSync snd record files]. destruct (files w !! tmpDir) eqn:Hdir;
        [reflexivity|]. unfold Files in *. now rewrite delete_insert_eq.
    + exact (cleanup_outcome tmpDir (snd (mkdirSync (FfErr := FfErr) tmpDir w))).
  - intros response w' Hrun Hs.
    destruct (bodyTooLarge (contentLength request)) eqn:Hsize.
    + unfold run, handleAssembleVideo in Hrun. rewrite Hsize in Hrun.
      injection Hrun as <- _. discriminate.
    + assert (Hbody : exists body, json request = Some body /\ safeParse body = None).
      { unfold run, handleAssembleVideo in Hrun. rewrite Hsize in Hrun.
        unfold bind at 1 in Hrun. cbn [mkdirSync] in Hrun. unfold finally_ in Hrun.
        destruct (assemble numberToString renderRun concatRun tmpDir request _)
          as [r w1] eqn:Ha.
        injection Hrun as -> _. eapply assemble_400; eassumption. }
      destruct Hbody as (body & Hjson & Hparse).
      pose proof (schema_failure_run numberToString renderRun concatRun tmpDir
                    request body w Hsize Hjson Hparse) as Hrun'.
      fold run in Hrun'. rewrite Hrun' in Hrun.
      injection Hrun as <- <-. split; [reflexivity|]. split; [reflexivity|].
      now exists body.
Qed.

Lemma validation_failure_writes_no_file_witness :
  bodyTooLarge (contentLength elevenScenes) = false
  /\ safeParse (JObject [(str "scenes", JArray (replicate 11 sceneJson))]) = None
  /\ files emptyWorld !! tmpDir1 = None
  /\ handleAssembleVideo noPrinting renderOk concatOk tmpDir1 elevenScenes emptyWorld
     = (Normal validationResponse,
        {| files := files emptyWorld;
           events := events emptyWorld ++ [Mkdir tmpDir1; Rmdir tmpDir1];
           refuses := refuses emptyWorld |}).
Proof.
  assert (H1 : bodyTooLarge (contentLength elevenScenes) = false) by reflexivity.
  assert (H2 : safeParse (JObject [(str "scenes", JArray (replicate 11 sceneJson))]) = None)
    by (vm_compute; reflexivity).
  assert (H3 : files emptyWorld !! tmpDir1 = None) by reflexivity.
  split; [exact H1|]. split; [exact H2|]. split; [exact H3|].
  destruct (proj1 (proj2 (validation_failure_writes_no_file noPrinting renderOk
                            concatOk tmpDir1 elevenScenes emptyWorld))
              H1 _ eq_refl H2) as (Hrun & _ & _ & Hfresh & _ & _).
  cbv zeta in Hrun, Hfresh. rewrite <- (Hfresh H3 eq_refl eq_refl).
  rewrite Hrun. reflexivity.
Defined.

(** C2, as stated, fails: a request of eleven scenes is refused by the
    schema, and by then the temp directory has been created (and is removed
    by the cleanup afterwards). *)
Lemma eleven_scenes_make_the_directory :
  length (replicate 11 sceneJson) = S MAX_SCENES
  /\ events (snd (handleAssembleVideo noPrinting renderOk concatOk tmpDir1
                    elevenScenes emptyWorld))
     = [Mkdir tmpDir1; Rmdir tmpDir1]
  /\ fst (handleAssembleVideo noPrinting renderOk concatOk tmpDir1
            elevenScenes emptyWorld)
     = Normal validationResponse.
Proof.
  split; [reflexivity|]. split; vm_compute; reflexivity.
Qed.

(** C10.  [MAX_ASSEMBLE_BODY_BYTES] is 50 MB.  The handler answers 413
    exactly when the request carries a Content-Length header whose
    [parseInt] value exceeds it, and then it is the "Request body too large"
    answer, given before anything else is done.  A request without the
    header goes on to the temp directory, the parsing of the body and the
    schema: a body that is not JSON makes the handler throw, a body that
    fails the schema is answered by the validation response. *)
Theorem body_size_rejection {Media FfErr : Type}
    (numberToString : float -> jsstring)
    (renderRun : Job -> Files Media -> option FfErr * Files Media)
    (concatRun : Job -> Files Media -> Timeout.Event unit FfErr * Files Media)
    (tmpDir : jsstring) (request : Request) (w : World Media) :
  let run := handleAssembleVideo numberToString renderRun concatRun tmpDir request w in
  MAX_ASSEMBLE_BODY_BYTES = 52428800%Z
  /\ ((exists response, fst run = Normal response /\ status response = 413)
      <-> exists s n, contentLength request = Some s /\ parseInt10 s = Some n
                      /\ (MAX_ASSEMBLE_BODY_BYTES < n)%Z)
  /\ (forall response,
        fst run = Normal response -> status response = 413 ->
        run = (Normal (errorResponse 413 (str "Request body too large")
                         BAD_REQUEST None), w))
  /\ (contentLength request = None ->
      run = finally_ (assemble numberToString renderRun concatRun tmpDir request)
              (cleanup tmpDir) (snd (mkdirSync (FfErr := FfErr) tmpDir w))
      /\ (json request = None -> fst run = Throw BodyNotJson)
      /\ (forall body, json request = Some body -> safeParse body = None ->
            fst run = Normal validationResponse)).
Proof.
  intros run.
  assert (Hpass : bodyTooLarge (contentLength request) = false ->
            run = finally_ (assemble numberToString renderRun concatRun tmpDir request)
                    (cleanup tmpDir) (snd (mkdirSync (FfErr := FfErr) tmpDir w))).
  { intros H. unfold run, handleAssembleVideo. rewrite H. reflexivity. }
  assert (Hnot413 : bodyTooLarge (contentLength request) = false ->
            forall response, fst run = Normal response -> status response <> 413).
  { intros H response Hr. rewrite (Hpass H) in Hr. unfold finally_ in Hr.
    destruct (assemble numberToString renderRun concatRun tmpDir request
                (snd (mkdirSync tmpDir w))) as [r w1] eqn:Ha.
    simpl in Hr. subst r. apply assemble_status in Ha as [-> | ->]; discriminate. }
  split; [reflexivity|]. split; [|split].
  - rewrite <- bodyTooLarge_iff. split.
    + intros (response & Hr & Hs).
      destruct (bodyTooLarge (contentLength request)) eqn:Hb; [reflexivity|].
      exfalso. eapply Hnot413; eauto.
    + intros Hb. unfold run, handleAssembleVideo. rewrite Hb.
      eexists. split; reflexivity.
  - intros response Hr Hs.
    destruct (bodyTooLarge (contentLength request)) eqn:Hb.
    + unfold run, handleAssembleVideo. rewrite Hb. reflexivity.
    + exfalso. eapply Hnot413; eauto.
  - intros Hnone.
    assert (Hb : bodyTooLarge (contentLength request) = false) by now rewrite Hnone.
    split; [exact (Hpass Hb)|]. rewrite (Hpass Hb). split.
    + intros Hj. unfold finally_, assemble, bind. rewrite Hj. reflexivity.
    + intros body Hj Hp. unfold finally_, assemble, bind. rewrite Hj. simpl.
      rewrite Hp. reflexivity.
Qed.

Lemma body_size_rejection_witness :
  contentLength elevenScenes = None
  /\ fst (handleAssembleVideo noPrinting renderOk concatOk tmpDir1 elevenScenes
            emptyWorld)
     = Normal validationResponse.
Proof.
  split; [reflexivity|].
  destruct (body_size_rejection noPrinting renderOk concatOk tmpDir1 elevenScenes
              emptyWorld) as (_ & _ & _ & Hgo).
  destruct (Hgo eq_refl) as (_ & _ & Hschema).
  apply (Hschema (JObject [(str "scenes", JArray (replicate 11 sceneJson))])).
  - reflexivity.
  - vm_compute. reflexivity.
Defined.

(** A request that announces one byte above the limit is refused with
    nothing done; the same request without its header is assembled. *)
Example oversized_is_refused :
  status_of (fst (handleAssembleVideo noPrinting renderOk concatOk tmpDir1
                    oversized emptyWorld)) = 413
  /\ events (snd (handleAssembleVideo noPrinting renderOk concatOk tmpDir1
                    oversized emptyWorld)) = []
  /\ status_of (fst (handleAssembleVideo noPrinting renderOk concatOk tmpDir1
                       {| contentLength := None; json := json oversized |}
                       emptyWorld)) = 200.
Proof. repeat split; vm_compute; reflexivity. Qed.

End AssembleClaims.

(** ** Order on the doubles *)

Module FloatOrder.

Lemma SFcompare_antisym (x y : spec_float) :
  SFcompare y x = option_map CompOpp (SFcompare x y).
Proof.
  destruct x as [s1|s1| |s1 m1 e1], y as [s2|s2| |s2 m2 e2]; simpl;
    try reflexivity; try (destruct s1; reflexivity); try (destruct s2; reflexivity);
    try (destruct s1, s2; reflexivity).
  f_equal. rewrite (Z.compare_antisym e1 e2).
  destruct s1, s2; try reflexivity; destruct (e1 ?= e2)%Z; simpl; try reflexivity.
  - f_equal. exact (eq_sym (Pos.compare_cont_antisym m1 m2 Eq)).
  - exact (eq_sym (Pos.compare_cont_antisym m1 m2 Eq)).
Qed.

Lemma notNaN_spec (x : float) :
  isNaN x = false -> Prim2SF x <> S754_nan.
Proof.
  unfold isNaN. rewrite eqb_spec. intros H E. rewrite E in H. discriminate.
Qed.

Lemma compare_defined (x y : spec_float) :
  x <> S754_nan -> y <> S754_nan -> exists c, SFcompare x y = Some c.
Proof.
  destruct x as [s1|s1| |s1 m1 e1], y as [s2|s2| |s2 m2 e2]; simpl;
    intros Hx Hy; try congruence; eauto.
Qed.

(** A number that is not NaN is at most itself. *)
Lemma leb_refl (x : float) : isNaN x = false -> PrimFloat.leb x x = true.
Proof.
  unfold isNaN. rewrite eqb_spec, leb_spec. unfold SFeqb, SFleb.
  destruct (SFcompare _ _) as [[]|]; simpl; congruence.
Qed.

Lemma ltb_leb (x y : float) :
  PrimFloat.ltb x y = true -> PrimFloat.leb x y = true.
Proof.
  rewrite ltb_spec, leb_spec. unfold SFltb, SFleb.
  destruct (SFcompare _ _) as [[]|]; simpl; congruence.
Qed.

(** The order is total on the numbers that are not NaN. *)
Lemma not_ltb_leb (x y : float) :
  isNaN x = false -> isNaN y = false ->
  PrimFloat.ltb x y = false -> PrimFloat.leb y x = true.
Proof.
  intros Hx Hy. apply notNaN_spec in Hx, Hy.
  rewrite ltb_spec, leb_spec. unfold SFltb, SFleb.
  rewrite (SFcompare_antisym (Prim2SF x) (Prim2SF y)).
  destruct (compare_defined _ _ Hx Hy) as [c ->]. destruct c; simpl; congruence.
Qed.

Lemma ltb_notNaN (x y : float) :
  PrimFloat.ltb x y = true -> isNaN x = false /\ isNaN y = false.
Proof.
  unfold isNaN. rewrite ltb_spec, !eqb_spec. unfold SFltb, SFeqb.
  destruct (Prim2SF x) as [s1|s1| |s1 m1 e1], (Prim2SF y) as [s2|s2| |s2 m2 e2];
    simpl; try discriminate; intros _;
    rewrite ?Z.compare_refl, ?Pos.compare_cont_refl;
    try destruct s1; try destruct s2; simpl; auto.
Qed.

End FloatOrder.

Module CaptionExtras.

(** *** White space and [trim] *)

Lemma trimStart_split (s : jsstring) :
  exists ws, s = ws ++ trimStart s /\ Forall (fun c => isWhiteSpace c = true) ws.
Proof.
  induction s as [|c r (ws & E & Hws)]; simpl.
  - exists []. split; [reflexivity | constructor].
  - destruct (isWhiteSpace c) eqn:Hc.
    + exists (c :: ws). split; [simpl; now rewrite <- E | now constructor].
    + exists []. split; [reflexivity | constructor].
Qed.

Lemma trimStart_head (s : jsstring) (c : N) (r : jsstring) :
  trimStart s = c :: r -> isWhiteSpace c = false.
Proof.
  induction s as [|d s IH]; simpl; [discriminate|].
  destruct (isWhiteSpace d) eqn:Hd; [exact IH|]. now intros [= <- _].
Qed.

Lemma trimStart_fixed (s : jsstring) :
  match s with [] => True | c :: _ => isWhiteSpace c = false end ->
  trimStart s = s.
Proof. destruct s as [|c r]; simpl; [reflexivity|]. now intros ->. Qed.

Lemma trimStart_idem (s : jsstring) : trimStart (trimStart s) = trimStart s.
Proof.
  apply trimStart_fixed. destruct (trimStart s) as [|c r] eqn:E; [exact I|].
  eapply trimStart_head. exact E.
Qed.

Lemma trimEnd_split (s : jsstring) :
  exists ws, s = trimEnd s ++ ws /\ Forall (fun c => isWhiteSpace c = true) ws.
Proof.
  destruct (trimStart_split (rev s)) as (ws & E & Hws).
  exists (rev ws). split.
  - unfold trimEnd. rewrite <- rev_app_distr, <- E. now rewrite rev_involutive.
  - now apply Forall_rev.
Qed.

Lemma trimEnd_idem (s : jsstring) : trimEnd (trimEnd s) = trimEnd s.
Proof. unfold trimEnd. now rewrite rev_involutive, trimStart_idem. Qed.

(** Trimming the end keeps a trimmed start. *)
Lemma trimEnd_keeps_head (t : jsstring) :
  trimStart t = t -> trimStart (trimEnd t) = trimEnd t.
Proof.
  intros Ht. apply trimStart_fixed.
  destruct (trimEnd t) as [|c r] eqn:E; [exact I|].
  destruct (trimEnd_split t) as (ws & Et & _). rewrite E in Et.
  apply (trimStart_head t c (r ++ ws)). rewrite Ht. exact Et.
Qed.

Lemma trim_idem (s : jsstring) : trim (trim s) = trim s.
Proof.
  unfold trim. rewrite trimEnd_keeps_head by apply trimStart_idem.
  apply trimEnd_idem.
Qed.

(** A text whose trim is not empty holds a code unit that is not white
    space, at the head of its trim. *)
Lemma trim_head (s : jsstring) (c : N) (r : jsstring) :
  trim s = c :: r -> isWhiteSpace c = false.
Proof.
  unfold trim. intros E.
  pose proof (trimEnd_keeps_head (trimStart s) (trimStart_idem s)) as H.
  rewrite E in H. eapply trimStart_head. exact H.
Qed.

Lemma trim_part (s : jsstring) : exists a b, s = a ++ trim s ++ b.
Proof.
  destruct (trimStart_split s) as (a & Ea & _).
  destruct (trimEnd_split (trimStart s)) as (b & Eb & _).
  exists a, b. unfold trim. now rewrite <- Eb.
Qed.

Lemma trim_blank (s : jsstring) :
  trim s = [] -> Forall (fun c => isWhiteSpace c = true) s.
Proof.
  intros E.
  destruct (trimStart_split s) as (a & Ea & Ha).
  destruct (trimEnd_split (trimStart s)) as (b & Eb & Hb).
  unfold trim in E. rewrite E in Eb. simpl in Eb. rewrite Eb in Ea.
  rewrite Ea. apply Forall_app. now split.
Qed.

(** *** Words *)

Lemma splitSpace_app (a b : jsstring) :
  splitSpace (a ++ SPACE :: b) = splitSpace a ++ splitSpace b.
Proof.
  induction a as [|c a IH]; simpl; [reflexivity|].
  destruct (c =? SPACE)%N; [now rewrite IH|].
  rewrite IH. pose proof (CaptionFacts.splitSpace_nonempty a) as Hn.
  destruct (splitSpace a) as [|w ws]; [simpl in Hn; lia | reflexivity].
Qed.

Lemma words_app (a b : jsstring) :
  words (a ++ SPACE :: b) = words a ++ words b.
Proof. unfold words. now rewrite splitSpace_app, filter_app. Qed.

Lemma words_space (s : jsstring) : words (SPACE :: s) = words s.
Proof. apply (words_app [] s). Qed.

Lemma words_spaces_after (s ws : jsstring) :
  Forall (fun c => c = SPACE) ws -> words (s ++ ws) = words s.
Proof.
  intros H. revert s. induction H as [|c ws -> _ IH]; intros s.
  - now rewrite app_nil_r.
  - rewrite words_app. change (words s ++ words ws) with (words s ++ words ([] ++ ws)).
    rewrite IH. apply app_nil_r.
Qed.

Lemma words_spaces_before (ws s : jsstring) :
  Forall (fun c => c = SPACE) ws -> words (ws ++ s) = words s.
Proof.
  induction 1 as [|c ws -> _ IH]; [reflexivity|].
  simpl. now rewrite words_space.
Qed.

Lemma onlySpaces_app (a b : jsstring) :
  onlySpaces (a ++ b) <-> onlySpaces a /\ onlySpaces b.
Proof. apply Forall_app. Qed.

Lemma white_is_space (ws : jsstring) :
  onlySpaces ws -> Forall (fun c => isWhiteSpace c = true) ws ->
  Forall (fun c => c = SPACE) ws.
Proof.
  intros H1 H2. induction ws as [|c ws IH]; constructor.
  - apply (Forall_inv H1). exact (Forall_inv H2).
  - apply IH; eapply Forall_inv_tail; eassumption.
Qed.

(** Trimming loses no word, when the only white space is the space. *)
Lemma words_trim (s : jsstring) : onlySpaces s -> words (trim s) = words s.
Proof.
  intros Hs.
  destruct (trimStart_split s) as (a & Ea & Ha).
  destruct (trimEnd_split (trimStart s)) as (b & Eb & Hb).
  assert (E : s = a ++ trim s ++ b) by (unfold trim; now rewrite <- Eb).
  rewrite E in Hs. apply onlySpaces_app in Hs as [Hsa Hs].
  apply onlySpaces_app in Hs as [_ Hsb].
  rewrite E at 2.
  rewrite words_spaces_before by now apply white_is_space.
  rewrite words_spaces_after by now apply white_is_space.
  reflexivity.
Qed.

(** A piece of [split(' ')] holds no space, and is a part of the text. *)
Lemma splitSpace_no_space (s w : jsstring) :
  In w (splitSpace s) -> ~ In SPACE w.
Proof.
  revert w. induction s as [|c r IH]; intros w; simpl.
  - intros [<-|[]]. tauto.
  - destruct (N.eqb_spec c SPACE) as [->|Hc].
    + intros [<-|H]; [tauto | now apply IH].
    + pose proof (CaptionFacts.splitSpace_nonempty r) as Hn.
      destruct (splitSpace r) as [|w0 ws]; [simpl in Hn; lia|].
      intros [<-|H].
      * intros [E|H]; [congruence|]. apply (IH w0); [now left | exact H].
      * apply IH. now right.
Qed.

Lemma splitSpace_Forall (P : N -> Prop) (s w : jsstring) :
  Forall P s -> In w (splitSpace s) -> Forall P w.
Proof.
  intros Hs. revert w. induction Hs as [|c r Hc Hr IH]; intros w; simpl.
  - intros [<-|[]]. constructor.
  - destruct (c =? SPACE)%N.
    + intros [<-|H]; [constructor | now apply IH].
    + pose proof (CaptionFacts.splitSpace_nonempty r) as Hn.
      destruct (splitSpace r) as [|w0 ws]; [simpl in Hn; lia|].
      intros [<-|H].
      * constructor; [exact Hc | apply IH; now left].
      * apply IH. now right.
Qed.

(** A string without a space is its own single piece. *)
Lemma splitSpace_word (w : jsstring) :
  ~ In SPACE w -> splitSpace w = [w].
Proof.
  induction w as [|c w IH]; intros H; simpl; [reflexivity|].
  destruct (N.eqb_spec c SPACE) as [->|_]; [exfalso; apply H; now left|].
  rewrite IH; [reflexivity|]. intros Hin. apply H. now right.
Qed.

Lemma words_word (w : jsstring) :
  ~ In SPACE w -> words w = List.filter truthy [w].
Proof. intros H. unfold words. now rewrite splitSpace_word. Qed.

(** A word of a text whose only white space is the space holds no white
    space at all. *)
Lemma word_no_white (s w : jsstring) :
  onlySpaces s -> In w (splitSpace s) ->
  Forall (fun c => isWhiteSpace c = false) w.
Proof.
  intros Hs Hw. pose proof (splitSpace_no_space s w Hw) as Hno.
  pose proof (splitSpace_Forall _ s w Hs Hw) as Hall.
  apply Forall_forall. intros c Hc.
  destruct (isWhiteSpace c) eqn:E; [|reflexivity].
  rewrite Forall_forall in Hall. rewrite (Hall c Hc E) in Hc. contradiction.
Qed.

(** *** The segmenter keeps the words *)

Lemma wordsOf_app (a b : list jsstring) : wordsOf (a ++ b) = wordsOf a ++ wordsOf b.
Proof. unfold wordsOf. now rewrite map_app, concat_app. Qed.

Lemma wordsOf_push (segs : list jsstring) (s : jsstring) :
  wordsOf (segs ++ [s]) = wordsOf segs ++ words s.
Proof. rewrite wordsOf_app. unfold wordsOf. simpl. now rewrite app_nil_r. Qed.

Lemma no_white_onlySpaces (w : jsstring) :
  Forall (fun c => isWhiteSpace c = false) w -> onlySpaces w.
Proof. apply Forall_impl. intros c H1 H2. congruence. Qed.

Lemma no_white_no_space (w : jsstring) :
  Forall (fun c => isWhiteSpace c = false) w -> ~ In SPACE w.
Proof.
  intros H Hin. rewrite Forall_forall in H. apply H in Hin. discriminate.
Qed.

Lemma truthy_false (s : jsstring) : truthy s = false -> s = [].
Proof. destruct s; [reflexivity | discriminate]. Qed.

(** The word loop neither loses nor repeats a word: what it has pushed
    and what it still holds are the words it was given. *)
Lemma packWords_words (ws : list jsstring) (chunk : jsstring)
    (segs : list jsstring) :
  Forall (fun w => Forall (fun c => isWhiteSpace c = false) w) ws ->
  onlySpaces chunk ->
  onlySpaces (packWords ws chunk segs).1
  /\ wordsOf (packWords ws chunk segs).2 ++ words (packWords ws chunk segs).1
     = wordsOf segs ++ words chunk ++ List.filter truthy ws.
Proof.
  intros Hws. revert chunk segs.
  induction Hws as [|word rest Hword Hrest IH]; intros chunk segs Hchunk.
  - simpl. split; [exact Hchunk|]. now rewrite app_nil_r.
  - assert (Hw : words word = if truthy word then [word] else []).
    { rewrite words_word by now apply no_white_no_space. reflexivity. }
    assert (Hf : List.filter truthy (word :: rest)
                 = (if truthy word then [word] else []) ++ List.filter truthy rest).
    { simpl. destruct (truthy word); reflexivity. }
    rewrite Hf. clear Hf. cbn [packWords app].
    destruct (_ <=? _).
    + destruct (IH (if truthy chunk then chunk ++ SPACE :: word else word) segs)
        as [H1 H2].
      { destruct (truthy chunk); [|now apply no_white_onlySpaces].
        apply onlySpaces_app. split; [exact Hchunk|].
        constructor; [reflexivity | now apply no_white_onlySpaces]. }
      split; [exact H1|]. rewrite H2. f_equal. rewrite app_assoc. f_equal.
      destruct (truthy chunk) eqn:Ht; [now rewrite words_app, Hw|].
      apply truthy_false in Ht. subst. exact Hw.
    + destruct (IH word (if truthy chunk then segs ++ [trim chunk] else segs))
        as [H1 H2]; [now apply no_white_onlySpaces|].
      split; [exact H1|]. rewrite H2, Hw, !app_assoc. do 2 f_equal.
      destruct (truthy chunk) eqn:Ht.
      * rewrite wordsOf_push. now rewrite words_trim.
      * apply truthy_false in Ht. subst. symmetry. apply app_nil_r.
Qed.

Lemma pushChunks_words (text : jsstring) (segs : list jsstring) :
  onlySpaces text ->
  wordsOf (pushChunks text segs) = wordsOf segs ++ words text.
Proof.
  intros Htext. unfold pushChunks.
  destruct (packWords_words (splitSpace text) [] segs) as [H1 H2].
  - apply Forall_forall. intros w Hw. eapply word_no_white; eassumption.
  - constructor.
  - destruct (packWords (splitSpace text) [] segs) as [chunk' segs']. simpl in *.
    change (List.filter truthy (splitSpace text)) with (words text) in H2.
    rewrite <- H2. destruct (truthy chunk') eqn:Ht.
    + rewrite wordsOf_push. now rewrite words_trim.
    + apply truthy_false in Ht. subst. now rewrite app_nil_r.
Qed.

Lemma pushSentence_words (segs : list jsstring) (sentence : jsstring) :
  onlySpaces sentence ->
  wordsOf (pushSentence segs sentence) = wordsOf segs ++ words sentence.
Proof.
  intros Hs. unfold pushSentence. destruct (_ <=? _).
  - rewrite wordsOf_push. now rewrite words_trim.
  - now apply pushChunks_words.
Qed.

Lemma fold_pushSentence_words (sentences segs : list jsstring) :
  Forall onlySpaces sentences ->
  wordsOf (fold_left pushSentence sentences segs)
  = wordsOf segs ++ wordsOf sentences.
Proof.
  intros H. revert segs. induction H as [|s0 sentences Hs _ IH]; intros segs; simpl.
  - now rewrite app_nil_r.
  - rewrite IH, pushSentence_words by exact Hs.
    rewrite <- app_assoc. reflexivity.
Qed.

(** The sentence split cuts between words only. *)
Lemma splitFrom_words (s : jsstring) (inMatch afterEnd : bool) (piece : jsstring) :
  onlySpaces s -> (inMatch = true -> piece = []) ->
  wordsOf (splitFrom inMatch afterEnd piece s) = words (rev piece ++ s).
Proof.
  intros Hs. revert inMatch afterEnd piece.
  induction Hs as [|c r Hc Hr IH]; intros inMatch afterEnd piece Hm; simpl.
  - unfold wordsOf. simpl. now rewrite !app_nil_r.
  - assert (Hkeep : forall e,
               wordsOf (splitFrom false e (c :: piece) r) = words (rev piece ++ c :: r)).
    { intros e. rewrite IH by discriminate. simpl. now rewrite <- app_assoc. }
    destruct inMatch.
    + rewrite (Hm eq_refl) in *. destruct (isWhiteSpace c) eqn:Hw; [|apply Hkeep].
      rewrite (Hc eq_refl). rewrite IH by reflexivity. simpl. now rewrite words_space.
    + destruct (afterEnd && isWhiteSpace c) eqn:Hw; [|apply Hkeep].
      apply andb_true_iff in Hw as [_ Hw]. rewrite (Hc Hw).
      change (wordsOf (rev piece :: splitFrom true false [] r))
        with (words (rev piece) ++ wordsOf (splitFrom true false [] r)).
      rewrite IH by reflexivity. simpl. now rewrite words_app.
Qed.

Lemma blank_no_words (s : jsstring) :
  onlySpaces s -> trim s = [] -> words s = [].
Proof. intros Hs E. rewrite <- words_trim by exact Hs. now rewrite E. Qed.

Lemma sentencesOf_words (text : jsstring) :
  onlySpaces text -> wordsOf (sentencesOf text) = words text.
Proof.
  intros Ht. unfold sentencesOf, splitSentences.
  assert (Hsplit : wordsOf (splitFrom false false [] text) = words text)
    by (now rewrite splitFrom_words).
  rewrite <- Hsplit. clear Hsplit.
  assert (Hall : Forall onlySpaces (splitFrom false false [] text)).
  { apply Forall_forall. intros p Hp.
    apply CaptionFacts.splitFrom_pieces in Hp as (a & b & E); [|discriminate].
    simpl in E. rewrite E in Ht. apply onlySpaces_app in Ht as [_ Ht].
    now apply onlySpaces_app in Ht as [Ht _]. }
  induction Hall as [|p ps Hp _ IH]; [reflexivity|]. simpl.
  destruct (trim p) as [|c r] eqn:E; simpl.
  - rewrite IH. unfold wordsOf at 2. simpl.
    now rewrite (blank_no_words p Hp E).
  - unfold wordsOf in *. simpl. now rewrite IH.
Qed.

Lemma sentencesOf_onlySpaces (text : jsstring) :
  onlySpaces text -> Forall onlySpaces (sentencesOf text).
Proof.
  intros Ht. apply Forall_forall. intros p Hp.
  apply filter_In in Hp as [Hp _].
  apply CaptionFacts.splitFrom_pieces in Hp as (a & b & E); [|discriminate].
  simpl in E. rewrite E in Ht. apply onlySpaces_app in Ht as [_ Ht].
  now apply onlySpaces_app in Ht as [Ht _].
Qed.

(** X1.  The segmenter neither loses, repeats nor reorders a word: for a
    caption text whose only white space is the space, the words of the
    segments, in order, are the words of the text. *)
Theorem segments_keep_words (captionForScene : jsstring) :
  onlySpaces captionForScene ->
  wordsOf (segments captionForScene) = words captionForScene.
Proof.
  intros Ht. unfold segments.
  pose proof (fold_pushSentence_words (sentencesOf captionForScene) []
                (sentencesOf_onlySpaces _ Ht)) as Hfold.
  rewrite sentencesOf_words in Hfold by exact Ht. simpl in Hfold.
  destruct (length _ =? 0) eqn:E; [|exact Hfold].
  apply Nat.eqb_eq in E. apply length_zero_iff_nil in E. rewrite E.
  now rewrite pushChunks_words.
Qed.

Lemma collapseFrom_onlySpaces (inRun : bool) (s : jsstring) :
  onlySpaces (collapseFrom inRun s).
Proof.
  revert inRun. induction s as [|d s IH]; intros inRun; simpl; [constructor|].
  destruct (isWhiteSpace d) eqn:Hd.
  - destruct inRun; [apply IH|]. constructor; [reflexivity | apply IH].
  - constructor; [congruence | apply IH].
Qed.

(** X4.  The caption text of a scene has at most [MAX_CAPTION_LENGTH] code
    units, holds no NUL, and its only white space is the space: no tab
    and no line terminator reaches the overlay filter.  For a missing
    narration it is empty. *)
Theorem captionText_shape (narration : option jsstring) :
  length (captionText narration) <= MAX_CAPTION_LENGTH
  /\ ~ In 0%N (captionText narration)
  /\ onlySpaces (captionText narration)
  /\ (narration = None -> captionText narration = []).
Proof.
  assert (Hnone : narration = None -> captionText narration = [])
    by (intros ->; reflexivity).
  cut (length (captionText narration) <= MAX_CAPTION_LENGTH
       /\ ~ In 0%N (captionText narration)
       /\ onlySpaces (captionText narration)).
  { intros (H1 & H2 & H3). auto. }
  clear Hnone.
  destruct narration as [n|]; unfold captionText;
    [|split; [simpl; lia | split; [simpl; tauto | constructor]]].
  unfold slice0. split; [apply firstn_le_length|].
  set (t := removeNul (collapseWhiteSpace (trim n))).
  assert (Hnul : ~ In 0%N t).
  { unfold t, removeNul. intros H. apply filter_In in H as [_ H]. discriminate. }
  assert (Hsp : onlySpaces t).
  { unfold t, removeNul, collapseWhiteSpace.
    pose proof (collapseFrom_onlySpaces false (trim n)) as H.
    unfold onlySpaces in *. rewrite Forall_forall in *.
    intros c Hc. apply filter_In in Hc as [Hc _]. now apply H. }
  rewrite <- (firstn_skipn MAX_CAPTION_LENGTH t) in Hnul, Hsp.
  split.
  - intros H. apply Hnul. apply in_or_app. now left.
  - now apply onlySpaces_app in Hsp as [Hsp _].
Qed.

(** *** When the segmenter yields nothing *)

Lemma words_nil_iff (s : jsstring) :
  words s = [] <-> Forall (fun c => c = SPACE) s.
Proof.
  induction s as [|c r IH].
  - split; [constructor | reflexivity].
  - destruct (N.eqb_spec c SPACE) as [->|Hc].
    + rewrite words_space, IH. split; [now constructor | apply Forall_inv_tail].
    + split.
      * unfold words. rewrite CaptionFacts.splitSpace_cons.
        apply N.eqb_neq in Hc. rewrite Hc. simpl. discriminate.
      * intros H. exfalso. apply Hc. exact (Forall_inv H).
Qed.

Lemma no_words_all_empty (ws : list jsstring) :
  List.filter truthy ws = [] -> Forall (fun w => w = []) ws.
Proof.
  induction ws as [|[|c w] ws IH]; simpl; [constructor | | discriminate].
  intros H. constructor; [reflexivity | now apply IH].
Qed.

Lemma packWords_empty_words (ws : list jsstring) (segs : list jsstring) :
  Forall (fun w => w = []) ws -> packWords ws [] segs = ([], segs).
Proof. induction 1 as [|w ws -> _ IH]; simpl; [reflexivity | exact IH]. Qed.

Lemma pushChunks_none (text : jsstring) (segs : list jsstring) :
  words text = [] -> pushChunks text segs = segs.
Proof.
  intros H. unfold pushChunks.
  now rewrite packWords_empty_words by now apply no_words_all_empty.
Qed.

(** The word loop pushes at least once when it is given a word. *)
Lemma packWords_pushes (ws : list jsstring) (chunk : jsstring)
    (segs : list jsstring) :
  length segs <= length (packWords ws chunk segs).2
  /\ (truthy chunk = true \/ List.filter truthy ws <> [] ->
      truthy (packWords ws chunk segs).1 = true
      \/ length segs < length (packWords ws chunk segs).2).
Proof.
  revert chunk segs. induction ws as [|word rest IH]; intros chunk segs.
  - simpl. split; [lia|]. intros [H|H]; [now left | congruence].
  - cbn [packWords]. destruct (_ <=? _).
    + destruct (IH (if truthy chunk then chunk ++ [SPACE] ++ word else word) segs)
        as [H1 H2].
      split; [exact H1|]. intros H. apply H2.
      destruct chunk as [|c chunk]; simpl in *.
      * destruct H as [H|H]; [discriminate|].
        destruct (truthy word); [now left | now right].
      * now left.
    + destruct (IH word (if truthy chunk then segs ++ [trim chunk] else segs))
        as [H1 H2].
      destruct (truthy chunk) eqn:Ht.
      * rewrite length_app in H1. simpl in H1. split; [lia|]. intros _. right. lia.
      * split; [exact H1|]. intros [H|H]; [discriminate|]. apply H2.
        simpl in H. destruct (truthy word); [now left | now right].
Qed.

Lemma pushChunks_grows (text : jsstring) (segs : list jsstring) :
  length segs <= length (pushChunks text segs)
  /\ (words text <> [] -> length segs < length (pushChunks text segs)).
Proof.
  unfold pushChunks.
  destruct (packWords_pushes (splitSpace text) [] segs) as [H1 H2].
  destruct (packWords (splitSpace text) [] segs) as [chunk' segs']. simpl in *.
  destruct (truthy chunk') eqn:Ht.
  - rewrite length_app. simpl. split; lia.
  - split; [exact H1|]. intros H.
    destruct H2 as [H2|H2]; [now right | discriminate | exact H2].
Qed.

Lemma nonblank_has_word (s : jsstring) : trim s <> [] -> words s <> [].
Proof.
  intros Ht Hw. apply words_nil_iff in Hw.
  destruct (trim s) as [|c r] eqn:E; [congruence|].
  pose proof (trim_head s c r E) as Hc.
  destruct (trim_part s) as (a & b & Es). rewrite E in Es.
  rewrite Es in Hw. apply Forall_app in Hw as [_ Hw].
  apply Forall_inv in Hw. subst c. discriminate.
Qed.

Lemma pushSentence_grows (segs : list jsstring) (sentence : jsstring) :
  trim sentence <> [] -> length segs < length (pushSentence segs sentence).
Proof.
  intros H. unfold pushSentence. destruct (_ <=? _).
  - rewrite length_app. simpl. lia.
  - apply pushChunks_grows. now apply nonblank_has_word.
Qed.

Lemma sentencesOf_nonblank (text : jsstring) :
  Forall (fun s => trim s <> []) (sentencesOf text).
Proof.
  apply Forall_forall. intros s H. apply filter_In in H as [_ H].
  destruct (trim s); [discriminate | congruence].
Qed.

Lemma fold_pushSentence_grows (sentences segs : list jsstring) :
  Forall (fun s => trim s <> []) sentences ->
  length segs + length sentences <= length (fold_left pushSentence sentences segs).
Proof.
  intros H. revert segs. induction H as [|s0 sentences Hs _ IH]; intros segs; simpl.
  - lia.
  - specialize (IH (pushSentence segs s0)).
    pose proof (pushSentence_grows segs s0 Hs). lia.
Qed.

Lemma blank_trim (s : jsstring) :
  Forall (fun c => c = SPACE) s -> trim s = [].
Proof.
  intros H. assert (Hs : trimStart s = []).
  { induction H as [|c r -> _ IH]; [reflexivity | exact IH]. }
  unfold trim. now rewrite Hs.
Qed.

Lemma sentencesOf_spaces (text : jsstring) :
  Forall (fun c => c = SPACE) text -> sentencesOf text = [].
Proof.
  intros Ht. unfold sentencesOf, splitSentences.
  assert (Hall : Forall (fun p => trim p = []) (splitFrom false false [] text)).
  { apply Forall_forall. intros p Hp.
    apply CaptionFacts.splitFrom_pieces in Hp as (a & b & E); [|discriminate].
    simpl in E. rewrite E in Ht. apply Forall_app in Ht as [_ Ht].
    apply Forall_app in Ht as [Ht _]. now apply blank_trim. }
  induction Hall as [|p ps Hp _ IH]; [reflexivity|]. simpl. now rewrite Hp.
Qed.

(** X2.  The segmenter yields no segment exactly when the caption text is
    made of spaces only (the empty text included). *)
Theorem segments_empty_iff (captionForScene : jsstring) :
  segments captionForScene = [] <-> Forall (fun c => c = SPACE) captionForScene.
Proof.
  unfold segments. split.
  - intros H. apply words_nil_iff.
    destruct (words captionForScene) as [|w ws] eqn:Hw; [reflexivity|]. exfalso.
    destruct (length _ =? 0) eqn:E.
    + destruct (pushChunks_grows captionForScene
                  (fold_left pushSentence (sentencesOf captionForScene) []))
        as [_ Hgrow].
      rewrite H, Hw in Hgrow. simpl in Hgrow.
      specialize (Hgrow ltac:(discriminate)). lia.
    + rewrite H in E. discriminate.
  - intros H. rewrite (sentencesOf_spaces _ H). simpl.
    apply pushChunks_none. now apply words_nil_iff.
Qed.

(** *** Every segment is trimmed, and none is empty *)

Local Abbreviation headNotWhite :=
  (fun s : jsstring => match s with [] => True | c :: _ => isWhiteSpace c = false end).

Lemma trim_nonempty (c : N) (r : jsstring) :
  isWhiteSpace c = false -> trim (c :: r) <> [].
Proof.
  intros Hc E. unfold trim in E.
  rewrite (trimStart_fixed (c :: r) Hc) in E.
  destruct (trimEnd_split (c :: r)) as (ws & Es & Hws).
  rewrite E in Es. simpl in Es. subst ws.
  apply Forall_inv in Hws. congruence.
Qed.

Lemma packWords_trimmed (ws : list jsstring) (chunk : jsstring)
    (segs : list jsstring) :
  Forall trimmed segs -> Forall trimmed (packWords ws chunk segs).2.
Proof.
  revert chunk segs. induction ws as [|word rest IH]; intros chunk segs Hs;
    [exact Hs|].
  cbn [packWords]. destruct (_ <=? _); apply IH; [exact Hs|].
  destruct (truthy chunk); [|exact Hs].
  apply Forall_app. split; [exact Hs|]. constructor; [apply trim_idem | constructor].
Qed.

Lemma pushChunks_trimmed (text : jsstring) (segs : list jsstring) :
  Forall trimmed segs -> Forall trimmed (pushChunks text segs).
Proof.
  intros Hs. unfold pushChunks.
  pose proof (packWords_trimmed (splitSpace text) [] segs Hs) as H.
  destruct (packWords (splitSpace text) [] segs) as [chunk' segs']. simpl in H.
  destruct (truthy chunk'); [|exact H].
  apply Forall_app. split; [exact H|]. constructor; [apply trim_idem | constructor].
Qed.

Lemma packWords_nonempty (ws : list jsstring) (chunk : jsstring)
    (segs : list jsstring) :
  Forall (fun w => Forall (fun c => isWhiteSpace c = false) w) ws ->
  headNotWhite chunk ->
  Forall (fun seg => seg <> []) segs ->
  headNotWhite (packWords ws chunk segs).1
  /\ Forall (fun seg => seg <> []) (packWords ws chunk segs).2.
Proof.
  intros Hws. revert chunk segs.
  induction Hws as [|word rest Hword _ IH]; intros chunk segs Hc Hs;
    [now split|].
  assert (Hhead : headNotWhite word).
  { destruct word; [exact I | exact (Forall_inv Hword)]. }
  cbn [packWords]. destruct (_ <=? _); apply IH; try assumption.
  - destruct chunk; [exact Hhead | exact Hc].
  - destruct chunk as [|c chunk]; [exact Hs|]. simpl.
    apply Forall_app. split; [exact Hs|].
    constructor; [now apply trim_nonempty | constructor].
Qed.

Lemma pushChunks_nonempty (text : jsstring) (segs : list jsstring) :
  onlySpaces text ->
  Forall (fun seg => seg <> []) segs ->
  Forall (fun seg => seg <> []) (pushChunks text segs).
Proof.
  intros Ht Hs. unfold pushChunks.
  destruct (packWords_nonempty (splitSpace text) [] segs) as [H1 H2];
    [|exact I|exact Hs|].
  { apply Forall_forall. intros w Hw. eapply word_no_white; eassumption. }
  destruct (packWords (splitSpace text) [] segs) as [chunk' segs']. simpl in *.
  destruct chunk' as [|c chunk']; [exact H2|]. simpl.
  apply Forall_app. split; [exact H2|].
  constructor; [now apply trim_nonempty | constructor].
Qed.

(** X3.  Every segment the segmenter yields is trimmed: it neither begins
    nor ends with white space.  When the only white space of the caption
    text is the space (as in every caption text the handler makes), no
    segment is empty. *)
Theorem segments_trimmed (captionForScene : jsstring) :
  Forall trimmed (segments captionForScene)
  /\ (onlySpaces captionForScene ->
      Forall (fun seg => seg <> []) (segments captionForScene)).
Proof.
  unfold segments. split.
  - assert (Hfold : forall sentences segs,
               Forall trimmed segs ->
               Forall trimmed (fold_left pushSentence sentences segs)).
    { induction sentences as [|s0 sentences IH]; intros segs Hs; [exact Hs|].
      simpl. apply IH. unfold pushSentence. destruct (_ <=? _).
      - apply Forall_app. split; [exact Hs|].
        constructor; [apply trim_idem | constructor].
      - now apply pushChunks_trimmed. }
    destruct (length _ =? 0); [apply pushChunks_trimmed|]; apply Hfold; constructor.
  - intros Ht.
    assert (Hfold : forall sentences segs,
               Forall (fun s => trim s <> [] /\ onlySpaces s) sentences ->
               Forall (fun seg => seg <> []) segs ->
               Forall (fun seg => seg <> [])
                 (fold_left pushSentence sentences segs)).
    { induction sentences as [|s0 sentences IH]; intros segs Hall Hs; [exact Hs|].
      apply Forall_cons_iff in Hall as [[Hne Hsp] Hall].
      simpl. apply IH; [exact Hall|]. unfold pushSentence. destruct (_ <=? _).
      - apply Forall_app. split; [exact Hs|]. constructor; [exact Hne | constructor].
      - now apply pushChunks_nonempty. }
    assert (Hsents : Forall (fun s => trim s <> [] /\ onlySpaces s)
                       (sentencesOf captionForScene)).
    { pose proof (sentencesOf_nonblank captionForScene) as H1.
      pose proof (sentencesOf_onlySpaces captionForScene Ht) as H2.
      rewrite Forall_forall in *. intros s Hs. split; [now apply H1 | now apply H2]. }
    destruct (length _ =? 0); [apply pushChunks_nonempty; [exact Ht|]|];
      apply Hfold; try exact Hsents; constructor.
Qed.

(** *** The overlay text is escaped *)

Lemma replaceAll_app (c : N) (by_ a b : jsstring) :
  replaceAll c by_ (a ++ b) = replaceAll c by_ a ++ replaceAll c by_ b.
Proof. unfold replaceAll. now rewrite map_app, concat_app. Qed.

Lemma escapeForDrawtext_cons (c : N) (text : jsstring) :
  Assemble.escapeForDrawtext (c :: text)
  = Assemble.escapeForDrawtext [c] ++ Assemble.escapeForDrawtext text.
Proof.
  unfold Assemble.escapeForDrawtext.
  change (c :: text) with ([c] ++ text). now rewrite !replaceAll_app.
Qed.

(** What becomes of one code unit. *)
Lemma escapeForDrawtext_unit (c : N) :
  Assemble.escapeForDrawtext [c]
  = if (c =? 92)%N then [92; 92]%N
    else if (c =? 39)%N then []
    else if (c =? 34)%N then []
    else if (c =? 58)%N then [92; 58]%N
    else if (c =? 10)%N then [32]%N
    else if (c =? 13)%N then []
    else [c].
Proof.
  destruct (N.eqb_spec c 92) as [->|H92]; [reflexivity|].
  destruct (N.eqb_spec c 39) as [->|H39]; [reflexivity|].
  destruct (N.eqb_spec c 34) as [->|H34]; [reflexivity|].
  destruct (N.eqb_spec c 58) as [->|H58]; [reflexivity|].
  destruct (N.eqb_spec c 10) as [->|H10]; [reflexivity|].
  destruct (N.eqb_spec c 13) as [->|H13]; [reflexivity|].
  unfold Assemble.escapeForDrawtext, replaceAll. simpl.
  apply N.eqb_neq in H92, H39, H34, H58, H10, H13.
  rewrite H92. simpl. rewrite H39. simpl. rewrite H34. simpl.
  rewrite H58. simpl. rewrite H10. simpl. now rewrite H13.
Qed.

(** X5.  Whatever the segment, the text put between the quotes of the
    [drawtext] option is well escaped: it is made of plain code units
    (no quote, double quote, colon, backslash, line feed or carriage
    return) and of the escapes [\\] and [\:]; so it holds no quote that
    would end the option, and no line terminator. *)
Theorem escapeForDrawtext_wellEscaped (text : jsstring) :
  wellEscaped (Assemble.escapeForDrawtext text) = true
  /\ (forall c, In c (Assemble.escapeForDrawtext text) ->
        c <> 39%N /\ c <> 34%N /\ c <> 10%N /\ c <> 13%N).
Proof.
  induction text as [|c text [IH1 IH2]]; [split; [reflexivity | intros c []]|].
  rewrite escapeForDrawtext_cons, escapeForDrawtext_unit.
  destruct (N.eqb_spec c 92) as [->|H92].
  { split; [exact IH1|]. intros d [<-|[<-|H]]; [repeat split; discriminate..|now apply IH2]. }
  destruct (N.eqb_spec c 39) as [->|H39]; [split; [exact IH1 | exact IH2]|].
  destruct (N.eqb_spec c 34) as [->|H34]; [split; [exact IH1 | exact IH2]|].
  destruct (N.eqb_spec c 58) as [->|H58].
  { split; [exact IH1|]. intros d [<-|[<-|H]]; [repeat split; discriminate..|now apply IH2]. }
  destruct (N.eqb_spec c 10) as [->|H10].
  { split; [exact IH1|]. intros d [<-|H]; [repeat split; discriminate|now apply IH2]. }
  destruct (N.eqb_spec c 13) as [->|H13]; [split; [exact IH1 | exact IH2]|].
  split.
  - simpl. unfold isPlain.
    apply N.eqb_neq in H92, H39, H34, H58, H10, H13.
    now rewrite H92, H39, H34, H58, H10, H13.
  - intros d [<-|H]; [auto | now apply IH2].
Qed.

End CaptionExtras.

Module AssembleRouteFacts.
Import Clock ApiHandler Assemble AssembleRoute.

Section Facts.
Context {Media FfErr : Type}.
Variable numberToString : float -> jsstring.
Variable renderRun : Job -> Files Media -> option FfErr * Files Media.
Variable concatRun : Job -> Files Media -> Timeout.Event unit FfErr * Files Media.
Variable tmpDir : jsstring.

(** A computation that leaves every other directory as it is. *)
Local Abbreviation local_ :=
  (fun A (c : M Media FfErr A) =>
     forall w d, d <> tmpDir -> files (c w).2 !! d = files w !! d).

Lemma local_ret {A} (a : A) : local_ A (ret a).
Proof. intros w d _. reflexivity. Qed.

Lemma local_throw {A} (e : Exn FfErr) : local_ A (throw e).
Proof. intros w d _. reflexivity. Qed.

Lemma local_bind {A B} (c : M Media FfErr A) (k : A -> M Media FfErr B) :
  local_ A c -> (forall a, local_ B (k a)) -> local_ B (bind c k).
Proof.
  intros Hc Hk w d Hd. unfold bind. specialize (Hc w d Hd).
  destruct (c w) as [[a|e] w1]; simpl in *; [|exact Hc].
  rewrite <- Hc. now apply Hk.
Qed.

Lemma local_catch {A} (c : M Media FfErr A) (h : Exn FfErr -> M Media FfErr A) :
  local_ A c -> (forall e, local_ A (h e)) -> local_ A (catch c h).
Proof.
  intros Hc Hh w d Hd. unfold catch. specialize (Hc w d Hd).
  destruct (c w) as [[a|e] w1]; simpl in *; [exact Hc|].
  rewrite <- Hc. now apply Hh.
Qed.

Lemma local_write (name : jsstring) (data : FileData Media) :
  local_ unit (writeFileSync tmpDir name data).
Proof.
  intros w d Hd. unfold writeFileSync.
  destruct (files w !! tmpDir); simpl; [|reflexivity].
  unfold Files in *. now rewrite lookup_insert_ne.
Qed.

Lemma local_read (name : jsstring) :
  local_ (FileData Media) (readFileSync tmpDir name).
Proof.
  intros w d Hd. unfold readFileSync.
  destruct (files w !! tmpDir) as [entries|]; simpl; [|reflexivity].
  destruct (entries !! name); reflexivity.
Qed.

Lemma local_mkdir : local_ unit (mkdirSync tmpDir).
Proof.
  intros w d Hd. unfold mkdirSync. simpl.
  destruct (files w !! tmpDir); [reflexivity|].
  unfold Files in *. now rewrite lookup_insert_ne.
Qed.

(** A computation that leaves the refusals of the file system as they
    are. *)
Local Abbreviation steady_ :=
  (fun A (c : M Media FfErr A) => forall w, refuses (c w).2 = refuses w).

Lemma steady_ret {A} (a : A) : steady_ A (ret a).
Proof. intros w. reflexivity. Qed.

Lemma steady_throw {A} (e : Exn FfErr) : steady_ A (throw e).
Proof. intros w. reflexivity. Qed.

Lemma steady_bind {A B} (c : M Media FfErr A) (k : A -> M Media FfErr B) :
  steady_ A c -> (forall a, steady_ B (k a)) -> steady_ B (bind c k).
Proof.
  intros Hc Hk w. unfold bind. specialize (Hc w).
  destruct (c w) as [[a|e] w1]; simpl in *; [|exact Hc].
  rewrite <- Hc. apply Hk.
Qed.

Lemma steady_catch {A} (c : M Media FfErr A) (h : Exn FfErr -> M Media FfErr A) :
  steady_ A c -> (forall e, steady_ A (h e)) -> steady_ A (catch c h).
Proof.
  intros Hc Hh w. unfold catch. specialize (Hc w).
  destruct (c w) as [[a|e] w1]; simpl in *; [exact Hc|].
  rewrite <- Hc. apply Hh.
Qed.

Lemma steady_write (name : jsstring) (data : FileData Media) :
  steady_ unit (writeFileSync tmpDir name data).
Proof. intros w. unfold writeFileSync. destruct (files w !! tmpDir); reflexivity. Qed.

Lemma steady_read (name : jsstring) :
  steady_ (FileData Media) (readFileSync tmpDir name).
Proof.
  intros w. unfold readFileSync.
  destruct (files w !! tmpDir) as [entries|]; [|reflexivity].
  destruct (entries !! name); reflexivity.
Qed.

Lemma steady_runSegment (effectiveDuration : float)
    (audioPath segmentPath filterChain inputPath : jsstring) (isVideo : bool) :
  steady_ unit (runSegment numberToString renderRun effectiveDuration audioPath
                  segmentPath filterChain inputPath isVideo).
Proof.
  intros w. unfold runSegment.
  destruct (renderRun _ (files w)) as [[err|] fs']; reflexivity.
Qed.

Lemma steady_concatenate (listPath outputPath : jsstring) :
  steady_ unit (concatenate concatRun listPath outputPath).
Proof.
  intros w. unfold concatenate.
  destruct (concatRun _ (files w)) as [ev fs'].
  destruct (Timeout.awaitTimeout _ _ ev) as [|[|]]; reflexivity.
Qed.

Lemma steady_processScene (captions_ : bool) (captionTexts : list jsstring)
    (i : nat) (scene : SceneAssets) :
  steady_ _ (processScene numberToString renderRun tmpDir captions_
               captionTexts i scene).
Proof.
  unfold processScene.
  destruct (_ || _ || _); [apply steady_ret|].
  destruct (_ && _); [apply steady_ret|].
  apply steady_bind; [apply steady_write|]. intros _.
  apply steady_bind; [|intros _; apply steady_ret].
  destruct (present (imageBase64 scene));
    (apply steady_bind; [apply steady_write|]; intros _;
     unfold tryRunSegment; apply steady_catch; [apply steady_runSegment|];
     intros e; destruct (_ && _); [|apply steady_throw];
     apply steady_catch; [apply steady_runSegment | intros e'; apply steady_throw]).
Qed.

Lemma steady_sceneLoop (captions_ : bool) (captionTexts : list jsstring)
    (rest : list SceneAssets) (i : nat) (segmentPaths : list jsstring) :
  steady_ _ (sceneLoop numberToString renderRun tmpDir captions_ captionTexts
               i rest segmentPaths).
Proof.
  revert i segmentPaths. induction rest as [|scene rest IH]; intros i segmentPaths.
  - apply steady_ret.
  - cbn [sceneLoop]. apply steady_bind; [apply steady_processScene|].
    intros [response|]; [apply steady_ret | apply IH].
Qed.

Lemma steady_assemble (request : Request) :
  steady_ _ (assemble numberToString renderRun concatRun tmpDir request).
Proof.
  unfold assemble. apply steady_bind.
  - destruct (json request); [apply steady_ret | apply steady_throw].
  - intros body. destruct (safeParse body) as [data|]; [|apply steady_ret].
    apply steady_bind; [apply steady_sceneLoop|].
    intros [response|paths]; [apply steady_ret|].
    apply steady_bind; [apply steady_write|]. intros _.
    apply steady_bind; [apply steady_concatenate|]. intros _.
    apply steady_bind; [apply steady_read|]. intros buffer. apply steady_ret.
Qed.

(** The state in which the cleanup is run has the refusals of the state
    the handler started in. *)
Lemma assemble_refuses (request : Request) (w : World Media) :
  refuses (assemble numberToString renderRun concatRun tmpDir request
             (snd (mkdirSync (FfErr := FfErr) tmpDir w))).2
  = refuses w.
Proof. now rewrite steady_assemble. Qed.

Hypothesis renderInside : writesInside tmpDir renderRun.
Hypothesis concatInside : writesInside tmpDir concatRun.

Lemma local_runSegment (effectiveDuration : float)
    (audioPath segmentPath filterChain inputPath : jsstring) (isVideo : bool) :
  local_ unit (runSegment numberToString renderRun effectiveDuration audioPath
                 segmentPath filterChain inputPath isVideo).
Proof.
  intros w d Hd. unfold runSegment.
  pose proof (renderInside
                (RenderSegment inputPath isVideo audioPath
                   (outputOptions numberToString effectiveDuration filterChain)
                   segmentPath) (files w) d Hd) as H.
  destruct (renderRun _ (files w)) as [[err|] fs']; exact H.
Qed.

Lemma local_concatenate (listPath outputPath : jsstring) :
  local_ unit (concatenate concatRun listPath outputPath).
Proof.
  intros w d Hd. unfold concatenate.
  pose proof (concatInside (Concat listPath outputPath) (files w) d Hd) as H.
  destruct (concatRun _ (files w)) as [ev fs']. simpl in H.
  destruct (Timeout.awaitTimeout _ _ ev) as [|[|]]; exact H.
Qed.

Lemma local_processScene (captions_ : bool) (captionTexts : list jsstring)
    (i : nat) (scene : SceneAssets) :
  local_ _ (processScene numberToString renderRun tmpDir captions_
              captionTexts i scene).
Proof.
  unfold processScene.
  destruct (_ || _ || _); [apply local_ret|].
  destruct (_ && _); [apply local_ret|].
  apply local_bind; [apply local_write|]. intros _.
  apply local_bind; [|intros _; apply local_ret].
  destruct (present (imageBase64 scene));
    (apply local_bind; [apply local_write|]; intros _;
     unfold tryRunSegment; apply local_catch; [apply local_runSegment|];
     intros e; destruct (_ && _); [|apply local_throw];
     apply local_catch; [apply local_runSegment | intros e'; apply local_throw]).
Qed.

Lemma local_sceneLoop (captions_ : bool) (captionTexts : list jsstring)
    (rest : list SceneAssets) (i : nat) (segmentPaths : list jsstring) :
  local_ _ (sceneLoop numberToString renderRun tmpDir captions_ captionTexts
              i rest segmentPaths).
Proof.
  revert i segmentPaths. induction rest as [|scene rest IH]; intros i segmentPaths.
  - apply local_ret.
  - cbn [sceneLoop]. apply local_bind; [apply local_processScene|].
    intros [response|]; [apply local_ret | apply IH].
Qed.

Lemma local_assemble (request : Request) :
  local_ _ (assemble numberToString renderRun concatRun tmpDir request).
Proof.
  unfold assemble. apply local_bind.
  - destruct (json request); [apply local_ret | apply local_throw].
  - intros body. destruct (safeParse body) as [data|]; [|apply local_ret].
    apply local_bind; [apply local_sceneLoop|].
    intros [response|paths]; [apply local_ret|].
    apply local_bind; [apply local_write|]. intros _.
    apply local_bind; [apply local_concatenate|]. intros _.
    apply local_bind; [apply local_read|]. intros buffer. apply local_ret.
Qed.

(** The handler leaves the file system as it found it. *)
Lemma handleAssembleVideo_restores (request : Request) (w : World Media) :
  files w !! tmpDir = None -> cleanupAllowed tmpDir w ->
  files (handleAssembleVideo numberToString renderRun concatRun tmpDir request w).2
  = files w.
Proof.
  intros Hdir Hallowed. unfold handleAssembleVideo.
  destruct (bodyTooLarge _); [reflexivity|].
  unfold bind at 1. cbn [mkdirSync]. unfold finally_.
  pose proof (assemble_refuses request w) as Hrefuses.
  pose proof (local_assemble request (snd (mkdirSync (FfErr := FfErr) tmpDir w)))
    as Hlocal.
  cbn [mkdirSync snd] in Hrefuses, Hlocal.
  destruct (assemble _ _ _ _ _ _) as [r w1]. cbn [fst snd] in *.
  assert (Hallowed1 : cleanupAllowed tmpDir w1).
  { unfold cleanupAllowed. now rewrite Hrefuses. }
  rewrite (AssembleClaims.cleanup_allowed tmpDir w1 Hallowed1).
  apply (map_eq (M := gmap jsstring)). intros d.
  destruct (decide (d = tmpDir)) as [->|Hd].
  - unfold Files in *. rewrite lookup_delete_eq. now symmetry.
  - unfold Files in *. rewrite lookup_delete_ne by congruence.
    rewrite (Hlocal d Hd). cbn [record files]. rewrite Hdir.
    now rewrite lookup_insert_ne.
Qed.

Lemma sceneLoop_paths (captions_ : bool) (captionTexts : list jsstring)
    (rest : list SceneAssets) (i : nat) (segmentPaths paths : list jsstring)
    (w w' : World Media) :
  sceneLoop numberToString renderRun tmpDir captions_ captionTexts i rest
    segmentPaths w = (Normal (inr paths), w') ->
  paths = segmentPaths
          ++ List.map (fun j => pathJoin tmpDir (sceneFile "segment-" j ".mp4"))
               (seq i (length rest)).
Proof.
  revert i segmentPaths w.
  induction rest as [|scene rest IH]; intros i segmentPaths w H.
  - injection H as <- _. simpl. now rewrite app_nil_r.
  - cbn [sceneLoop] in H.
    apply AssembleClaims.bind_normal in H as ([r|] & w1 & _ & H); [discriminate|].
    apply IH in H. rewrite H, <- app_assoc. reflexivity.
Qed.

End Facts.

(** X6.  Once the size check has passed, the outcome of the handler is
    that of its [try] block, whatever the cleanup does.  When the file
    system refuses no step of the cleanup (the listing, an unlink, the
    removal), the temp directory of the request does not exist when the
    handler returns or throws, whatever the request and whatever the
    encoder did; in any case it does not exist, or it is still there, a
    step was refused and the last thing done is the logging of the cleanup
    error.  When
    moreover the encoder writes inside that directory only, and the
    directory did not exist before, the handler leaves the file system
    exactly as it found it. *)
Theorem handler_leaves_no_file {Media FfErr : Type}
    (numberToString : float -> jsstring)
    (renderRun : Job -> Files Media -> option FfErr * Files Media)
    (concatRun : Job -> Files Media -> Timeout.Event unit FfErr * Files Media)
    (tmpDir : jsstring) (request : Request) (w : World Media) :
  let run := handleAssembleVideo numberToString renderRun concatRun tmpDir
               request w in
  (bodyTooLarge (contentLength request) = false ->
   run.1 = (assemble numberToString renderRun concatRun tmpDir request
              (snd (mkdirSync (FfErr := FfErr) tmpDir w))).1
   /\ (cleanupAllowed tmpDir w -> files run.2 !! tmpDir = None)
   /\ (files run.2 !! tmpDir = None
       \/ (exists left_, files run.2 !! tmpDir = Some left_)
           /\ list.last (events run.2) = Some (ConsoleError (str "Cleanup error:"))
           /\ ~ cleanupAllowed tmpDir w))
  /\ (writesInside tmpDir renderRun -> writesInside tmpDir concatRun ->
      files w !! tmpDir = None -> cleanupAllowed tmpDir w ->
      files run.2 = files w).
Proof.
  intros run. split.
  - intros Hsize.
    assert (Hrun : run
                   = ((assemble numberToString renderRun concatRun tmpDir request
                         (snd (mkdirSync (FfErr := FfErr) tmpDir w))).1,
                      cleanup tmpDir
                        (assemble numberToString renderRun concatRun tmpDir request
                           (snd (mkdirSync (FfErr := FfErr) tmpDir w))).2)).
    { unfold run, handleAssembleVideo. rewrite Hsize.
      unfold bind at 1. cbn [mkdirSync snd]. unfold finally_.
      now destruct (assemble _ _ _ _ _ _). }
    rewrite Hrun. cbn [fst snd]. clear Hrun.
    pose proof (assemble_refuses numberToString renderRun concatRun tmpDir
                  request w) as Hrefuses.
    destruct (assemble _ _ _ _ _ _) as [r w1]. cbn [fst snd] in *.
    assert (Hsame : cleanupAllowed tmpDir w1 <-> cleanupAllowed tmpDir w).
    { unfold cleanupAllowed. now rewrite Hrefuses. }
    split; [reflexivity|]. split.
    + intros Hallowed.
      rewrite (AssembleClaims.cleanup_allowed tmpDir w1) by now apply Hsame.
      unfold Files. apply lookup_delete_eq.
    + destruct (AssembleClaims.cleanup_outcome tmpDir w1) as [H|(H0 & H1 & H2)];
        [now left|].
      right. split; [exact H0|]. split; [exact H1|].
      intros H. apply H2. now apply Hsame.
  - intros Hr Hc Hdir Hallowed. now apply handleAssembleVideo_restores.
Qed.

(** X7.  An answer 200 of the handler carries exactly the file that the
    concatenation left as [output.mp4]; the concatenation completed
    before its deadline, and it ran on a [list.txt] that names the
    segments of the scenes of the request, [segment-0.mp4] to
    [segment-(n-1).mp4], one per scene and in the order of the request. *)
Theorem ok_answer_is_the_concatenation {Media FfErr : Type}
    (numberToString : float -> jsstring)
    (renderRun : Job -> Files Media -> option FfErr * Files Media)
    (concatRun : Job -> Files Media -> Timeout.Event unit FfErr * Files Media)
    (tmpDir : jsstring) (request : Request) (w w' : World Media)
    (response : NextResponse Media) :
  handleAssembleVideo numberToString renderRun concatRun tmpDir request w
  = (Normal response, w') ->
  status response = 200 ->
  exists body data fs entries fs' entries' video,
    json request = Some body /\ safeParse body = Some data
    /\ fs !! tmpDir = Some entries
    /\ entries !! str "list.txt"
       = Some (Text (join (str "
")
            (List.map (fun j => str "file '"
                         ++ replaceAll 92 (str "/")
                              (pathJoin tmpDir (sceneFile "segment-" j ".mp4"))
                         ++ str "'")
               (seq 0 (length (scenes data))))))
    /\ concatRun (Concat (pathJoin tmpDir (str "list.txt"))
                    (pathJoin tmpDir (str "output.mp4"))) fs
       = (Timeout.OperationCompletes (Timeout.Fulfils tt), fs')
    /\ fs' !! tmpDir = Some entries'
    /\ entries' !! str "output.mp4" = Some video
    /\ response = videoResponse video.
Proof.
  intros Hrun Hs. unfold handleAssembleVideo in Hrun.
  destruct (bodyTooLarge _); [injection Hrun as <- _; discriminate|].
  unfold bind at 1 in Hrun. cbn [mkdirSync] in Hrun. unfold finally_ in Hrun.
  destruct (assemble _ _ _ _ _ _) as [r w1] eqn:Ha.
  injection Hrun as -> _. clear w'.
  unfold assemble in Ha.
  apply AssembleClaims.bind_normal in Ha as (body & w2 & Hbody & Ha).
  destruct (json request) as [v|] eqn:Hjson; [|discriminate].
  injection Hbody as -> _. exists body.
  destruct (safeParse body) as [data|] eqn:Hparse;
    [|injection Ha as <- _; discriminate].
  exists data.
  apply AssembleClaims.bind_normal in Ha as ([early|paths] & w3 & Hloop & Ha).
  { injection Ha as <- _.
    apply AssembleClaims.sceneLoop_status in Hloop. congruence. }
  apply sceneLoop_paths in Hloop. simpl in Hloop. subst paths.
  rewrite map_map in Ha.
  apply AssembleClaims.bind_normal in Ha as ([] & w4 & Hwrite & Ha).
  apply AssembleClaims.bind_normal in Ha as ([] & w5 & Hconcat & Ha).
  apply AssembleClaims.bind_normal in Ha as (video & w6 & Hread & Ha).
  injection Ha as <- _.
  unfold writeFileSync in Hwrite.
  destruct (files w3 !! tmpDir) as [entries0|] eqn:Hdir; [|discriminate].
  injection Hwrite as <-.
  unfold concatenate in Hconcat. cbn [files record events] in Hconcat.
  destruct (concatRun _ _) as [ev fs'] eqn:Hc.
  destruct ev as [|[[]|err]]; simpl in Hconcat; try discriminate.
  injection Hconcat as <-.
  unfold readFileSync in Hread. cbn [files record] in Hread.
  destruct (fs' !! tmpDir) as [entries'|] eqn:Hdir'; [|discriminate].
  destruct (entries' !! str "output.mp4") as [data'|] eqn:Hout; [|discriminate].
  injection Hread as -> _.
  eexists _, _, fs', entries', video.
  split; [reflexivity|]. split; [reflexivity|].
  split; [unfold Files in *; apply lookup_insert_eq|].
  split; [apply lookup_insert_eq|].
  split; [exact Hc|]. split; [exact Hdir'|]. split; [exact Hout | reflexivity].
Qed.

End AssembleRouteFacts.

Module SchemaFacts.
Import SchemaShape FloatOrder.

Lemma zOptional_nonEmpty (v : option Json) (s : option jsstring) :
  zOptional zNonEmpty v = Some s -> present s = bool_decide (s <> None).
Proof.
  unfold zOptional. destruct v as [j|]; [|now intros [= <-]].
  destruct (zNonEmpty (Some j)) as [t|] eqn:E; [|discriminate].
  intros [= <-]. simpl. now rewrite (AssembleClaims.zNonEmpty_truthy _ _ E).
Qed.

Lemma parseSceneAsset_wellFormed (v : Json) (d : SceneAssets) :
  parseSceneAsset v = Some d -> wellFormed d = true.
Proof.
  unfold parseSceneAsset. destruct v as [| | | | |props]; try discriminate.
  destruct (zIndex _) as [idx|] eqn:Hidx; [|discriminate].
  destruct (zOptional zNonEmpty (getProp (str "imageBase64") props)) as [image|]
    eqn:Himage; [|discriminate].
  destruct (zOptional zNonEmpty (getProp (str "videoBase64") props)) as [video|]
    eqn:Hvideo; [|discriminate].
  destruct (zNonEmpty (getProp (str "audioBase64") props)) as [audio|] eqn:Haudio;
    [|discriminate].
  destruct (zPositive _) as [duration|] eqn:Hduration; [|discriminate].
  destruct (zOptional zString _) as [narr|]; [|discriminate].
  destruct (_ && _) eqn:Hrefine; [|discriminate].
  intros [= <-]. unfold wellFormed.
  cbn [sceneIndex imageBase64 videoBase64 audioBase64 durationSeconds].
  apply AssembleClaims.zNonEmpty_truthy in Haudio. rewrite Haudio.
  unfold zIndex in Hidx. destruct (zNumber _) as [x|]; [|discriminate].
  destruct (isInteger x && PrimFloat.leb 0 x) eqn:Hx; [|discriminate].
  injection Hidx as <-. rewrite Hx.
  unfold zPositive in Hduration. destruct (zNumber _) as [y|]; [|discriminate].
  destruct (PrimFloat.ltb 0 y) eqn:Hy; [|discriminate].
  injection Hduration as <-. rewrite Hy.
  pose proof (zOptional_nonEmpty _ _ Himage) as Hi.
  pose proof (zOptional_nonEmpty _ _ Hvideo) as Hv.
  destruct image as [image|], video as [video|]; simpl in *;
    rewrite ?Hi, ?Hv in *; simpl in *; try discriminate; reflexivity.
Qed.

Lemma parseScenes_wellFormed (elems : list Json) (ds : list SceneAssets) :
  parseScenes elems = Some ds ->
  length ds = length elems /\ forallb wellFormed ds = true.
Proof.
  revert ds. induction elems as [|v elems IH]; intros ds H; simpl in H.
  - injection H as <-. now split.
  - destruct (parseSceneAsset v) as [d|] eqn:Hd; [|discriminate].
    destruct (parseScenes elems) as [ds'|]; [|discriminate].
    injection H as <-. destruct (IH ds' eq_refl) as [Hlen Hall].
    simpl. rewrite Hlen, (parseSceneAsset_wellFormed v d Hd), Hall. now split.
Qed.

(** The rendered duration is not below the minimum nor below the scene's
    own, and it is the scene's own when that is not below the minimum. *)
Lemma effectiveDuration_bounds (d : SceneAssets) :
  PrimFloat.ltb 0 (durationSeconds d) = true ->
  PrimFloat.leb MIN_SCENE_DURATION (effectiveDuration d) = true
  /\ PrimFloat.leb (durationSeconds d) (effectiveDuration d) = true
  /\ (effectiveDuration d = durationSeconds d
      \/ effectiveDuration d = MIN_SCENE_DURATION).
Proof.
  intros Hpos. destruct (ltb_notNaN _ _ Hpos) as [_ Hnan].
  unfold effectiveDuration, mathMax. rewrite Hnan.
  change (isNaN MIN_SCENE_DURATION) with false. cbn [orb].
  destruct (PrimFloat.ltb (durationSeconds d) MIN_SCENE_DURATION) eqn:Hlt.
  - split; [reflexivity|]. split; [now apply ltb_leb | now right].
  - split; [now apply not_ltb_leb|]. split; [now apply leb_refl | now left].
Qed.

(** X8.  What the schema lets through.  When [safeParse] accepts a body,
    the data hold 1 to [MAX_SCENES] scenes, as many as the array of the
    body; every scene has a non-negative integer index, exactly one of
    the image and the video, not empty, a non-empty audio and a positive
    duration; [captions] is true unless the body says false; and the
    duration each scene is rendered for is at least 3 seconds and at least
    the scene's own, and is one of the two. *)
Theorem safeParse_sound (body : Json) (data : AssembleVideoBody) :
  safeParse body = Some data ->
  1 <= length (scenes data) <= MAX_SCENES
  /\ (exists props elems,
        body = JObject props
        /\ getProp (str "scenes") props = Some (JArray elems)
        /\ length elems = length (scenes data)
        /\ captions data
           = match getProp (str "captions") props with
             | Some (JBool b) => b
             | _ => true
             end)
  /\ Forall (fun d =>
        wellFormed d = true
        /\ PrimFloat.leb MIN_SCENE_DURATION (effectiveDuration d) = true
        /\ PrimFloat.leb (durationSeconds d) (effectiveDuration d) = true
        /\ (effectiveDuration d = durationSeconds d
            \/ effectiveDuration d = MIN_SCENE_DURATION))
       (scenes data).
Proof.
  unfold safeParse. destruct body as [| | | | |props]; try discriminate.
  destruct (getProp (str "scenes") props) as [[| | | |elems|]|] eqn:Hscenes;
    try discriminate.
  destruct (_ && _) eqn:Hcount; [|discriminate].
  destruct (parseScenes elems) as [ds|] eqn:Hds; [|discriminate].
  destruct (zCaptions _) as [c|] eqn:Hc; [|discriminate].
  intros [= <-]. cbn [scenes captions].
  destruct (parseScenes_wellFormed elems ds Hds) as [Hlen Hall].
  apply andb_true_iff in Hcount as [Hmin Hmax].
  apply Nat.leb_le in Hmin, Hmax.
  split; [lia|]. split.
  - exists props, elems. split; [reflexivity|]. split; [exact Hscenes|].
    split; [now symmetry|]. unfold zCaptions in Hc.
    destruct (getProp (str "captions") props) as [[|b| | | |]|]; try discriminate.
    + now injection Hc as <-.
    + now injection Hc as <-.
  - apply Forall_forall. intros d Hd.
    rewrite forallb_forall in Hall. specialize (Hall d Hd).
    split; [exact Hall|]. apply effectiveDuration_bounds.
    unfold wellFormed in Hall. now apply andb_true_iff in Hall as [_ ->].
Qed.

End SchemaFacts.

Module RateLimitFacts.
Import Clock RateLimit.

Lemma prune_lookup (st : State) (k : jsstring) (e : Entry) :
  memoryStore (memoryPrune st) !! k = Some e
  <-> memoryStore st !! k = Some e
      /\ (readings (clock st) (reads (clock st)) < resetAt e)%Z.
Proof.
  unfold memoryPrune. simpl. rewrite map_lookup_filter_Some. simpl. tauto.
Qed.

(** A call reads the clock once or twice, and does nothing else to it. *)
Lemma rateLimitMemory_clock (key : jsstring) (st : State) :
  readings (clock (rateLimitMemory key st).2) = readings (clock st)
  /\ reads (clock st) < reads (clock (rateLimitMemory key st).2)
  /\ reads (clock (rateLimitMemory key st).2) <= S (S (reads (clock st))).
Proof.
  destruct st as [store [rd n]]. unfold rateLimitMemory. simpl.
  destruct (10000 <? _)%Z; simpl;
    repeat match goal with
           | |- context [match ?x with _ => _ end] => destruct x
           end; simpl; repeat split; lia.
Qed.

(** The entry of a key whose window is still open at every reading to
    come: a call for the key is allowed when the count is below the limit,
    and then counted; a call for another key leaves the entry alone. *)
Lemma rateLimitMemory_open (key k : jsstring) (st : State) (e : Entry) :
  memoryStore st !! k = Some e ->
  (forall i, reads (clock st) <= i -> (readings (clock st) i < resetAt e)%Z) ->
  let allowed := (rateLimitMemory key st).1 in
  let st' := (rateLimitMemory key st).2 in
  if bool_decide (key = k) then
    allowed = (count e <? RATE_LIMIT_REQUESTS)%Z
    /\ memoryStore st' !! k
       = Some (if (count e <? RATE_LIMIT_REQUESTS)%Z
               then {| count := count e + 1; resetAt := resetAt e |} else e)
  else memoryStore st' !! k = Some e.
Proof.
  intros He Hopen. destruct st as [store [rd n]]. simpl in He, Hopen.
  unfold rateLimitMemory. cbn [dateNow clock memoryStore readings reads].
  set (st1 := if (10000 <? _)%Z then _ else _).
  assert (H1 : memoryStore st1 !! k = Some e).
  { unfold st1. destruct (10000 <? _)%Z; [|exact He].
    apply prune_lookup. simpl. split; [exact He|]. apply Hopen. lia. }
  clearbody st1.
  case_bool_decide as Hk.
  - subst key. rewrite H1.
    assert (Hnow : (resetAt e <=? rd n)%Z = false).
    { apply Z.leb_gt. apply Hopen. lia. }
    rewrite Hnow. rewrite !Z.ltb_antisym.
    destruct (RATE_LIMIT_REQUESTS <=? count e)%Z; simpl.
    + split; [reflexivity | exact H1].
    + split; [reflexivity|]. apply lookup_insert_eq.
  - destruct (memoryStore st1 !! key) as [e'|]; simpl.
    + destruct (_ <=? _)%Z; simpl; [now rewrite lookup_insert_ne|].
      destruct (_ <=? _)%Z; simpl; [exact H1 | now rewrite lookup_insert_ne].
    + now rewrite lookup_insert_ne.
Qed.

(** A key without an entry, or whose window has passed at the reading of
    the call, is allowed and opens a window of its own. *)
Lemma rateLimitMemory_opens (k : jsstring) (st : State) :
  match memoryStore st !! k with
  | None => True
  | Some e => (resetAt e <= readings (clock st) (reads (clock st)))%Z
  end ->
  (rateLimitMemory k st).1 = true
  /\ memoryStore (rateLimitMemory k st).2 !! k
     = Some {| count := 1;
               resetAt := readings (clock st) (reads (clock st))
                          + RATE_LIMIT_WINDOW_MS |}.
Proof.
  intros Hk. destruct st as [store [rd n]]. simpl in Hk.
  unfold rateLimitMemory. cbn [dateNow clock memoryStore readings reads].
  set (st1 := if (10000 <? _)%Z then _ else _).
  assert (H1 : match memoryStore st1 !! k with
               | None => True
               | Some e => (resetAt e <= rd n)%Z
               end).
  { unfold st1. destruct (10000 <? _)%Z; [|exact Hk].
    destruct (memoryStore (memoryPrune _) !! k) as [e|] eqn:E; [|exact I].
    apply prune_lookup in E as [E _]. simpl in E. now rewrite E in Hk. }
  clearbody st1. destruct (memoryStore st1 !! k) as [e|]; simpl.
  - apply Z.leb_le in H1. rewrite H1. simpl. split; [reflexivity|].
    apply lookup_insert_eq.
  - split; [reflexivity | apply lookup_insert_eq].
Qed.

Lemma replicate_quota (m rem : nat) :
  1 <= rem ->
  true :: (replicate (Nat.min m (rem - 1)) true ++ replicate (m - (rem - 1)) false)
  = replicate (Nat.min (S m) rem) true ++ replicate (S m - rem) false.
Proof.
  intros H. destruct rem as [|rem]; [lia|].
  replace (S rem - 1) with rem by lia. reflexivity.
Qed.

Lemma callsFor_cons (k key : jsstring) (keys : list jsstring) :
  callsFor k (key :: keys)
  = if bool_decide (key = k) then S (callsFor k keys) else callsFor k keys.
Proof. unfold callsFor. simpl. now destruct (bool_decide (key = k)). Qed.

(** The calls made while the window of a key is open: the key is allowed
    as long as its count is below the limit, and refused from then on. *)
Lemma rateLimitAll_open (k : jsstring) (keys : list jsstring) (st : State)
    (e : Entry) :
  memoryStore st !! k = Some e ->
  (forall i, reads (clock st) <= i -> (readings (clock st) i < resetAt e)%Z) ->
  decisionsFor k keys (rateLimitAll keys st).1
  = replicate (Nat.min (callsFor k keys) (Z.to_nat (RATE_LIMIT_REQUESTS - count e))) true
    ++ replicate (callsFor k keys - Z.to_nat (RATE_LIMIT_REQUESTS - count e)) false.
Proof.
  revert st e. induction keys as [|key keys IH]; intros st e He Hopen;
    [reflexivity|].
  pose proof (rateLimitMemory_open key k st e He Hopen) as Hstep.
  destruct (rateLimitMemory_clock key st) as (Hrd & Hlt & _).
  cbn [rateLimitAll]. destruct (rateLimitMemory key st) as [allowed st'].
  cbn [fst snd] in *.
  assert (Hopen' : forall e', resetAt e' = resetAt e ->
             forall i, reads (clock st') <= i ->
                       (readings (clock st') i < resetAt e')%Z).
  { intros e' -> i Hi. rewrite Hrd. apply Hopen. lia. }
  specialize (IH st'). destruct (rateLimitAll keys st') as [decisions st''].
  cbn [fst decisionsFor] in *. rewrite callsFor_cons.
  case_bool_decide as Hk.
  - destruct Hstep as [-> Hentry].
    destruct (Z.ltb_spec (count e) RATE_LIMIT_REQUESTS) as [Hc|Hc].
    + rewrite (IH _ Hentry (Hopen' _ eq_refl)). cbn [count].
      replace (Z.to_nat (RATE_LIMIT_REQUESTS - (count e + 1)))
        with (Z.to_nat (RATE_LIMIT_REQUESTS - count e) - 1) by lia.
      apply replicate_quota. lia.
    + rewrite (IH _ Hentry (Hopen' _ eq_refl)).
      replace (Z.to_nat (RATE_LIMIT_REQUESTS - count e)) with 0 by lia.
      rewrite !Nat.min_0_r, !Nat.sub_0_r. reflexivity.
  - apply (IH _ Hstep (Hopen' _ eq_refl)).
Qed.

(** X9.  The in-memory limiter, over one window.  A first call for a key
    that has no entry, or whose window has passed, opens a window of
    [RATE_LIMIT_WINDOW_MS]; of the calls made for the key while every
    reading of the clock stays inside that window, the first
    [RATE_LIMIT_REQUESTS] (30) are allowed and every later one is refused,
    whatever calls for other keys come in between (pruning included). *)
Theorem rateLimitMemory_window_quota (k : jsstring) (others : list jsstring)
    (st : State) :
  match memoryStore st !! k with
  | None => True
  | Some e => (resetAt e <= readings (clock st) (reads (clock st)))%Z
  end ->
  (forall i, reads (clock st) <= i ->
     (readings (clock st) i
      < readings (clock st) (reads (clock st)) + RATE_LIMIT_WINDOW_MS)%Z) ->
  let calls := callsFor k (k :: others) in
  decisionsFor k (k :: others) (rateLimitAll (k :: others) st).1
  = replicate (Nat.min calls 30) true ++ replicate (calls - 30) false.
Proof.
  intros Hclosed Hwindow calls.
  destruct (rateLimitMemory_opens k st Hclosed) as [Hallowed Hentry].
  destruct (rateLimitMemory_clock k st) as (Hrd & Hlt & _).
  cbn [rateLimitAll]. destruct (rateLimitMemory k st) as [allowed st'].
  cbn [fst snd] in *. subst allowed.
  pose proof (rateLimitAll_open k others st' _ Hentry) as Hrest.
  destruct (rateLimitAll others st') as [decisions st'']. cbn [fst] in *.
  unfold calls. cbn [decisionsFor]. rewrite callsFor_cons.
  rewrite bool_decide_true by reflexivity.
  rewrite Hrest.
  - cbn [count]. change (Z.to_nat (RATE_LIMIT_REQUESTS - 1)) with 29.
    change 29 with (30 - 1). apply replicate_quota. lia.
  - intros i Hi. cbn [resetAt]. rewrite Hrd. apply Hwindow. lia.
Qed.

(** X10.  A call for one key never touches the quota of another: the entry
    of every other key is as before, or it was an entry whose window had
    passed and the pruning removed it. *)
Theorem rateLimitMemory_other_keys (key k : jsstring) (st : State) :
  key <> k ->
  memoryStore (rateLimitMemory key st).2 !! k = memoryStore st !! k
  \/ (memoryStore (rateLimitMemory key st).2 !! k = None
      /\ exists e, memoryStore st !! k = Some e
                   /\ (resetAt e <= readings (clock st) (S (reads (clock st))))%Z).
Proof.
  intros Hk. destruct st as [store [rd n]].
  unfold rateLimitMemory. cbn [dateNow clock memoryStore readings reads].
  set (st1 := if (10000 <? _)%Z then _ else _).
  assert (H1 : memoryStore st1 !! k = store !! k
               \/ (memoryStore st1 !! k = None
                   /\ exists e, store !! k = Some e /\ (resetAt e <= rd (S n))%Z)).
  { unfold st1. destruct (10000 <? _)%Z; [|now left].
    destruct (store !! k) as [e|] eqn:E.
    - destruct (Z.lt_ge_cases (rd (S n)) (resetAt e)) as [Hlive|Hdead].
      + left. apply prune_lookup. simpl. auto.
      + right. split; [|exists e; split; [reflexivity | lia]].
        destruct (memoryStore (memoryPrune _) !! k) as [e'|] eqn:E'; [|reflexivity].
        apply prune_lookup in E' as [E1 E2]. simpl in E1, E2.
        rewrite E in E1. injection E1 as <-. lia.
    - left. destruct (memoryStore (memoryPrune _) !! k) as [e'|] eqn:E'; [|reflexivity].
      apply prune_lookup in E' as [E1 _]. simpl in E1. congruence. }
  clearbody st1.
  assert (Hsame : forall v, <[key := v]> (memoryStore st1) !! k = memoryStore st1 !! k)
    by (intros v; now rewrite lookup_insert_ne).
  destruct (memoryStore st1 !! key) as [e'|]; simpl.
  - destruct (_ <=? _)%Z; simpl; [now rewrite Hsame|].
    destruct (_ <=? _)%Z; simpl; [exact H1 | now rewrite Hsame].
  - now rewrite Hsame.
Qed.

End RateLimitFacts.

Module ApiFacts.
Import Clock RateLimit ApiHandler Assemble AssembleRoute.

(** The statuses of the handler's own answers. *)
Lemma handleAssembleVideo_status {Media FfErr : Type}
    (numberToString : float -> jsstring)
    (renderRun : Job -> Files Media -> option FfErr * Files Media)
    (concatRun : Job -> Files Media -> Timeout.Event unit FfErr * Files Media)
    (tmpDir : jsstring) (request : Request) (w w' : World Media)
    (response : NextResponse Media) :
  handleAssembleVideo numberToString renderRun concatRun tmpDir request w
  = (Normal response, w') ->
  status response = 413 \/ status response = 400 \/ status response = 200.
Proof.
  unfold handleAssembleVideo. destruct (bodyTooLarge _).
  - intros H. injection H as <- _. now left.
  - unfold bind at 1. cbn [mkdirSync]. unfold finally_.
    destruct (assemble _ _ _ _ _ _) as [r w1] eqn:Ha.
    intros H. injection H as -> _. right.
    eapply AssembleClaims.assemble_status. exact Ha.
Qed.

Section Wrapped.
Context {W R X : Type}.
Variable nodeEnv : option jsstring.
Variable statusOf : R -> nat.
Variable asThrown : X -> Thrown.
Variable routeName : jsstring.
Variable handler : ApiHandler (W := W) (R := R) (X := X).

Local Abbreviation wrap :=
  (withApiHandler false nodeEnv None statusOf asThrown routeName handler).

Local Abbreviation bucket := (str "unknown").

(** The handler reads the clock and does nothing else to it. *)
Hypothesis handler_clock : forall request ctx c w,
  readings (handler request ctx (c, w)).2.1 = readings c.

(** One request, when the proxy is not trusted and the limiter is the
    in-memory one: the bucket is the shared one, whatever the request. *)
Lemma wrap_limiter (request : HttpRequest) (srv : Server W) :
  exists l0,
    memoryStore l0 = memoryStore (limiter srv)
    /\ readings (clock l0) = readings (clock (limiter srv))
    /\ reads (clock l0) = S (reads (clock (limiter srv)))
    /\ rateLimited (wrap request srv).1 = negb (rateLimitMemory bucket l0).1
    /\ memoryStore (limiter (wrap request srv).2)
       = memoryStore (rateLimitMemory bucket l0).2
    /\ readings (clock (limiter (wrap request srv).2))
       = readings (clock (limiter srv)).
Proof.
  exists {| memoryStore := memoryStore (limiter srv);
            clock := (dateNow (clock (limiter srv))).2 |}.
  split; [reflexivity|]. split; [reflexivity|]. split; [reflexivity|].
  destruct srv as [[store [rd n]] warned cons w].
  unfold withApiHandler, getClientIp, now, logged, limited, rateLimit, runHandler.
  cbn [limiter trustProxyWarned console inner dateNow clock memoryStore
       readings reads fst snd].
  destruct (negb warned && _);
    cbn [limiter trustProxyWarned console inner dateNow clock memoryStore
         readings reads fst snd];
    (set (l0 := {| memoryStore := store; clock := _ |});
     pose proof (RateLimitFacts.rateLimitMemory_clock bucket l0) as (Hrd & _ & _);
     destruct (rateLimitMemory bucket l0) as [allowed l1]; cbn [fst snd] in *;
     destruct allowed; cbn [negb];
     [ match goal with
       | |- context [handler ?rq ?ctx (?c, ?w0)] =>
           pose proof (handler_clock rq ctx c w0) as Hc;
           destruct (handler rq ctx (c, w0)) as [[response|err] [c' w']]
       end;
       cbn [fst snd limiter clock memoryStore readings] in *;
       (split; [reflexivity|]); (split; [reflexivity|]); now rewrite Hc, Hrd
     | cbn [fst snd limiter clock memoryStore readings];
       split; [reflexivity|]; split; [reflexivity|]; exact Hrd ]).
Qed.

(** The requests served while the window of the shared bucket is open. *)
Lemma serve_open (requests : list HttpRequest) (srv : Server W) (e : Entry) :
  memoryStore (limiter srv) !! bucket = Some e ->
  (forall i, (readings (clock (limiter srv)) i < resetAt e)%Z) ->
  List.map rateLimited
    (serve false nodeEnv None statusOf asThrown routeName handler requests srv).1
  = replicate (Nat.min (length requests)
                 (Z.to_nat (RATE_LIMIT_REQUESTS - count e))) false
    ++ replicate (length requests - Z.to_nat (RATE_LIMIT_REQUESTS - count e)) true.
Proof.
  revert srv e. induction requests as [|request rest IH]; intros srv e He Hopen;
    [reflexivity|].
  destruct (wrap_limiter request srv) as (l0 & Hs0 & Hr0 & _ & Hrl & Hstore & Hrd).
  assert (He0 : memoryStore l0 !! bucket = Some e) by now rewrite Hs0.
  assert (Hopen0 : forall i, reads (clock l0) <= i ->
                     (readings (clock l0) i < resetAt e)%Z).
  { intros i _. rewrite Hr0. apply Hopen. }
  pose proof (RateLimitFacts.rateLimitMemory_open bucket bucket l0 e He0 Hopen0)
    as Hstep.
  rewrite bool_decide_true in Hstep by reflexivity. destruct Hstep as [Hallowed Hentry].
  cbn [serve]. destruct (wrap request srv) as [response srv'].
  cbn [fst snd] in *. rewrite <- Hstore in Hentry.
  specialize (IH srv'). destruct (serve _ _ _ _ _ _ _ rest srv') as [responses srv''].
  cbn [fst List.map length] in *. rewrite Hrl, Hallowed.
  destruct (Z.ltb_spec (count e) RATE_LIMIT_REQUESTS) as [Hc|Hc]; cbn [negb].
  - rewrite (IH _ Hentry) by (intros i; rewrite Hrd; apply Hopen). cbn [count].
    replace (Z.to_nat (RATE_LIMIT_REQUESTS - (count e + 1)))
      with (Z.to_nat (RATE_LIMIT_REQUESTS - count e) - 1) by lia.
    destruct (Z.to_nat (RATE_LIMIT_REQUESTS - count e)) as [|rem] eqn:E; [lia|].
    replace (S rem - 1) with rem by lia. reflexivity.
  - rewrite (IH _ Hentry) by (intros i; rewrite Hrd; apply Hopen).
    replace (Z.to_nat (RATE_LIMIT_REQUESTS - count e)) with 0 by lia.
    rewrite !Nat.min_0_r, !Nat.sub_0_r. reflexivity.
Qed.

End Wrapped.

(** X11.  When the proxy is not trusted and no Redis is configured, every
    request is counted in the one bucket ['unknown'], whatever its
    headers say: of the requests served while all readings of the clock
    are within one window of each other, starting with no entry for that
    bucket, the first 30 reach the handler and every later one is answered
    429 by the wrapper. *)
Theorem untrusted_proxy_shares_one_bucket {W R X : Type}
    (nodeEnv : option jsstring) (statusOf : R -> nat) (asThrown : X -> Thrown)
    (routeName : jsstring) (handler : ApiHandler (W := W) (R := R) (X := X))
    (requests : list HttpRequest) (srv : Server W) :
  (forall request ctx c w,
     readings (handler request ctx (c, w)).2.1 = readings c) ->
  memoryStore (limiter srv) !! str "unknown" = None ->
  (forall i j, (readings (clock (limiter srv)) i
                < readings (clock (limiter srv)) j + RATE_LIMIT_WINDOW_MS)%Z) ->
  List.map rateLimited
    (serve false nodeEnv None statusOf asThrown routeName handler requests srv).1
  = replicate (Nat.min (length requests) 30) false
    ++ replicate (length requests - 30) true.
Proof.
  intros Hclock Habsent Hwindow.
  destruct requests as [|request rest]; [reflexivity|].
  destruct (wrap_limiter nodeEnv statusOf asThrown routeName handler Hclock
              request srv) as (l0 & Hs0 & Hr0 & _ & Hrl & Hstore & Hrd).
  destruct (RateLimitFacts.rateLimitMemory_opens (str "unknown") l0)
    as [Hallowed Hentry]; [now rewrite Hs0, Habsent|].
  rewrite <- Hstore in Hentry.
  pose proof (serve_open nodeEnv statusOf asThrown routeName handler Hclock rest)
    as Hrest.
  cbn [serve]. destruct (withApiHandler _ _ _ _ _ _ _ request srv) as [response srv'].
  cbn [fst snd] in *. specialize (Hrest srv' _ Hentry).
  destruct (serve _ _ _ _ _ _ _ rest srv') as [responses srv''].
  cbn [fst List.map length] in *. rewrite Hrl, Hallowed. cbn [negb].
  rewrite Hrest.
  - cbn [count]. change (Z.to_nat (RATE_LIMIT_REQUESTS - 1)) with 29.
    destruct (length rest) as [|n]; reflexivity || (f_equal; f_equal; lia).
  - intros i. cbn [resetAt]. rewrite Hrd, Hr0. apply Hwindow.
Qed.

(** X12.  The answer of [POST /api/assemble-video] is one of these: the
    wrapper's 429 ("Too many requests", code RATE_LIMITED) when the
    limiter refuses, and then the handler has not run: nothing was done to
    the file system; the answer that [handleAssembleVideo] itself returned
    for the request, of status 413, 400 or 200; or, when
    [handleAssembleVideo] threw, the wrapper's 500 with code
    INTERNAL_ERROR, the id of the request in its details, and as message
    the message of the error it threw (or "Request failed" when what it
    threw is not an Error).  In both cases the handler was run on the
    file system as the request found it, with a temp directory
    [safety-video-t] for some [t], and left it as the answer finds it. *)
Theorem POST_answers {Media FfErr : Type}
    (numberToString : float -> jsstring)
    (renderRun : Job -> Files Media -> option FfErr * Files Media)
    (concatRun : Job -> Files Media -> Timeout.Event unit FfErr * Files Media)
    (osTmpdir : jsstring) (thrownOf : Exn FfErr -> Thrown)
    (shouldTrustProxy : bool) (nodeEnv : option jsstring)
    (redis : option RedisLike) (request : HttpRequest)
    (srv : Server (World Media)) :
  let run := POST numberToString renderRun concatRun osTmpdir thrownOf
               shouldTrustProxy nodeEnv redis request srv in
  let handled := fun t =>
    handleAssembleVideo numberToString renderRun concatRun
      (tmpDirAt osTmpdir t) (requestOf request) (inner srv) in
  match run.1 with
  | FromHandler response =>
      (status response = 413 \/ status response = 400 \/ status response = 200)
      /\ exists t, handled t = (Normal response, inner run.2)
  | JsonError st body =>
      (st = 429
       /\ body = apiError (str "Too many requests. Please try again later.")
                   (Some RATE_LIMITED) None
       /\ inner run.2 = inner srv)
      \/ (st = 500
          /\ code body = Some INTERNAL_ERROR
          /\ details body
             = Some [(str "requestId", JString (getRequestId request))]
          /\ exists e t,
               handled t = (Throw e, inner run.2)
               /\ error body = (if isError (thrownOf e) then errMessage (thrownOf e)
                                else str "Request failed"))
  end.
Proof.
  intros run handled. unfold run, POST, withApiHandler.
  destruct (getClientIp _ _ request srv) as [ip_ srv1] eqn:Hip.
  assert (Hinner : inner srv1 = inner srv).
  { unfold getClientIp in Hip. destruct (if shouldTrustProxy then _ else _).
    - now injection Hip as _ <-.
    - injection Hip as _ <-. destruct (_ && _); reflexivity. }
  unfold now, logged, limited, runHandler.
  cbn [limiter trustProxyWarned console inner dateNow fst snd].
  destruct (rateLimit redis ip_ _) as [allowed l1].
  destruct allowed; cbn [negb fst snd limiter inner].
  - unfold handler.
    destruct (if bodyTooLarge _ then _ else _) as [t c'].
    rewrite Hinner. fold (handled t).
    destruct (handled t) as [[response|e] w'] eqn:Hrun; cbn [fst snd inner].
    + split; [|now exists t].
      eapply handleAssembleVideo_status. exact Hrun.
    + right. split; [reflexivity|]. split; [reflexivity|].
      split; [reflexivity|]. exists e, t. split; [exact Hrun | reflexivity].
  - left. split; [reflexivity|]. split; [reflexivity | exact Hinner].
Qed.

End ApiFacts.

Module ApiClientFacts.
Import ApiClient.

Lemma fetches_app (h1 h2 : list Event) :
  fetches (h1 ++ h2) = fetches h1 + fetches h2.
Proof. unfold fetches. now rewrite filter_app, length_app. Qed.

Lemma fetches_retriedAttempts (k : nat) : fetches (retriedAttempts k) = k.
Proof.
  induction k as [|k IH]; [reflexivity|].
  simpl. rewrite fetches_app, IH. unfold fetches. simpl. lia.
Qed.

Section Loop.
Context {Res : Type}.
Variable statusOf : Res -> Z.
Variable fetch : list Event -> Res + Thrown.
Variable retries : Z.

(** The loop from attempt [k0] on, [remaining] being [retries + 1 - k0]. *)
Lemma fetchLoop_run (remaining k0 : nat) (lastRes : option Res) :
  (Z.of_nat k0 + Z.of_nat remaining = retries + 1)%Z -> 1 <= remaining ->
  exists k,
    k0 <= k /\ (Z.of_nat k <= retries)%Z
    /\ snd (fetchLoop statusOf fetch retries remaining (Z.of_nat k0) lastRes
              (retriedAttempts k0))
       = retriedAttempts k ++ [Fetch]
    /\ (forall j, k0 <= j < k ->
          retried statusOf (fetch (retriedAttempts j)) = true)
    /\ fst (fetchLoop statusOf fetch retries remaining (Z.of_nat k0) lastRes
              (retriedAttempts k0))
       = match fetch (retriedAttempts k) with
         | inl res => Returned (Some res)
         | inr e => Threw e
         end
    /\ (retried statusOf (fetch (retriedAttempts k)) = true ->
        Z.of_nat k = retries).
Proof.
  revert k0 lastRes. induction remaining as [|remaining IH]; intros k0 lastRes Hsum Hr;
    [lia|].
  cbn [fetchLoop].
  assert (Hnext : forall lastRes',
             Z.of_nat k0 <> retries ->
             retried statusOf (fetch (retriedAttempts k0)) = true ->
             exists k,
               k0 <= k /\ (Z.of_nat k <= retries)%Z
               /\ snd (fetchLoop statusOf fetch retries remaining (Z.of_nat k0 + 1)
                         lastRes'
                         (retriedAttempts k0 ++ [Fetch; Wait (backoffMs (Z.of_nat k0))]))
                  = retriedAttempts k ++ [Fetch]
               /\ (forall j, k0 <= j < k ->
                     retried statusOf (fetch (retriedAttempts j)) = true)
               /\ fst (fetchLoop statusOf fetch retries remaining (Z.of_nat k0 + 1)
                         lastRes'
                         (retriedAttempts k0 ++ [Fetch; Wait (backoffMs (Z.of_nat k0))]))
                  = match fetch (retriedAttempts k) with
                    | inl res => Returned (Some res)
                    | inr e => Threw e
                    end
               /\ (retried statusOf (fetch (retriedAttempts k)) = true ->
                   Z.of_nat k = retries)).
  { intros lastRes' Hne Hretried.
    destruct (IH (S k0) lastRes') as (k & Hk & Hle & Hh & Hall & Hout & Hlast);
      [lia | lia |].
    replace (Z.of_nat (S k0)) with (Z.of_nat k0 + 1)%Z in Hh, Hout by lia.
    change (retriedAttempts (S k0))
      with (retriedAttempts k0 ++ [Fetch; Wait (backoffMs (Z.of_nat k0))]) in Hh, Hout.
    exists k. split; [lia|]. split; [exact Hle|]. split; [exact Hh|].
    split; [|split; [exact Hout | exact Hlast]].
    intros j Hj. destruct (Nat.eq_dec j k0) as [->|Hne']; [exact Hretried|].
    apply Hall. lia. }
  assert (Hstop : forall out,
             (retried statusOf (fetch (retriedAttempts k0)) = true ->
              Z.of_nat k0 = retries) ->
             out = match fetch (retriedAttempts k0) with
                   | inl res => Returned (Some res)
                   | inr e => Threw e
                   end ->
             exists k,
               k0 <= k /\ (Z.of_nat k <= retries)%Z
               /\ retriedAttempts k0 ++ [Fetch] = retriedAttempts k ++ [Fetch]
               /\ (forall j, k0 <= j < k ->
                     retried statusOf (fetch (retriedAttempts j)) = true)
               /\ out = match fetch (retriedAttempts k) with
                        | inl res => Returned (Some res)
                        | inr e => Threw e
                        end
               /\ (retried statusOf (fetch (retriedAttempts k)) = true ->
                   Z.of_nat k = retries)).
  { intros out Hlast Hout. exists k0. split; [lia|]. split; [lia|].
    split; [reflexivity|]. split; [intros j Hj; lia|]. split; assumption. }
  destruct (fetch (retriedAttempts k0)) as [res|e] eqn:Hf.
  - destruct (ok statusOf res) eqn:Hok; cbn [fst snd].
    + apply Hstop; [|reflexivity]. simpl. rewrite Hok. discriminate.
    + destruct (500 <=? statusOf res)%Z eqn:H500; cbn [andb].
      * destruct (Z.ltb_spec (Z.of_nat k0) retries) as [Hlt|Hge].
        -- apply Hnext; [lia|]. simpl. now rewrite Hok, H500.
        -- cbn [fst snd]. apply Hstop; [|reflexivity]. intros _. lia.
      * cbn [fst snd]. apply Hstop; [|reflexivity]. simpl.
        rewrite Hok, H500. discriminate.
  - destruct (isAbort e) eqn:Ha; cbn [fst snd].
    + apply Hstop; [|reflexivity]. simpl. rewrite Ha. discriminate.
    + destruct (Z.eqb_spec (Z.of_nat k0) retries) as [Heq|Hne]; cbn [fst snd].
      * apply Hstop; [|reflexivity]. intros _. exact Heq.
      * apply Hnext; [exact Hne|]. simpl. now rewrite Ha.
Qed.

End Loop.

(** X13.  [fetchWithRetry] with an integer [retries >= 0] calls [fetch] at most
    [retries + 1] times.  Its run is [k] attempts that were tried again
    (a response of status 500 or more, or a thrown value that is not an
    abort), the [j]-th of them followed by a wait of [1000 * 2^j] ms, then
    one last call of [fetch], whose settlement is the outcome: its
    response is returned, its thrown value is thrown.  The last attempt is
    one that would have been tried again only when the retries are used
    up: an ok response, a response of status below 500 and an abort end
    the run at once.  With [retries < 0] nothing is fetched and the
    promise resolves with [null]. *)
Theorem fetchWithRetry_attempts {Res : Type} (statusOf : Res -> Z)
    (fetch : list Event -> Res + Thrown) (retries : Z) :
  let outcome := fst (fetchWithRetry statusOf fetch retries) in
  let history := snd (fetchWithRetry statusOf fetch retries) in
  ((retries < 0)%Z /\ history = [] /\ outcome = Returned None)
  \/ ((0 <= retries)%Z
      /\ (Z.of_nat (fetches history) <= retries + 1)%Z
      /\ exists k,
           (Z.of_nat k <= retries)%Z
           /\ history = retriedAttempts k ++ [Fetch]
           /\ (forall j, j < k -> retried statusOf (fetch (retriedAttempts j)) = true)
           /\ outcome = match fetch (retriedAttempts k) with
                        | inl res => Returned (Some res)
                        | inr e => Threw e
                        end
           /\ (retried statusOf (fetch (retriedAttempts k)) = true ->
               Z.of_nat k = retries)).
Proof.
  intros outcome history.
  destruct (Z_lt_ge_dec retries 0) as [Hneg|Hpos].
  - left. split; [exact Hneg|].
    unfold history, outcome, fetchWithRetry.
    replace (Z.to_nat (retries + 1)) with 0 by lia. split; reflexivity.
  - right. split; [lia|].
    destruct (fetchLoop_run statusOf fetch retries (Z.to_nat (retries + 1)) 0 None)
      as (k & _ & Hle & Hh & Hall & Hout & Hlast); [lia | lia |].
    change (fetchLoop statusOf fetch retries (Z.to_nat (retries + 1)) (Z.of_nat 0)
              None (retriedAttempts 0))
      with (fetchWithRetry statusOf fetch retries) in Hh, Hout.
    fold history in Hh. fold outcome in Hout. split.
    + rewrite Hh, fetches_app, fetches_retriedAttempts. unfold fetches. simpl. lia.
    + exists k. split; [exact Hle|]. split; [exact Hh|].
      split; [intros j Hj; apply Hall; lia|]. split; [exact Hout | exact Hlast].
Qed.

(** The default policy against a server that always answers 503: three
    calls, waits of 1000 and 2000 ms between them, and the third response
    returned. *)
Example fetchWithRetry_default_backoff :
  fetchWithRetry (fun status : Z => status) (fun _ => inl 503%Z) DEFAULT_RETRIES
  = (Returned (Some 503%Z), [Fetch; Wait 1000; Fetch; Wait 2000; Fetch]).
Proof. reflexivity. Qed.

End ApiClientFacts.

Module VideoClientFacts.
Import VideoClient FloatOrder.

Lemma carried_json (x : float) : carried x = true -> jsonNumber x = JNumber x.
Proof.
  unfold carried, jsonNumber. destruct (Prim2SF x) as [[]| | |] eqn:E;
    try discriminate; intros _; [|reflexivity].
  f_equal. rewrite <- (SF2Prim_Prim2SF x), E. reflexivity.
Qed.

Lemma carried_notNaN (x : float) : carried x = true -> isNaN x = false.
Proof.
  unfold carried, isNaN. rewrite eqb_spec. unfold SFeqb.
  destruct (Prim2SF x) as [[]| | |s m e]; try discriminate; intros _;
    simpl; try reflexivity.
  rewrite Z.compare_refl, Pos.compare_cont_refl. now destruct s.
Qed.

(** The schema reads back what the client wrote. *)
Lemma parse_acceptable (asset : SceneAssets) :
  acceptable asset = true -> parseSceneAsset (sceneAssetJson asset) = Some asset.
Proof.
  unfold acceptable. intros H.
  repeat (apply andb_true_iff in H as [H ?]).
  destruct asset as [idx image video audio duration narr]; cbn [sceneIndex
    imageBase64 videoBase64 audioBase64 durationSeconds narration] in *.
  unfold parseSceneAsset, sceneAssetJson.
  cbn [sceneIndex imageBase64 videoBase64 audioBase64 durationSeconds narration].
  rewrite !carried_json by assumption.
  assert (Hidx : zIndex (Some (JNumber idx)) = Some idx).
  { unfold zIndex, zNumber. rewrite carried_notNaN by assumption.
    now rewrite H5, H4. }
  assert (Hdur : zPositive (Some (JNumber duration)) = Some duration).
  { unfold zPositive, zNumber. rewrite carried_notNaN by assumption. now rewrite H0. }
  assert (Haudio : zNonEmpty (Some (JString audio)) = Some audio).
  { unfold zNonEmpty, zString. destruct audio; [discriminate | reflexivity]. }
  destruct image as [image|], video as [video|]; try discriminate;
    destruct narr as [narr|]; cbn [optionalKey app getProp];
    repeat (rewrite ?bool_decide_eq_true_2 by reflexivity;
            rewrite ?bool_decide_eq_false_2 by (vm_compute; discriminate));
    rewrite Hidx, Hdur, Haudio; cbn [zOptional zNonEmpty zString option_map].
  all: try (destruct image; [discriminate|]); try (destruct video; [discriminate|]).
  all: reflexivity.
Qed.

Lemma parseScenes_acceptable (scenes_ : list SceneAssets) :
  forallb acceptable scenes_ = true ->
  parseScenes (List.map sceneAssetJson scenes_) = Some scenes_.
Proof.
  induction scenes_ as [|asset rest IH]; [reflexivity|].
  cbn [forallb List.map parseScenes]. intros H.
  apply andb_true_iff in H as [Ha Hrest].
  now rewrite (parse_acceptable asset Ha), (IH Hrest).
Qed.

(** X14.  What the client writes, the server reads back: the body that
    [assembleVideo] posts for one to [MAX_SCENES] acceptable assets (a
    non-negative integer index, exactly one of a non-empty image and a
    non-empty video, a non-empty audio, a finite positive duration) passes
    the schema of the route, and the data parsed are those very assets
    and the captions flag. *)
Theorem assembleBody_accepted (scenes_ : list SceneAssets) (captions_ : bool) :
  1 <= length scenes_ -> length scenes_ <= MAX_SCENES ->
  forallb acceptable scenes_ = true ->
  safeParse (assembleBody scenes_ captions_)
  = Some {| Schema.scenes := scenes_; Schema.captions := captions_ |}.
Proof.
  intros Hmin Hmax Hall. unfold safeParse, assembleBody.
  cbn [getProp]. rewrite bool_decide_eq_true_2 by reflexivity.
  rewrite length_map.
  destruct (Nat.leb_spec 1 (length scenes_)) as [_|]; [|lia].
  destruct (Nat.leb_spec (length scenes_) MAX_SCENES) as [_|]; [|lia].
  cbn [andb]. rewrite (parseScenes_acceptable scenes_ Hall).
  rewrite bool_decide_eq_false_2 by (vm_compute; discriminate).
  rewrite bool_decide_eq_true_2 by reflexivity. reflexivity.
Qed.

(** *** The duration of a generated asset *)

Lemma bounded_notNaN (x : float) : bounded x = true -> isNaN x = false.
Proof.
  unfold bounded, isNaN. rewrite eqb_spec. unfold SFeqb.
  destruct (Prim2SF x) as [[]|[]| |s m e]; try discriminate; intros _;
    simpl; try reflexivity.
  rewrite Z.compare_refl, Pos.compare_cont_refl. now destruct s.
Qed.

(** A bounded number that is not below 3 is finite and positive. *)
Lemma bounded_not_below_3 (x : float) :
  bounded x = true -> PrimFloat.ltb x 3 = false ->
  carried x = true /\ PrimFloat.ltb 0 x = true.
Proof.
  unfold bounded, carried. rewrite !ltb_spec. unfold SFltb.
  change (Prim2SF 0) with (S754_zero false).
  let v := eval vm_compute in (Prim2SF 3) in change (Prim2SF 3) with v.
  destruct (Prim2SF x) as [[]|[]| |[] m e]; intros Hb Hlt;
    try discriminate Hb; try (split; reflexivity);
    exfalso; cbn [SFcompare] in Hlt; discriminate Hlt.
Qed.

Lemma mathMax_bounded (a b : float) :
  bounded a = true -> bounded b = true -> bounded (mathMax a b) = true.
Proof.
  intros Ha Hb. unfold mathMax.
  rewrite (bounded_notNaN a Ha), (bounded_notNaN b Hb). simpl.
  now destruct (PrimFloat.ltb a b).
Qed.

(** [Math.max(..., 3)] of bounded numbers is a duration that JSON carries
    and the schema accepts. *)
Lemma mathMax_3 (a : float) :
  bounded a = true ->
  carried (mathMax a 3) = true /\ PrimFloat.ltb 0 (mathMax a 3) = true.
Proof.
  intros Ha. unfold mathMax. rewrite (bounded_notNaN a Ha).
  change (isNaN 3) with false. simpl.
  destruct (PrimFloat.ltb a 3) eqn:Hlt; [split; reflexivity|].
  now apply bounded_not_below_3.
Qed.

(** X15.  An asset that [generateSceneAsset] returns is acceptable to the
    schema of the assemble route, and is parsed back as it is, when the
    index is a non-negative integer, the routes answer with non-empty
    data, and the durations measured are numbers below infinity.  The
    asset carries the index it was asked for and the audio the audio
    route answered with; with [useVideo] it holds the video the video
    route answered with and no image, and its duration is [Math.max] of
    the duration of that video, the duration measured of the audio and 3;
    without, it holds the image the image route answered with and no
    video, and its duration is [Math.max] of the duration measured of the
    audio and 3; and its narration is the scene's with [captions], absent
    without. *)
Theorem generated_asset_accepted
    (generateVideo : VideoRequest -> FetchJson VideoData + Thrown)
    (generateImage : ImageRequest -> FetchJson ImageData + Thrown)
    (generateAudio : AudioRequest -> FetchJson AudioData + Thrown)
    (getAudioDuration : jsstring -> option jsstring -> float + Thrown)
    (audioSettlesFirst : bool) (scene : Scene) (sceneIndex_ : float)
    (options : GenerateSceneAssetOptions) (asset : SceneAssets) :
  carried sceneIndex_ && isInteger sceneIndex_ && PrimFloat.leb 0 sceneIndex_ = true ->
  (forall request data, generateVideo request = inl (JsonOk data) ->
     truthy (vd_videoBase64 data) && bounded (vd_durationSeconds data) = true) ->
  (forall request data, generateImage request = inl (JsonOk data) ->
     truthy (id_imageBase64 data) = true) ->
  (forall request data, generateAudio request = inl (JsonOk data) ->
     truthy (ad_audioBase64 data) = true) ->
  (forall audio contentType seconds,
     getAudioDuration audio contentType = inl seconds -> bounded seconds = true) ->
  generateSceneAsset generateVideo generateImage generateAudio getAudioDuration
    audioSettlesFirst scene sceneIndex_ options = inl asset ->
  acceptable asset = true
  /\ parseSceneAsset (sceneAssetJson asset) = Some asset
  /\ narration asset
     = (if captions options then Some (scene_narration scene) else None)
  /\ (if match useVideo options with Some b => b | None => false end
      then imageBase64 asset = None /\ videoBase64 asset <> None
      else imageBase64 asset <> None /\ videoBase64 asset = None)
  /\ sceneIndex asset = sceneIndex_
  /\ exists audio seconds,
       generateAudio {| ar_text := scene_narration scene; ar_voice := voice options;
                        ar_draft := draft options |} = inl (JsonOk audio)
       /\ getAudioDuration (ad_audioBase64 audio) (ad_contentType audio) = inl seconds
       /\ audioBase64 asset = ad_audioBase64 audio
       /\ (if match useVideo options with Some b => b | None => false end
           then exists request visual,
                  generateVideo request = inl (JsonOk visual)
                  /\ videoBase64 asset = Some (vd_videoBase64 visual)
                  /\ durationSeconds asset
                     = mathMax (mathMax (vd_durationSeconds visual) seconds) 3
           else exists request visual,
                  generateImage request = inl (JsonOk visual)
                  /\ imageBase64 asset = Some (id_imageBase64 visual)
                  /\ durationSeconds asset = mathMax seconds 3).
Proof.
  intros Hidx Hvideo Himage Haudio Hduration Hrun.
  apply andb_true_iff in Hidx as [Hidx Hleb].
  apply andb_true_iff in Hidx as [Hcarried Hint].
  assert (Hacc : acceptable asset = true
                 /\ narration asset
                    = (if captions options then Some (scene_narration scene) else None)
                 /\ (if match useVideo options with Some b => b | None => false end
                     then imageBase64 asset = None /\ videoBase64 asset <> None
                     else imageBase64 asset <> None /\ videoBase64 asset = None)
                 /\ sceneIndex asset = sceneIndex_
                 /\ exists audio seconds,
                      generateAudio {| ar_text := scene_narration scene;
                                       ar_voice := voice options;
                                       ar_draft := draft options |}
                      = inl (JsonOk audio)
                      /\ getAudioDuration (ad_audioBase64 audio) (ad_contentType audio)
                         = inl seconds
                      /\ audioBase64 asset = ad_audioBase64 audio
                      /\ (if match useVideo options with Some b => b | None => false end
                          then exists request visual,
                                 generateVideo request = inl (JsonOk visual)
                                 /\ videoBase64 asset = Some (vd_videoBase64 visual)
                                 /\ durationSeconds asset
                                    = mathMax (mathMax (vd_durationSeconds visual) seconds) 3
                          else exists request visual,
                                 generateImage request = inl (JsonOk visual)
                                 /\ imageBase64 asset = Some (id_imageBase64 visual)
                                 /\ durationSeconds asset = mathMax seconds 3)).
  { unfold generateSceneAsset in Hrun.
    destruct (match useVideo options with Some b => b | None => false end).
    - destruct (generateVideo _) as [visualResult|e1] eqn:Hv;
        destruct (generateAudio _) as [audioResult|e2] eqn:Ha;
        cbn [promiseAll] in Hrun; try discriminate.
      unfold finishAsset in Hrun.
      destruct visualResult as [visual|]; [|discriminate].
      destruct audioResult as [audio|]; [|discriminate].
      destruct (getAudioDuration _ _) as [seconds|] eqn:Hd; [|discriminate].
      injection Hrun as <-.
      pose proof (Hvideo _ _ Hv) as Hv'. apply andb_true_iff in Hv' as [Hv1 Hv2].
      pose proof (Haudio _ _ Ha) as Ha'. pose proof (Hduration _ _ _ Hd) as Hd'.
      destruct (mathMax_3 (mathMax (vd_durationSeconds visual) seconds))
        as [Hc Hp]; [now apply mathMax_bounded|].
      unfold acceptable. cbn [sceneIndex imageBase64 videoBase64 audioBase64
                              durationSeconds narration].
      rewrite Hcarried, Hint, Hleb, Hv1, Ha', Hc, Hp.
      split; [reflexivity|]. split; [reflexivity|].
      split; [split; [reflexivity | discriminate]|]. split; [reflexivity|].
      exists audio, seconds. split; [reflexivity|]. split; [exact Hd|].
      split; [reflexivity|]. eexists _, visual. split; [exact Hv|].
      split; reflexivity.
    - destruct (generateImage _) as [visualResult|e1] eqn:Hv;
        destruct (generateAudio _) as [audioResult|e2] eqn:Ha;
        cbn [promiseAll] in Hrun; try discriminate.
      unfold finishAsset in Hrun.
      destruct visualResult as [visual|]; [|discriminate].
      destruct audioResult as [audio|]; [|discriminate].
      destruct (getAudioDuration _ _) as [seconds|] eqn:Hd; [|discriminate].
      injection Hrun as <-.
      pose proof (Himage _ _ Hv) as Hv'.
      pose proof (Haudio _ _ Ha) as Ha'. pose proof (Hduration _ _ _ Hd) as Hd'.
      destruct (mathMax_3 seconds Hd') as [Hc Hp].
      unfold acceptable. cbn [sceneIndex imageBase64 videoBase64 audioBase64
                              durationSeconds narration].
      rewrite Hcarried, Hint, Hleb, Hv', Ha', Hc, Hp.
      split; [reflexivity|]. split; [reflexivity|].
      split; [split; [discriminate | reflexivity]|]. split; [reflexivity|].
      exists audio, seconds. split; [reflexivity|]. split; [exact Hd|].
      split; [reflexivity|]. eexists _, visual. split; [exact Hv|].
      split; reflexivity. }
  destruct Hacc as (Hacc & Hn & Hv & Hi & Hd).
  split; [exact Hacc|]. split; [now apply parse_acceptable|].
  split; [exact Hn|]. split; [exact Hv|]. split; [exact Hi | exact Hd].
Qed.

End VideoClientFacts.

Module PoolStatesFacts.
Import Pool PoolInvariant PoolStates.

Section Facts.
Context {T R E : Type}.
Variable fn : T -> nat -> R + E.
Variable items : list T.
Variable concurrency : nat.

Lemma busy_le_length (ws : list (option nat)) : busy ws <= length ws.
Proof.
  unfold busy, awaiting. generalize 0.
  induction ws as [|[i|] ws IH]; intros w0; simpl; [lia| |].
  - specialize (IH (S w0)). lia.
  - specialize (IH (S w0)). lia.
Qed.

Lemma resume_workers (st st' : State R) (w : nat) :
  resume fn items st w = inl st' -> length (workers st') = length (workers st).
Proof.
  unfold resume.
  destruct (workers st !! w) as [[i|]|]; try (now intros [= <-]).
  destruct (items !! i) as [item|]; [|now intros [= <-]].
  destruct (fn item i) as [value|err]; [|discriminate].
  destruct (claim items (nextIndex st)) as [next_w next'].
  intros [= <-]. simpl. apply length_insert.
Qed.

Lemma start_workers : length (workers (start (R := R) items concurrency))
                      = Nat.min concurrency (length items).
Proof.
  unfold start. rewrite PoolClaims.spawn_seq by lia. simpl.
  now rewrite length_map, length_seq.
Qed.

Lemma reachable_workers (st : State R) :
  reachable fn items concurrency st ->
  length (workers st) = Nat.min concurrency (length items).
Proof.
  induction 1 as [|st st' w _ IH _ Hstep]; [apply start_workers|].
  rewrite (resume_workers st st' w Hstep). exact IH.
Qed.

Lemma reachable_inv (st : State R) :
  1 <= concurrency ->
  reachable fn items concurrency st -> Inv fn items st.
Proof.
  intros Hc. induction 1 as [|st st' w _ IH Hw Hstep].
  - now apply PoolClaims.start_inv.
  - pose proof (PoolClaims.resume_step fn items st w IH Hw) as H.
    rewrite Hstep in H. apply H.
Qed.

End Facts.

(** X16.  The pool keeps to its bound.  In every state of a run, whichever
    awaited task settles when: the tasks in flight are never more than
    [concurrency], nor than the items; no task is in flight twice; every
    task in flight or done has an index below the cursor, which is at
    most the number of items: the tasks are started in input order, each
    once. *)
Theorem pool_never_exceeds_concurrency {T R E : Type}
    (fn : T -> nat -> R + E) (items : list T) (concurrency : nat)
    (st : State R) :
  1 <= concurrency ->
  reachable fn items concurrency st ->
  busy (workers st) <= Nat.min concurrency (length items)
  /\ nextIndex st <= length items
  /\ (forall w i, workers st !! w = Some (Some i) -> i < nextIndex st)
  /\ (forall w w' i, workers st !! w = Some (Some i) ->
        workers st !! w' = Some (Some i) -> w = w')
  /\ (forall j v, results st !! j = Some (Some v) ->
        exists item, items !! j = Some item /\ fn item j = inl v).
Proof.
  intros Hc Hreach.
  pose proof (reachable_workers fn items concurrency st Hreach) as Hlen.
  pose proof (reachable_inv fn items concurrency st Hc Hreach) as HI.
  split; [rewrite <- Hlen; apply busy_le_length|].
  split; [exact (inv_next st HI)|].
  split; [exact (inv_claimed st HI)|].
  split; [exact (inv_distinct st HI) | exact (inv_sound st HI)].
Qed.

End PoolStatesFacts.

Module RetryWaitFacts.
Import Retry RetryWait.

Lemma totalWait_app (h1 h2 : list Event) :
  totalWait (h1 ++ h2) = (totalWait h1 + totalWait h2)%Z.
Proof.
  induction h1 as [|[|ms] h1 IH]; simpl; [reflexivity | exact IH | lia].
Qed.

Lemma totalWait_failedAttempts (ms : Z) (k : nat) :
  totalWait (failedAttempts ms k) = (ms * (2 ^ Z.of_nat k - 1))%Z.
Proof.
  induction k as [|k IH]; [simpl; lia|].
  cbn [failedAttempts]. rewrite totalWait_app, IH. cbn [totalWait].
  rewrite Nat2Z.inj_succ, Z.pow_succ_r by lia. lia.
Qed.

(** X17.  The time [withRetry] spends waiting.  For options whose
    [attempts] is a whole number [n >= 1] (given, or the default 3) and
    whose [initialMs] is [ms >= 0] (given, or the default 1000), a run
    that invokes the operation [m] times has waited [ms * (2^(m-1) - 1)]
    ms in all, which is at most [ms * (2^(n-1) - 1)]: at most 3000 ms
    when the options give neither. *)
Theorem withRetry_total_wait {T E : Type} (fn : list Event -> T + E)
    (options : Options) (n ms : Z) :
  wholeAttempts options n -> delayOf options ms ->
  (1 <= n)%Z -> (0 <= ms)%Z ->
  let history := snd (withRetry fn options) in
  1 <= invocations history
  /\ totalWait history = (ms * (2 ^ Z.of_nat (invocations history - 1) - 1))%Z
  /\ (totalWait history <= ms * (2 ^ (n - 1) - 1))%Z
  /\ (attempts options = None -> initialMs options = None ->
      (totalWait history <= 3000)%Z).
Proof.
  intros Hn Hms Ha Hpos history.
  pose proof (RetryClaims.withRetry_whole fn options n ms Hn Hms) as Hrun.
  destruct (RetryClaims.retryLoop_run fn (attemptsOf options) n ms
              (RetryClaims.wholeAttempts_attemptsOf options n Hn)
              (Z.to_nat n) 0 None)
    as (k & Hk & Hh & _ & _); [lia | lia |].
  change (retryLoop fn (attemptsOf options) ms (Z.to_nat n) (Z.of_nat 0) None
            (failedAttempts ms 0))
    with (retryLoop fn (attemptsOf options) ms (Z.to_nat n) 0%Z None []) in Hh.
  rewrite <- Hrun in Hh. fold history in Hh.
  assert (Hinv : invocations history = S k).
  { rewrite Hh, RetryClaims.invocations_app, RetryClaims.invocations_failedAttempts.
    unfold invocations. simpl. lia. }
  assert (Hw : totalWait history = (ms * (2 ^ Z.of_nat k - 1))%Z).
  { rewrite Hh, totalWait_app, totalWait_failedAttempts. simpl. lia. }
  assert (Hbound : (totalWait history <= ms * (2 ^ (n - 1) - 1))%Z).
  { rewrite Hw. apply Z.mul_le_mono_nonneg_l; [exact Hpos|].
    apply Z.sub_le_mono_r. apply Z.pow_le_mono_r; lia. }
  rewrite Hinv. replace (S k - 1) with k by lia.
  split; [lia|]. split; [exact Hw|]. split; [exact Hbound|].
  intros Hnone Hnone'. unfold wholeAttempts in Hn. unfold delayOf in Hms.
  rewrite Hnone in Hn. rewrite Hnone' in Hms. subst n ms. exact Hbound.
Qed.

End RetryWaitFacts.

Module DebounceFacts.
Import Debounce.

Section Facts.
Context {Args : Type}.
Variable callbackThrows : list (Invocation Args) -> Args -> bool.

(** What holds of the state after the calls [cs]: at most the timer of
    [timeoutRef] is armed, its id was handed out, every invocation was
    made with arguments of a call, and the invocations from which the
    callback returned are part of what was called, the pending arguments
    being the last call's and not yet among them. *)
Local Abbreviation inv :=
  (fun (st : State Args) (cs : list Args) =>
     (forall t, t ∈ armed st -> timeoutRef st = Some t)
     /\ (forall t, timeoutRef st = Some t -> t < nextTimer st)
     /\ Forall (fun d : Invocation Args => In d.1 cs) (invoked st)
     /\ match pendingArgsRef st with
        | Some args =>
            exists cs', cs = cs' ++ [args] /\ sublist (returned (invoked st)) cs'
        | None => sublist (returned (invoked st)) cs
        end).

Lemma clearPending_empty (st : State Args) :
  (forall t, t ∈ armed st -> timeoutRef st = Some t) -> clearPending st = ∅.
Proof.
  intros H. unfold clearPending. apply set_eq. intros t.
  split; [|intros Ht; apply elem_of_empty in Ht; contradiction].
  destruct (timeoutRef st) as [t0|] eqn:E.
  - intros Ht. apply elem_of_difference in Ht as [Ht Hne].
    specialize (H t Ht). injection H as ->.
    exfalso. apply Hne. now apply elem_of_singleton.
  - intros Ht. specialize (H t Ht). discriminate.
Qed.

Lemma returned_app (h1 h2 : list (Invocation Args)) :
  returned (h1 ++ h2) = returned h1 ++ returned h2.
Proof.
  induction h1 as [|[args []] h1 IH]; simpl; [reflexivity | exact IH|].
  now rewrite IH.
Qed.

(** The delivery keeps the invariant of the invocations. *)
Lemma deliver_inv (st : State Args) (cs : list Args) :
  Forall (fun d : Invocation Args => In d.1 cs) (invoked st) ->
  match pendingArgsRef st with
  | Some args => exists cs', cs = cs' ++ [args] /\ sublist (returned (invoked st)) cs'
  | None => sublist (returned (invoked st)) cs
  end ->
  Forall (fun d : Invocation Args => In d.1 cs) (deliver callbackThrows st).1
  /\ match (deliver callbackThrows st).2 with
     | Some args =>
         exists cs', cs = cs' ++ [args]
                     /\ sublist (returned (deliver callbackThrows st).1) cs'
     | None => sublist (returned (deliver callbackThrows st).1) cs
     end.
Proof.
  unfold deliver. destruct (pendingArgsRef st) as [args|]; [|auto].
  intros Hall (cs' & -> & Hsub). cbn [fst snd]. split.
  - apply Forall_app. split; [exact Hall|].
    constructor; [|constructor]. cbn [fst]. apply in_or_app. right. now left.
  - rewrite returned_app. cbn [returned].
    destruct (callbackThrows (invoked st) args).
    + exists cs'. split; [reflexivity|]. now rewrite app_nil_r.
    + apply sublist_app; [exact Hsub | reflexivity].
Qed.

Lemma step_inv (st : State Args) (cs : list Args) (ev : Event Args) :
  inv st cs -> inv (step callbackThrows st ev) (cs ++ called [ev]).
Proof.
  intros (Harmed & Hid & Hall & Hpend).
  pose proof (clearPending_empty st Harmed) as Hclear.
  pose proof (deliver_inv st cs Hall Hpend) as [Hall' Hpend'].
  assert (Hsub : sublist (returned (invoked st)) cs).
  { destruct (pendingArgsRef st) as [args|]; [|exact Hpend].
    destruct Hpend as (cs' & -> & H). now apply sublist_inserts_r. }
  destruct ev as [args| |t|]; cbn [step called].
  - unfold debounced. cbn. rewrite Hclear. split; [|split; [|split]].
    + intros t Ht. f_equal. rewrite (left_id_L ∅ (∪)) in Ht.
      apply elem_of_singleton in Ht. now symmetry.
    + intros t [= <-]. lia.
    + eapply List.Forall_impl; [|exact Hall]. intros d Hd. apply in_or_app. now left.
    + exists cs. split; [reflexivity | exact Hsub].
  - rewrite app_nil_r. unfold flush. cbn. rewrite Hclear. split; [|split; [|split]].
    + intros t Ht. apply elem_of_empty in Ht. contradiction.
    + discriminate.
    + exact Hall'.
    + exact Hpend'.
  - rewrite app_nil_r. unfold fire. case_bool_decide as Ht.
    + cbn. split; [|split; [|split]].
      * intros t' Ht'. apply elem_of_difference in Ht' as [Ht' Hne].
        pose proof (Harmed t Ht) as H1. pose proof (Harmed t' Ht') as H2.
        rewrite H1 in H2. injection H2 as ->.
        exfalso. apply Hne. now apply elem_of_singleton.
      * discriminate.
      * exact Hall'.
      * exact Hpend'.
    + split; [exact Harmed|]. split; [exact Hid|]. split; [exact Hall | exact Hpend].
  - rewrite app_nil_r. unfold unmount. cbn. rewrite Hclear. split; [|split; [|split]].
    + intros t Ht. apply elem_of_empty in Ht. contradiction.
    + exact Hid.
    + exact Hall.
    + exact Hpend.
Qed.

Lemma called_app (e1 e2 : list (Event Args)) :
  called (e1 ++ e2) = called e1 ++ called e2.
Proof.
  induction e1 as [|[args| |t|] e1 IH]; simpl; try exact IH; [reflexivity|].
  now rewrite IH.
Qed.

Lemma run_inv (events : list (Event Args)) :
  inv (run callbackThrows events) (called events).
Proof.
  induction events as [|ev events IH] using rev_ind.
  - cbn. split; [|split; [discriminate | split; constructor]].
    intros t Ht. apply elem_of_empty in Ht. contradiction.
  - unfold run in *. rewrite fold_left_app, called_app. cbn [fold_left].
    now apply step_inv.
Qed.

(** With a callback that never throws, every invocation returns. *)
Lemma step_all_returned (st : State Args) (ev : Event Args) :
  (forall h args, callbackThrows h args = false) ->
  returned (invoked st) = List.map fst (invoked st) ->
  returned (invoked (step callbackThrows st ev))
  = List.map fst (invoked (step callbackThrows st ev)).
Proof.
  intros Hnever Hst.
  assert (Hd : returned (deliver callbackThrows st).1
               = List.map fst (deliver callbackThrows st).1).
  { unfold deliver. destruct (pendingArgsRef st) as [args|]; [|exact Hst].
    cbn [fst]. rewrite returned_app, map_app, Hst, Hnever. reflexivity. }
  destruct ev as [args| |t|]; cbn [step]; try exact Hst; [exact Hd|].
  unfold fire. case_bool_decide; [exact Hd | exact Hst].
Qed.

Lemma run_all_returned (events : list (Event Args)) :
  (forall h args, callbackThrows h args = false) ->
  returned (invoked (run callbackThrows events))
  = List.map fst (invoked (run callbackThrows events)).
Proof.
  intros Hnever. induction events as [|ev events IH] using rev_ind; [reflexivity|].
  unfold run in *. rewrite fold_left_app. cbn [fold_left].
  now apply step_all_returned.
Qed.

End Facts.

(** X18.  Whatever the calls, flushes, timers firing and the unmount, and
    in whatever order, and whether the callback throws or not: the
    callback is only ever invoked with arguments that [debounced] was
    called with; the invocations from which it returned are in the order
    of the calls, each call's at most once (an invocation that throws
    leaves its arguments pending, and they may be delivered again); with
    a callback that never throws, all the invocations are so; at most one
    timer is armed, the one of [timeoutRef]; and arguments still pending
    are those of the latest call. *)
Theorem debounce_delivers_what_was_called {Args : Type}
    (callbackThrows : list (Invocation Args) -> Args -> bool)
    (events : list (Event Args)) :
  let st := run callbackThrows events in
  Forall (fun d : Invocation Args => In d.1 (called events)) (invoked st)
  /\ sublist (returned (invoked st)) (called events)
  /\ ((forall h args, callbackThrows h args = false) ->
      sublist (List.map fst (invoked st)) (called events))
  /\ (forall t, t ∈ armed st -> timeoutRef st = Some t)
  /\ (forall args, pendingArgsRef st = Some args ->
        list.last (called events) = Some args).
Proof.
  intros st. destruct (run_inv callbackThrows events) as (Harmed & _ & Hall & Hpend).
  fold st in Harmed, Hall, Hpend.
  assert (Hsub : sublist (returned (invoked st)) (called events)).
  { destruct (pendingArgsRef st) as [args|]; [|exact Hpend].
    destruct Hpend as (cs' & -> & H). now apply sublist_inserts_r. }
  split; [exact Hall|]. split; [exact Hsub|]. split; [|split; [exact Harmed|]].
  - intros Hnever. unfold st.
    rewrite <- (run_all_returned callbackThrows events Hnever). exact Hsub.
  - intros args Hp. rewrite Hp in Hpend. destruct Hpend as (cs' & -> & _).
    apply last_snoc.
Qed.

(** X19.  A burst of calls: after one or more calls of [debounced] with
    no timer firing in between, only the timer of the last call is armed
    and the callback has not been invoked; the timers of the earlier
    calls do nothing.  When the armed timer fires, or at a flush, the
    callback is invoked once, with the arguments of the last call, and no
    timer is armed then.  When that invocation returns, nothing is
    pending: a second flush or a firing invokes nothing.  When it throws,
    the arguments stay pending, and the next flush invokes the callback
    with them again. *)
Theorem debounce_burst {Args : Type}
    (callbackThrows : list (Invocation Args) -> Args -> bool)
    (earlier : list Args) (latest : Args) :
  let st := run callbackThrows (List.map Call (earlier ++ [latest])) in
  let t := length earlier + 1 in
  let first := (latest, callbackThrows [] latest) in
  timeoutRef st = Some t
  /\ armed st = {[t]}
  /\ (forall t', t' <> t -> fire callbackThrows t' st = st)
  /\ invoked st = []
  /\ invoked (fire callbackThrows t st) = [first]
  /\ invoked (flush callbackThrows st) = [first]
  /\ armed (fire callbackThrows t st) = ∅
  /\ armed (flush callbackThrows st) = ∅
  /\ (forall t', fire callbackThrows t' (flush callbackThrows st)
                 = flush callbackThrows st)
  /\ (forall t', fire callbackThrows t' (fire callbackThrows t st)
                 = fire callbackThrows t st)
  /\ (callbackThrows [] latest = false ->
      pendingArgsRef (flush callbackThrows st) = None
      /\ pendingArgsRef (fire callbackThrows t st) = None
      /\ invoked (flush callbackThrows (flush callbackThrows st)) = [first]
      /\ invoked (flush callbackThrows (fire callbackThrows t st)) = [first])
  /\ (callbackThrows [] latest = true ->
      pendingArgsRef (flush callbackThrows st) = Some latest
      /\ pendingArgsRef (fire callbackThrows t st) = Some latest
      /\ invoked (flush callbackThrows (flush callbackThrows st))
         = [first; (latest, callbackThrows [first] latest)]
      /\ invoked (flush callbackThrows (fire callbackThrows t st))
         = [first; (latest, callbackThrows [first] latest)]).
Proof.
  intros st t first.
  assert (Hst : timeoutRef st = Some t /\ armed st = {[t]}
                /\ pendingArgsRef st = Some latest /\ invoked st = []
                /\ nextTimer st = S t).
  { unfold st, t. clear st t.
    assert (Hgen : forall (l : list Args) (s : State Args),
               (forall x, x ∈ armed s -> timeoutRef s = Some x) ->
               invoked s = [] ->
               let s' := fold_left (step callbackThrows)
                           (List.map Call (l ++ [latest])) s in
               timeoutRef s' = Some (nextTimer s + length l)
               /\ armed s' = {[nextTimer s + length l]}
               /\ pendingArgsRef s' = Some latest /\ invoked s' = []
               /\ nextTimer s' = S (nextTimer s + length l)).
    { induction l as [|a l IH]; intros s Harmed Hinv.
      - cbn. rewrite (clearPending_empty s Harmed), Nat.add_0_r.
        repeat split; try reflexivity; [apply (left_id_L ∅ (∪)) | exact Hinv].
      - cbn [app List.map fold_left step].
        specialize (IH (debounced a s)). cbn in IH.
        rewrite (clearPending_empty s Harmed) in IH.
        replace (nextTimer s + length (a :: l)) with (S (nextTimer s + length l))
          by (simpl; lia).
        apply IH; [|exact Hinv]. intros x Hx. f_equal.
        rewrite (left_id_L ∅ (∪)) in Hx. apply elem_of_singleton in Hx. now symmetry. }
    specialize (Hgen earlier mounted). cbn in Hgen.
    replace (length earlier + 1) with (S (length earlier)) by lia.
    apply Hgen; [|reflexivity].
    intros x Hx. apply elem_of_empty in Hx. contradiction. }
  destruct Hst as (Href & Harmed & Hpend & Hinv & Hnext).
  assert (Hdeliver : deliver callbackThrows st
                     = ([first], if callbackThrows [] latest then Some latest else None)).
  { unfold deliver. rewrite Hpend, Hinv. reflexivity. }
  assert (Hflush : flush callbackThrows st
                   = {| timeoutRef := None;
                        pendingArgsRef := if callbackThrows [] latest
                                          then Some latest else None;
                        armed := ∅; nextTimer := nextTimer st;
                        invoked := [first] |}).
  { unfold flush, clearPending. rewrite Hdeliver, Href, Harmed. cbn [fst snd].
    now rewrite difference_diag_L. }
  assert (Hfire : fire callbackThrows t st
                  = {| timeoutRef := None;
                       pendingArgsRef := if callbackThrows [] latest
                                         then Some latest else None;
                       armed := ∅; nextTimer := nextTimer st;
                       invoked := [first] |}).
  { unfold fire. rewrite bool_decide_eq_true_2
      by (rewrite Harmed; now apply elem_of_singleton).
    rewrite Hdeliver, Harmed. cbn [fst snd]. now rewrite difference_diag_L. }
  split; [exact Href|]. split; [exact Harmed|]. split; [|split; [exact Hinv|]].
  { intros t' Hne. unfold fire.
    rewrite bool_decide_eq_false_2; [reflexivity|]. rewrite Harmed.
    intros H. apply elem_of_singleton in H. contradiction. }
  split; [now rewrite Hfire|]. split; [now rewrite Hflush|].
  split; [now rewrite Hfire|]. split; [now rewrite Hflush|].
  split.
  { intros t'. unfold fire. rewrite bool_decide_eq_false_2; [reflexivity|].
    rewrite Hflush. cbn [armed]. apply not_elem_of_empty. }
  split.
  { intros t'. unfold fire at 1. rewrite bool_decide_eq_false_2; [reflexivity|].
    rewrite Hfire. cbn [armed]. apply not_elem_of_empty. }
  rewrite Hflush, Hfire. split; intros Hthrows; rewrite Hthrows;
    unfold flush, deliver; cbn [pendingArgsRef invoked fst snd app];
    repeat split; reflexivity.
Qed.

End DebounceFacts.

(** ** The properties at concrete inputs *)

Module Instances.
Import MoreScenarios.

(** The two-sentence narration has no white space but spaces, and the
    segmenter keeps its words. *)
Lemma segments_keep_words_witness :
  CaptionWords.onlySpaces hornNarration
  /\ CaptionWords.wordsOf (segments hornNarration) = CaptionWords.words hornNarration.
Proof.
  assert (H : CaptionWords.onlySpaces hornNarration).
  { unfold CaptionWords.onlySpaces, hornNarration. cbn [str].
    apply Forall_forall. intros c Hc Hw.
    cbv in Hc. repeat (destruct Hc as [<-|Hc]; [first [reflexivity | discriminate Hw]|]).
    contradiction. }
  split; [exact H | exact (CaptionExtras.segments_keep_words hornNarration H)].
Defined.

(** Thirty-one requests from the shared bucket within a tenth of a second,
    and one from another address: the thirty-first is refused. *)
Lemma rateLimitMemory_window_quota_witness :
  RateLimit.decisionsFor (str "unknown")
    (str "unknown" :: replicate 30 (str "unknown") ++ [str "10.0.0.7"])
    (RateLimit.rateLimitAll
       (str "unknown" :: replicate 30 (str "unknown") ++ [str "10.0.0.7"])
       RateLimit.quietStart).1
  = replicate 30 true ++ [false].
Proof.
  refine (RateLimitFacts.rateLimitMemory_window_quota (str "unknown")
            (replicate 30 (str "unknown") ++ [str "10.0.0.7"]) RateLimit.quietStart _ _).
  - exact I.
  - intros i _. cbn [RateLimit.quietStart RateLimit.clock Clock.readings Clock.reads].
    unfold RateLimit.RATE_LIMIT_WINDOW_MS. lia.
Defined.

(** A request from another address leaves the entry of the shared bucket
    as it is. *)
Lemma rateLimitMemory_other_keys_witness :
  str "10.0.0.7" <> str "unknown"
  /\ (RateLimit.memoryStore
        (RateLimit.rateLimitMemory (str "10.0.0.7") oneUnknown).2 !! str "unknown"
      = RateLimit.memoryStore oneUnknown !! str "unknown"
      \/ (RateLimit.memoryStore
            (RateLimit.rateLimitMemory (str "10.0.0.7") oneUnknown).2 !! str "unknown"
          = None
          /\ exists e, RateLimit.memoryStore oneUnknown !! str "unknown" = Some e
                       /\ (RateLimit.resetAt e
                           <= Clock.readings (RateLimit.clock oneUnknown)
                                (S (Clock.reads (RateLimit.clock oneUnknown))))%Z)).
Proof.
  assert (H : str "10.0.0.7" <> str "unknown") by (vm_compute; discriminate).
  split; [exact H|].
  exact (RateLimitFacts.rateLimitMemory_other_keys (str "10.0.0.7") (str "unknown")
           oneUnknown H).
Defined.

(** One scene, an encoder that succeeds: the answer carries the file the
    concatenation produced. *)
Lemma ok_answer_is_the_concatenation_witness :
  exists body data fs entries fs' entries' video,
    Assemble.json oneScene = Some body /\ safeParse body = Some data
    /\ fs !! tmpDir1 = Some entries
    /\ entries !! str "list.txt"
       = Some (Assemble.Text (join (str "
")
            (List.map (fun j => str "file '"
                         ++ replaceAll 92 (str "/")
                              (Assemble.pathJoin tmpDir1
                                 (Assemble.sceneFile "segment-" j ".mp4"))
                         ++ str "'")
               (seq 0 (length (scenes data))))))
    /\ concatOk (Assemble.Concat (Assemble.pathJoin tmpDir1 (str "list.txt"))
                   (Assemble.pathJoin tmpDir1 (str "output.mp4"))) fs
       = (Timeout.OperationCompletes (Timeout.Fulfils tt), fs')
    /\ fs' !! tmpDir1 = Some entries'
    /\ entries' !! str "output.mp4" = Some video
    /\ Assemble.videoResponse (Assemble.Produced tt) = Assemble.videoResponse video.
Proof.
  refine (AssembleRouteFacts.ok_answer_is_the_concatenation noPrinting renderOk
            concatOk tmpDir1 oneScene emptyWorld
            (Assemble.handleAssembleVideo noPrinting renderOk concatOk tmpDir1
               oneScene emptyWorld).2
            (Assemble.videoResponse (Assemble.Produced tt)) _ _).
  - vm_compute. reflexivity.
  - reflexivity.
Defined.

(** Thirty requests that carry a forwarded address and one that carries
    none, the proxy not being trusted: the last one is answered 429. *)
Lemma untrusted_proxy_shares_one_bucket_witness :
  List.map ApiHandler.rateLimited
    (ApiHandler.serve false None None id id (str "generate-image") alwaysOk
       (replicate 30 forwardedRequest ++ [bareRequest]) freshServer).1
  = replicate 30 false ++ [true].
Proof.
  refine (ApiFacts.untrusted_proxy_shares_one_bucket None id id
            (str "generate-image") alwaysOk
            (replicate 30 forwardedRequest ++ [bareRequest]) freshServer _ _ _).
  - intros request ctx c w. reflexivity.
  - reflexivity.
  - intros i j. cbn [freshServer ApiHandler.limiter RateLimit.quietStart
                     RateLimit.clock Clock.readings].
    unfold RateLimit.RATE_LIMIT_WINDOW_MS. lia.
Defined.

(** The body posted for an image asset and a video asset is read back as
    these two assets. *)
Lemma assembleBody_accepted_witness :
  safeParse (VideoClient.assembleBody [asset0; generatedAsset] true)
  = Some {| Schema.scenes := [asset0; generatedAsset]; Schema.captions := true |}.
Proof.
  refine (VideoClientFacts.assembleBody_accepted [asset0; generatedAsset] true _ _ _).
  - simpl. lia.
  - unfold MAX_SCENES. simpl. lia.
  - vm_compute. reflexivity.
Defined.

(** A clip of 5 seconds and an audio of 2.5 seconds make an asset of 5
    seconds that the schema accepts. *)
Lemma generated_asset_accepted_witness :
  VideoClient.acceptable generatedAsset = true
  /\ parseSceneAsset (VideoClient.sceneAssetJson generatedAsset) = Some generatedAsset
  /\ narration generatedAsset = Some (scene_narration someScene)
  /\ imageBase64 generatedAsset = None /\ videoBase64 generatedAsset <> None
  /\ durationSeconds generatedAsset = mathMax (mathMax 5 2.5) 3.
Proof.
  assert (Hall : _) by
    (refine (VideoClientFacts.generated_asset_accepted videoFive imageOk audioOk
               twoAndAHalf false someScene 0%float draftOptions generatedAsset
               _ _ _ _ _ _);
     [ vm_compute; reflexivity
     | intros request data [= <-]; reflexivity
     | intros request data [= <-]; reflexivity
     | intros request data [= <-]; reflexivity
     | intros audio contentType seconds [= <-]; reflexivity
     | vm_compute; reflexivity ]).
  destruct Hall as (H1 & H2 & H3 & [H4 H5] & _ & _).
  split; [exact H1|]. split; [exact H2|]. split; [exact H3|].
  split; [exact H4|]. split; [exact H5|]. vm_compute. reflexivity.
Defined.

(** Two workers over three items, after the first task has settled. *)
Lemma pool_never_exceeds_concurrency_witness :
  1 <= 2
  /\ PoolStates.reachable double [1; 2; 3] 2 oneSettled
  /\ PoolInvariant.busy (Pool.workers oneSettled) <= Nat.min 2 (length [1; 2; 3])
  /\ Pool.nextIndex oneSettled <= length [1; 2; 3]
  /\ (forall w i, Pool.workers oneSettled !! w = Some (Some i) ->
        i < Pool.nextIndex oneSettled)
  /\ (forall w w' i, Pool.workers oneSettled !! w = Some (Some i) ->
        Pool.workers oneSettled !! w' = Some (Some i) -> w = w')
  /\ (forall j v, Pool.results oneSettled !! j = Some (Some v) ->
        exists item, [1; 2; 3] !! j = Some item /\ double item j = inl v).
Proof.
  assert (Hc : 1 <= 2) by lia.
  assert (Hr : PoolStates.reachable double [1; 2; 3] 2 oneSettled).
  { apply (PoolStates.reach_resume double [1; 2; 3] 2 (Pool.start [1; 2; 3] 2)
             oneSettled 0).
    - apply PoolStates.reach_start.
    - vm_compute. now left.
    - reflexivity. }
  split; [exact Hc|]. split; [exact Hr|].
  exact (PoolStatesFacts.pool_never_exceeds_concurrency double [1; 2; 3] 2
           oneSettled Hc Hr).
Defined.

(** An operation that always fails, with two attempts and 250 ms given in
    the options: one wait of 250 ms. *)
Lemma withRetry_total_wait_witness :
  Retry.wholeAttempts twoQuickAttempts 2 /\ Retry.delayOf twoQuickAttempts 250
  /\ RetryWait.totalWait (snd (Retry.withRetry failsWithItsNumber twoQuickAttempts))
     = 250%Z.
Proof.
  assert (Hn : Retry.wholeAttempts twoQuickAttempts 2) by reflexivity.
  assert (Hms : Retry.delayOf twoQuickAttempts 250) by reflexivity.
  split; [exact Hn|]. split; [exact Hms|].
  destruct (RetryWaitFacts.withRetry_total_wait failsWithItsNumber twoQuickAttempts
              2 250 Hn Hms ltac:(lia) ltac:(lia)) as (_ & Hw & _).
  rewrite Hw. reflexivity.
Defined.

(** The body of one well-formed scene. *)
Lemma safeParse_sound_witness :
  safeParse (JObject [(str "scenes", JArray [sceneJson])]) = Some oneSceneData
  /\ 1 <= length (scenes oneSceneData) <= MAX_SCENES
  /\ Forall (fun d =>
        SchemaShape.wellFormed d = true
        /\ PrimFloat.leb MIN_SCENE_DURATION (SchemaShape.effectiveDuration d) = true
        /\ PrimFloat.leb (durationSeconds d) (SchemaShape.effectiveDuration d) = true
        /\ (SchemaShape.effectiveDuration d = durationSeconds d
            \/ SchemaShape.effectiveDuration d = MIN_SCENE_DURATION))
       (scenes oneSceneData).
Proof.
  assert (H : safeParse (JObject [(str "scenes", JArray [sceneJson])])
              = Some oneSceneData) by reflexivity.
  split; [exact H|].
  destruct (SchemaFacts.safeParse_sound _ _ H) as (Hcount & _ & Hall).
  split; [exact Hcount | exact Hall].
Defined.

End Instances.
